(** * NCAL Study App: question bank parser, answer normalizer, session engine

    A shallow embedding of the JavaScript sources
      - parser.js     (splitOnUnescapedSemicolons, isValidLevel,
                       parseQuestionLine, generateId, parseQuestionBank),
      - normalize.js  (normalize, isCorrect),
      - app.js        (shuffleArray, calculateStats, filterQuestions,
                       startPracticeSession, startTimer, handleTimeout,
                       toggleTimerPause, submitAnswer, nextQuestion,
                       endSession, resetFilters),
      - ui.js         (updateSubjectSelector, displayQuestion,
                       startTextReveal, as far as the engine's state goes),
      - csv.js        (escapeCsvField, arrayToCsv, the content written by
                       exportSessionCsv, prepareSessionResultsForCsv),
    together with the properties stated about them.

    Modelling conventions.
      - A JavaScript string is a [string]: a sequence of 8-bit characters.  The
        bank format is ASCII; on characters above 127 the model leaves
        [toUpperCase] and the white space test as the identity and [false].
      - A [while] loop over an index [i] into a string is a structural
        recursion over the suffix [line.slice(i)]; reading [line[i + 1]] past
        the end gives [undefined], which compares unequal to every character.
      - An exception is a value of [Thrown]; [try]/[catch] is a [match].
      - The global [appState], the part of the DOM the engine reads, and the
        host's table of live [setInterval] callbacks are threaded explicitly. *)

From Stdlib Require Import ZArith Ascii String List Bool Lia Sorted.
From Stdlib Require Import DecimalString DecimalZ DecimalPos.
From stdpp Require Import base option list strings gmap.

Set Default Proof Using "Type".

(** ** JavaScript string primitives *)

Module JsString.

Definition backslash : ascii := "092"%char.
Definition semicolon : ascii := "059"%char.
Definition dquote : ascii := "034"%char.
Definition space : ascii := "032"%char.
Definition hyphen : ascii := "045"%char.
Definition newline : ascii := "010"%char.
Definition greater : ascii := "062"%char.

(** [s + c] for a one-character string [c]. *)
Definition push (s : string) (c : ascii) : string := s +:+ String c "".

(** A string literal in double quotes, as it appears in JSON text. *)
Definition quoted (s : string) : string := String dquote (push s dquote).

Definition isEmpty (s : string) : bool :=
  match s with "" => true | String _ _ => false end.

(** ECMAScript [WhiteSpace] and [LineTerminator] below U+0080:
    TAB, LF, VT, FF, CR and SPACE. *)
Definition isWhiteSpace (c : ascii) : bool :=
  let n := nat_of_ascii c in
  ((9 <=? n) && (n <=? 13)) || (n =? 32).

Fixpoint trimStart (s : string) : string :=
  match s with
  | "" => ""
  | String c rest => if isWhiteSpace c then trimStart rest else s
  end.

Fixpoint trimEnd (s : string) : string :=
  match s with
  | "" => ""
  | String c rest =>
      let rest' := trimEnd rest in
      if isWhiteSpace c && isEmpty rest' then "" else String c rest'
  end.

(** [String.prototype.trim] *)
Definition trim (s : string) : string := trimEnd (trimStart s).

(** [s.split(sep)] for a one-character separator: always at least one
    segment. *)
Fixpoint split (sep : ascii) (s : string) : list string :=
  match s with
  | "" => [""]
  | String c rest =>
      if Ascii.eqb c sep then "" :: split sep rest
      else match split sep rest with
           | seg :: segs => String c seg :: segs
           | [] => [String c ""]
           end
  end.

(** A character below U+0080.  On text of such characters the functions of
    this module are the JavaScript ones; [toUpperCase] of other text can
    change more letters, and some of them into two. *)
Definition isAscii (c : ascii) : bool := nat_of_ascii c <? 128.

(** The lower-case letters below U+0080: a to z. *)
Definition isLowerCase (c : ascii) : bool :=
  let n := nat_of_ascii c in (97 <=? n) && (n <=? 122).

(** [toUpperCase] on one character below U+0080: a to z become A to Z, the
    others stay. *)
Definition toUpperChar (c : ascii) : ascii :=
  let n := nat_of_ascii c in
  if (97 <=? n) && (n <=? 122) then ascii_of_nat (n - 32) else c.

Fixpoint map (f : ascii → ascii) (s : string) : string :=
  match s with
  | "" => ""
  | String c rest => String (f c) (map f rest)
  end.

(** [String.prototype.toUpperCase], on text of characters below U+0080. *)
Definition toUpperCase (s : string) : string := map toUpperChar s.

(** [s.replaceAll(a, b)] for one-character [a] and [b]. *)
Definition replaceAllChar (a b : ascii) (s : string) : string :=
  map (λ c, if Ascii.eqb c a then b else c) s.

(** A function applied to the first, to the last segment of a split. *)
Definition mapFirst (f : string → string) (l : list string) : list string :=
  match l with
  | x :: r => f x :: r
  | [] => []
  end.

Fixpoint mapLast (f : string → string) (l : list string) : list string :=
  match l with
  | [] => []
  | x :: r =>
      match r with
      | [] => [f x]
      | _ :: _ => x :: mapLast f r
      end
  end.

Fixpoint skip (n : nat) (s : string) : string :=
  match n, s with
  | S n', String _ rest => skip n' rest
  | _, _ => s
  end.

Fixpoint all (p : ascii → bool) (s : string) : bool :=
  match s with
  | "" => true
  | String c rest => p c && all p rest
  end.

Fixpoint occurs (c : ascii) (s : string) : bool :=
  match s with
  | "" => false
  | String d rest => Ascii.eqb d c || occurs c rest
  end.

End JsString.

(** ** parser.js *)

Module Parser.
Import JsString.

(** The body of the [while (i < line.length)] loop of
    [splitOnUnescapedSemicolons]; [line] is the text from index [i] on. *)
Fixpoint split_loop (fields : list string) (currentField : string)
         (line : string) {struct line} : list string :=
  match line with
  | "" => fields ++ [currentField]
  | String char rest =>
      match rest with
      | String nextChar rest2 =>
          if Ascii.eqb char backslash && Ascii.eqb nextChar semicolon then
            split_loop fields (push currentField semicolon) rest2
          else if Ascii.eqb char backslash && Ascii.eqb nextChar backslash then
            split_loop fields (push currentField backslash) rest2
          else if Ascii.eqb char semicolon then
            split_loop (fields ++ [currentField]) "" rest
          else
            split_loop fields (push currentField char) rest
      | "" =>
          if Ascii.eqb char semicolon then
            split_loop (fields ++ [currentField]) "" rest
          else
            split_loop fields (push currentField char) rest
      end
  end.

Definition splitOnUnescapedSemicolons (line : string) : list string :=
  split_loop [] "" line.

(** The field splitter as the format description words it, without loop
    state: the head of the result is the field being read. *)
Definition extend (c : ascii) (fs : list string) : list string :=
  match fs with
  | f :: fs' => String c f :: fs'
  | [] => [String c ""]
  end.

Fixpoint fields_of (line : string) : list string :=
  match line with
  | "" => [""]
  | String c rest =>
      match rest with
      | String d rest2 =>
          if Ascii.eqb c backslash && Ascii.eqb d semicolon then
            extend semicolon (fields_of rest2)
          else if Ascii.eqb c backslash && Ascii.eqb d backslash then
            extend backslash (fields_of rest2)
          else if Ascii.eqb c semicolon then "" :: fields_of rest
          else extend c (fields_of rest)
      | "" =>
          if Ascii.eqb c semicolon then "" :: fields_of rest
          else extend c (fields_of rest)
      end
  end.

Definition resume (currentField : string) (fs : list string) : list string :=
  match fs with
  | f :: fs' => (currentField +:+ f) :: fs'
  | [] => [currentField]
  end.

(** The first character of [String c rest] is read as any other character:
    it is no separator and starts no escape sequence. *)
Definition ordinary (c : ascii) (rest : string) : bool :=
  negb (Ascii.eqb c semicolon)
  && negb (Ascii.eqb c backslash
           && match rest with
              | String d _ => Ascii.eqb d semicolon || Ascii.eqb d backslash
              | "" => false
              end).

Definition validLevels : list string := ["Freshman"; "Junior Varsity"; "Varsity"].

(** [validLevels.includes(level)] *)
Definition isValidLevel (level : string) : bool :=
  existsb (String.eqb level) validLevels.

(** [ToInt32]: the value a bitwise operator sees. *)
Definition toInt32 (z : Z) : Z := ((z + 2 ^ 31) mod 2 ^ 32 - 2 ^ 31)%Z.

(** One round of the loop of [generateId]:
    [hash = ((hash << 5) - hash) + char; hash = hash & hash]. *)
Definition hash_step (hash : Z) (c : ascii) : Z :=
  toInt32 (toInt32 (hash * 32) - hash + Z.of_nat (nat_of_ascii c))%Z.

Fixpoint hash_loop (hash : Z) (content : string) : Z :=
  match content with
  | "" => hash
  | String c rest => hash_loop (hash_step hash c) rest
  end.

Definition digit36 (d : Z) : ascii :=
  if (d <? 10)%Z then ascii_of_nat (48 + Z.to_nat d)
  else ascii_of_nat (87 + Z.to_nat d).

(** [n.toString(36)] for an integer [0 <= n < 36 ^ fuel]. *)
Fixpoint toBase36 (fuel : nat) (n : Z) (acc : string) : string :=
  match fuel with
  | O => acc
  | S fuel' =>
      let acc' := String (digit36 (n mod 36)) acc in
      if (n / 36 =? 0)%Z then acc' else toBase36 fuel' (n / 36)%Z acc'
  end.

(** [Math.abs(hash).toString(36)]; [|hash| <= 2 ^ 31 < 36 ^ 7]. *)
Definition generateId (content : string) : string :=
  toBase36 7 (Z.abs (hash_loop 0 content)) "".

(** Decimal rendering of an array length inside a template literal. *)
Definition Number_toString (n : nat) : string :=
  NilZero.string_of_uint (Nat.to_uint n).

Record Question := {
  id : string;
  category : string;
  subjectBroad : string;
  subjectSpecific : string;
  question : string;
  answers : list string;
  level : string;
  author : string
}.

(** The object returned from the [catch] block ([error: true] is the tag
    [Malformed] below). *)
Record ParseError := {
  filename : string;
  line : nat;
  reason : string;
  rawLine : string
}.

(** What [JSON.parse] can produce; the parser looks at arrays and strings
    only. *)
#[local] Unset Elimination Schemes.
Inductive JsValue :=
| JNull
| JBool (b : bool)
| JNumber (n : Z)
| JString (s : string)
| JArray (elements : list JsValue)
| JObject (members : list (string * JsValue)).
#[local] Set Elimination Schemes.

(** The completion of an evaluation: a value, or a thrown [Error] with its
    [message]. *)
Inductive Completion (A : Type) :=
| Normal (value : A)
| Thrown (message : string).
Arguments Normal {A} value.
Arguments Thrown {A} message.

(** The three shapes of the value [parseQuestionLine] returns: [null], a
    question object, an error object. *)
Inductive LineResult :=
| Skipped
| Parsed (q : Question)
| Malformed (e : ParseError).

(** [typeof a === 'string' && a.trim()] *)
Definition isNonEmptyString (a : JsValue) : bool :=
  match a with
  | JString s => negb (isEmpty (trim s))
  | _ => false
  end.

(** [a.trim()] in [answers.map(a => a.trim())]; only strings reach it. *)
Definition trimAnswer (a : JsValue) : string :=
  match a with
  | JString s => trim s
  | _ => ""
  end.

(** [subjectParts.length > 1 ? subjectParts[1] : category] *)
Definition specificPart (category : string) : string :=
  match split greater category with
  | _ :: second :: _ => second
  | _ => category
  end.

(** [subjectParts[0]] *)
Definition broadPart (category : string) : string :=
  match split greater category with
  | first :: _ => first
  | [] => ""
  end.

Section WithJson.
(** [JSON.parse] is the host's: the parser is verified for whatever it
    returns, a value or a [SyntaxError] with some message. *)
Variable JSON_parse : string → Completion JsValue.

(** The [try] block of [parseQuestionLine]. *)
Definition parseQuestionLine_try (line : string) : Completion (option Question) :=
  if isEmpty (trim line) then Normal None
  else
    let fields := splitOnUnescapedSemicolons line in
    match fields with
    | [category; question; answersJson; level; author] =>
        if isEmpty (trim category) then Thrown "Category cannot be empty"
        else if isEmpty (trim question) then Thrown "Question cannot be empty"
        else
          match JSON_parse answersJson with
          | Thrown message =>
              Thrown ("Invalid JSON in answers field: " +:+ message)
          | Normal parsed =>
              match parsed with
              | JArray (first :: others) =>
                  let answers := first :: others in
                  if negb (forallb isNonEmptyString answers) then
                    Thrown "All answers must be non-empty strings"
                  else if negb (isValidLevel level) then
                    Thrown ("Unknown level: " +:+ level)
                  else if isEmpty (trim author) then
                    Thrown "Author cannot be empty"
                  else
                    Normal (Some {|
                      id := generateId (category +:+ question +:+ level +:+ author);
                      category := trim category;
                      subjectBroad := trim (broadPart category);
                      subjectSpecific := trim (specificPart category);
                      question := trim question;
                      answers := List.map trimAnswer answers;
                      level := trim level;
                      author := trim author |})
              | _ => Thrown "Answers must be a non-empty array"
              end
          end
    | _ =>
        Thrown ("Expected 5 fields, got " +:+ Number_toString (length fields))
    end.

(** [try { ... } catch (error) { return { error: true, ... } }] *)
Definition parseQuestionLine (line filename : string) (lineNumber : nat)
  : LineResult :=
  match parseQuestionLine_try line with
  | Normal None => Skipped
  | Normal (Some q) => Parsed q
  | Thrown message =>
      Malformed {| filename := filename; line := lineNumber;
                   reason := message; rawLine := line |}
  end.

Record BankResult := {
  questions : list Question;
  errors : list ParseError;
  totalLines : nat;
  validQuestions : nat;
  errorCount : nat
}.

(** [lines.forEach((line, index) => ...)] from [index] on, pushing onto the
    two arrays. *)
Fixpoint forEach_line (filename : string) (lines : list string) (index : nat)
         (questions : list Question) (errors : list ParseError)
  : list Question * list ParseError :=
  match lines with
  | [] => (questions, errors)
  | line :: rest =>
      let lineNumber := index + 1 in
      match parseQuestionLine line filename lineNumber with
      | Skipped => forEach_line filename rest (S index) questions errors
      | Malformed e =>
          forEach_line filename rest (S index) questions (errors ++ [e])
      | Parsed q =>
          forEach_line filename rest (S index) (questions ++ [q]) errors
      end
  end.

Definition parseQuestionBank (content filename : string) : BankResult :=
  let lines := split newline content in
  let '(questions, errors) := forEach_line filename lines 0 [] [] in
  {| questions := questions;
     errors := errors;
     totalLines := length lines;
     validQuestions := length questions;
     errorCount := length errors |}.

(** The value [parseQuestionLine] returns for each line of [content], in
    line order, with the 1-based line number it is given. *)
Definition lineResults (content filename : string) : list LineResult :=
  imap (λ index line, parseQuestionLine line filename (index + 1))
       (split newline content).

End WithJson.

Definition parsedOf (r : LineResult) : option Question :=
  match r with Parsed q => Some q | _ => None end.

Definition malformedOf (r : LineResult) : option ParseError :=
  match r with Malformed e => Some e | _ => None end.

(** A line of white space only. *)
Definition isBlank (line : string) : bool := isEmpty (trim line).

(** The text between the first and the second [>] of a category, trimmed;
    the category itself when it has no [>]. *)
Definition secondSegment (category : string) : string :=
  match split greater category with
  | _ :: second :: _ => trim second
  | _ => category
  end.

(** The text after the first [>] of a category; the category itself when it
    has no [>]. *)
Fixpoint afterFirstDelimiter (category : string) : option string :=
  match category with
  | "" => None
  | String c rest =>
      if Ascii.eqb c greater then Some rest else afterFirstDelimiter rest
  end.

Definition remainderAfterDelimiter (category : string) : string :=
  default category (afterFirstDelimiter category).

End Parser.

(** ** A reference [JSON.parse] for the worked examples

    Arrays, string literals with the two-character escapes, integers and the
    three literal names; anything else is reported as a syntax error.  The
    general statements about the parser quantify over [JSON_parse]; this
    instance only evaluates concrete bank lines. *)

Module Json.
Import JsString Parser.

Definition isJsonSpace (c : ascii) : bool :=
  let n := nat_of_ascii c in
  (n =? 32) || (n =? 9) || (n =? 10) || (n =? 13).

Fixpoint skipSpace (s : string) : string :=
  match s with
  | String c rest => if isJsonSpace c then skipSpace rest else s
  | "" => ""
  end.

Definition unescape (c : ascii) : option ascii :=
  let n := nat_of_ascii c in
  if (n =? 34) || (n =? 92) || (n =? 47) then Some c
  else if n =? 98 then Some (ascii_of_nat 8)
  else if n =? 102 then Some (ascii_of_nat 12)
  else if n =? 110 then Some (ascii_of_nat 10)
  else if n =? 114 then Some (ascii_of_nat 13)
  else if n =? 116 then Some (ascii_of_nat 9)
  else None.

(** The characters of a string literal after its opening quote. *)
Fixpoint stringBody (s : string) : option (string * string) :=
  match s with
  | "" => None
  | String c rest =>
      if Ascii.eqb c dquote then Some ("", rest)
      else if Ascii.eqb c backslash then
        match rest with
        | String e rest2 =>
            match unescape e, stringBody rest2 with
            | Some c', Some (body, rest3) => Some (String c' body, rest3)
            | _, _ => None
            end
        | "" => None
        end
      else if nat_of_ascii c <? 32 then None
      else
        match stringBody rest with
        | Some (body, rest2) => Some (String c body, rest2)
        | None => None
        end
  end.

Definition isDigit (c : ascii) : bool :=
  let n := nat_of_ascii c in (48 <=? n) && (n <=? 57).

Fixpoint digits (acc : Z) (s : string) : Z * string :=
  match s with
  | String c rest =>
      if isDigit c then digits (acc * 10 + Z.of_nat (nat_of_ascii c - 48))%Z rest
      else (acc, s)
  | "" => (acc, "")
  end.

Fixpoint value (fuel : nat) (s : string) : option (JsValue * string) :=
  match fuel with
  | O => None
  | S fuel' =>
      match skipSpace s with
      | "" => None
      | String c rest =>
          if Ascii.eqb c "["%char then
            match skipSpace rest with
            | String c' rest' =>
                if Ascii.eqb c' "]"%char then Some (JArray [], rest')
                else
                  match elements fuel' rest with
                  | Some (vs, rest2) => Some (JArray vs, rest2)
                  | None => None
                  end
            | "" => None
            end
          else if Ascii.eqb c dquote then
            match stringBody rest with
            | Some (body, rest') => Some (JString body, rest')
            | None => None
            end
          else if String.prefix "true" (String c rest) then
            Some (JBool true, skip 3 rest)
          else if String.prefix "false" (String c rest) then
            Some (JBool false, skip 4 rest)
          else if String.prefix "null" (String c rest) then
            Some (JNull, skip 3 rest)
          else if isDigit c then
            let '(n, rest') := digits 0 (String c rest) in Some (JNumber n, rest')
          else None
      end
  end
with elements (fuel : nat) (s : string) : option (list JsValue * string) :=
  match fuel with
  | O => None
  | S fuel' =>
      match value fuel' s with
      | Some (v, rest) =>
          match skipSpace rest with
          | String c rest' =>
              if Ascii.eqb c ","%char then
                match elements fuel' rest' with
                | Some (vs, rest2) => Some (v :: vs, rest2)
                | None => None
                end
              else if Ascii.eqb c "]"%char then Some ([v], rest')
              else None
          | "" => None
          end
      | None => None
      end
  end.

Definition parse (text : string) : Completion JsValue :=
  match value (2 * String.length text + 2) text with
  | Some (v, rest) =>
      if isEmpty (skipSpace rest) then Normal v
      else Thrown "Unexpected token in JSON"
  | None => Thrown "Unexpected token in JSON"
  end.

End Json.

(** ** normalize.js *)

Module Normalize.
Import JsString.

(** The fourth step replaces the matches of a regular expression literal
    whose text is: an opening bracket, the characters . , ! ? : double quote,
    apostrophe, ( and ), then backslash backslash, an opening bracket,
    backslash backslash, a closing bracket, and last the three characters
    opening brace, closing brace, closing bracket.  In a regular expression
    literal backslash backslash is an escaped backslash, so the character
    class ends at the first closing bracket: it holds the eleven characters
    of [punctuationClass].  The brace pair holds no digits, so it is no
    quantifier: the three characters after the class are literal pattern
    characters.  A match is one class character followed by opening brace,
    closing brace, closing bracket. *)
Definition punctuationClass : list ascii :=
  ["."; ","; "!"; "?"; ":"; dquote; "'"; "("; ")"; backslash; "["]%char.

Definition inClass (c : ascii) : bool := existsb (Ascii.eqb c) punctuationClass.

(** [.replace(..., '')] with the [g] flag: matches are found left to right
    and do not overlap. *)
Fixpoint removePunctuation (s : string) : string :=
  match s with
  | "" => ""
  | String c rest =>
      match rest with
      | String c1 (String c2 (String c3 rest')) =>
          if inClass c && Ascii.eqb c1 "{" && Ascii.eqb c2 "}" && Ascii.eqb c3 "]"
          then removePunctuation rest'
          else String c (removePunctuation rest)
      | _ => String c (removePunctuation rest)
      end
  end.

Definition startsWithWhiteSpace (s : string) : bool :=
  match s with
  | String c _ => isWhiteSpace c
  | "" => false
  end.

(** [.replace(/\s+/g, ' ')]: every maximal run of white space becomes one
    space, written when the last character of the run is read. *)
Fixpoint collapseWhiteSpace (s : string) : string :=
  match s with
  | "" => ""
  | String c rest =>
      if isWhiteSpace c then
        if startsWithWhiteSpace rest then collapseWhiteSpace rest
        else String space (collapseWhiteSpace rest)
      else String c (collapseWhiteSpace rest)
  end.

(** [.replace(/^(THE |A |AN )/, '')] *)
Definition stripArticle (s : string) : string :=
  if String.prefix "THE " s then skip 4 s
  else if String.prefix "A " s then skip 2 s
  else if String.prefix "AN " s then skip 3 s
  else s.

Definition normalize (s : string) : string :=
  stripArticle
    (collapseWhiteSpace
       (removePunctuation
          (replaceAllChar hyphen space
             (toUpperCase (trim s))))).

Definition isCorrect (userInput : string) (answersArray : list string) : bool :=
  let u := normalize userInput in
  existsb (λ a, String.eqb (normalize a) u) answersArray.

(** The punctuation the documentation of [normalize] lists. *)
Definition punctuationSet : list ascii :=
  ["."; ","; "!"; "?"; ":"; dquote; "'"; "("; ")"; "["; "]"; "{"; "}"]%char.

Definition hasPunctuation (s : string) : bool :=
  existsb (λ c, occurs c s) punctuationSet.

Definition startsWithArticle (s : string) : bool :=
  String.prefix "THE " s || String.prefix "A " s || String.prefix "AN " s.

(** No white space but single spaces. *)
Fixpoint isCollapsed (s : string) : bool :=
  match s with
  | "" => true
  | String c rest =>
      (if isWhiteSpace c then Ascii.eqb c space && negb (startsWithWhiteSpace rest)
       else true) && isCollapsed rest
  end.

(** Characters the first three steps leave alone. *)
Definition isSettled (c : ascii) : bool :=
  Ascii.eqb (toUpperChar c) c && negb (Ascii.eqb c hyphen).

End Normalize.

(** ** app.js and the parts of ui.js it drives

    The model follows the later of the two variants of the application file
    (the one with [calculateStats] and the password gate) and the later ui.js
    with the progressive text reveal; the earlier variant has the same filter
    resolution, [handleTimeout], [endSession] and [resetFilters]. *)

Module Session.
Import JsString.

(** The three strings written to [correctness]. *)
Inductive Correctness := Correct | Incorrect | Timeout.

Record AnswerRecord := {
  answer : string;
  correctness : Correctness;
  timeElapsed : Z;
  timestamp : Z
}.

(** A JavaScript array with holes. *)
Abbreviation SparseArray A := (list (option A)) (only parsing).

(** [array[i]]: [undefined] in a hole and past the end. *)
Definition array_get {A} (array : SparseArray A) (i : nat) : option A :=
  mjoin (array !! i).

(** [array[i] = v]: past the end the array grows, leaving holes. *)
Definition array_set {A} (array : SparseArray A) (i : nat) (v : A)
  : SparseArray A :=
  if decide (i < length array) then <[i := Some v]> array
  else array ++ replicate (i - length array) None ++ [Some v].

(** An [input type=checkbox] of a subject group. *)
Record Checkbox := {
  value : string;
  disabled : bool;
  checked : bool
}.

Definition setChecked (b : bool) (cb : Checkbox) : Checkbox :=
  {| value := value cb; disabled := disabled cb; checked := b |}.

(** What the engine reads and writes in the document: the subject
    checkboxes in document order, the value of the checked level radio (the
    empty string for the radio of no level filter, and when none is checked),
    the active screen and the number shown in the countdown element. *)
Record Dom := {
  subjects : list Checkbox;
  levelChecked : string;
  activeScreen : string;
  timerCountdown : Z
}.

(** The state of a live [setInterval] callback: the variables its closure
    owns. *)
Inductive Callback :=
| QuestionTimer (timeLeft : Z)
| TextReveal (words : list string) (currentWordIndex : nat).

(** The fields of [appState] that the modelled functions use (the reading
    speed and the counters of the Enter key are left out). *)
Record AppState := {
  questions : list Parser.Question;
  filteredQuestions : list Parser.Question;
  currentQuestionIndex : nat;
  userAnswers : SparseArray AnswerRecord;
  sessionStartTime : option Z;
  timeAllocated : Z;
  timer : option positive;
  isPaused : bool;
  isSessionActive : bool;
  textRevealTimer : option positive
}.

(** [appState], the document, and the host: its live intervals by handle
    (handles are positive, hence truthy), the next handle, and the numbers
    [Math.random] is going to return, the [k]-th scaled and floored to
    [random k mod n] for a bound [n]. *)
Record World := {
  app : AppState;
  dom : Dom;
  intervals : gmap positive Callback;
  nextHandle : positive;
  random : nat → nat;
  drawn : nat
}.

Definition withApp (f : AppState → AppState) (w : World) : World :=
  {| app := f (app w); dom := dom w; intervals := intervals w;
     nextHandle := nextHandle w; random := random w; drawn := drawn w |}.

Definition withDom (f : Dom → Dom) (w : World) : World :=
  {| app := app w; dom := f (dom w); intervals := intervals w;
     nextHandle := nextHandle w; random := random w; drawn := drawn w |}.

Definition withIntervals (f : gmap positive Callback → gmap positive Callback)
           (w : World) : World :=
  {| app := app w; dom := dom w; intervals := f (intervals w);
     nextHandle := nextHandle w; random := random w; drawn := drawn w |}.

Definition setFilteredQuestions (qs : list Parser.Question) (a : AppState) :=
  {| questions := questions a; filteredQuestions := qs;
     currentQuestionIndex := currentQuestionIndex a;
     userAnswers := userAnswers a; sessionStartTime := sessionStartTime a;
     timeAllocated := timeAllocated a; timer := timer a;
     isPaused := isPaused a; isSessionActive := isSessionActive a;
     textRevealTimer := textRevealTimer a |}.

Definition setCurrentQuestionIndex (i : nat) (a : AppState) :=
  {| questions := questions a; filteredQuestions := filteredQuestions a;
     currentQuestionIndex := i;
     userAnswers := userAnswers a; sessionStartTime := sessionStartTime a;
     timeAllocated := timeAllocated a; timer := timer a;
     isPaused := isPaused a; isSessionActive := isSessionActive a;
     textRevealTimer := textRevealTimer a |}.

Definition setUserAnswers (l : SparseArray AnswerRecord) (a : AppState) :=
  {| questions := questions a; filteredQuestions := filteredQuestions a;
     currentQuestionIndex := currentQuestionIndex a;
     userAnswers := l; sessionStartTime := sessionStartTime a;
     timeAllocated := timeAllocated a; timer := timer a;
     isPaused := isPaused a; isSessionActive := isSessionActive a;
     textRevealTimer := textRevealTimer a |}.

Definition setTimer (t : option positive) (a : AppState) :=
  {| questions := questions a; filteredQuestions := filteredQuestions a;
     currentQuestionIndex := currentQuestionIndex a;
     userAnswers := userAnswers a; sessionStartTime := sessionStartTime a;
     timeAllocated := timeAllocated a; timer := t;
     isPaused := isPaused a; isSessionActive := isSessionActive a;
     textRevealTimer := textRevealTimer a |}.

Definition setTextRevealTimer (t : option positive) (a : AppState) :=
  {| questions := questions a; filteredQuestions := filteredQuestions a;
     currentQuestionIndex := currentQuestionIndex a;
     userAnswers := userAnswers a; sessionStartTime := sessionStartTime a;
     timeAllocated := timeAllocated a; timer := timer a;
     isPaused := isPaused a; isSessionActive := isSessionActive a;
     textRevealTimer := t |}.

Definition setIsPaused (b : bool) (a : AppState) :=
  {| questions := questions a; filteredQuestions := filteredQuestions a;
     currentQuestionIndex := currentQuestionIndex a;
     userAnswers := userAnswers a; sessionStartTime := sessionStartTime a;
     timeAllocated := timeAllocated a; timer := timer a;
     isPaused := b; isSessionActive := isSessionActive a;
     textRevealTimer := textRevealTimer a |}.

Definition setIsSessionActive (b : bool) (a : AppState) :=
  {| questions := questions a; filteredQuestions := filteredQuestions a;
     currentQuestionIndex := currentQuestionIndex a;
     userAnswers := userAnswers a; sessionStartTime := sessionStartTime a;
     timeAllocated := timeAllocated a; timer := timer a;
     isPaused := isPaused a; isSessionActive := b;
     textRevealTimer := textRevealTimer a |}.

Definition setSessionStartTime (t : option Z) (a : AppState) :=
  {| questions := questions a; filteredQuestions := filteredQuestions a;
     currentQuestionIndex := currentQuestionIndex a;
     userAnswers := userAnswers a; sessionStartTime := t;
     timeAllocated := timeAllocated a; timer := timer a;
     isPaused := isPaused a; isSessionActive := isSessionActive a;
     textRevealTimer := textRevealTimer a |}.

Definition setSubjects (l : list Checkbox) (d : Dom) : Dom :=
  {| subjects := l; levelChecked := levelChecked d;
     activeScreen := activeScreen d; timerCountdown := timerCountdown d |}.

Definition setLevelChecked (v : string) (d : Dom) : Dom :=
  {| subjects := subjects d; levelChecked := v;
     activeScreen := activeScreen d; timerCountdown := timerCountdown d |}.

(** [showScreen(screenId)] *)
Definition showScreen (screenId : string) (d : Dom) : Dom :=
  {| subjects := subjects d; levelChecked := levelChecked d;
     activeScreen := screenId; timerCountdown := timerCountdown d |}.

(** [updateTimerDisplay(timeLeft, totalTime)]: the text of the countdown. *)
Definition updateTimerDisplay (timeLeft : Z) (d : Dom) : Dom :=
  {| subjects := subjects d; levelChecked := levelChecked d;
     activeScreen := activeScreen d; timerCountdown := timeLeft |}.

(** [setInterval(callback, ms)] *)
Definition setInterval (cb : Callback) (w : World) : positive * World :=
  (nextHandle w,
   {| app := app w; dom := dom w;
      intervals := <[nextHandle w := cb]> (intervals w);
      nextHandle := Pos.succ (nextHandle w);
      random := random w; drawn := drawn w |}).

(** [clearInterval(handle)]; [null] and stale handles are ignored. *)
Definition clearInterval (handle : option positive) (w : World) : World :=
  match handle with
  | Some h => withIntervals (delete h) w
  | None => w
  end.

(** [[array[i], array[j]] = [array[j], array[i]]] *)
Definition swap {A} (array : list A) (i j : nat) : list A :=
  match array !! i, array !! j with
  | Some x, Some y => <[j := x]> (<[i := y]> array)
  | _, _ => array
  end.

(** [for (let i = array.length - 1; i > 0; i--)] from [i] down. *)
Fixpoint shuffle_loop {A} (random : nat → nat) (drawn : nat) (i : nat)
         (array : list A) : list A * nat :=
  match i with
  | O => (array, drawn)
  | S i' =>
      let j := random drawn mod (i + 1) in
      shuffle_loop random (S drawn) i' (swap array i j)
  end.

Definition shuffleArray {A} (random : nat → nat) (drawn : nat) (array : list A)
  : list A * nat :=
  shuffle_loop random drawn (length array - 1) array.

(** [{ selectedSubjects, selectedLevel }] *)
Definition getActiveFilters (d : Dom) : list string * string :=
  (List.map value (List.filter checked (subjects d)), levelChecked d).

(** The predicate of [appState.questions.filter(...)]. *)
Definition matchesFilters (selectedSubjects : list string)
           (selectedLevel : string) (q : Parser.Question) : bool :=
  let subjectMatch :=
    (length selectedSubjects =? 0)
    || existsb (String.eqb (Parser.category q)) selectedSubjects in
  let levelMatch :=
    isEmpty selectedLevel || String.eqb (Parser.level q) selectedLevel in
  subjectMatch && levelMatch.

Definition filterQuestions (w : World) : nat * World :=
  let '(selectedSubjects, selectedLevel) := getActiveFilters (dom w) in
  let filtered :=
    List.filter (matchesFilters selectedSubjects selectedLevel)
                (questions (app w)) in
  let '(shuffled, drawn') := shuffleArray (random w) (drawn w) filtered in
  (length shuffled,
   {| app := setFilteredQuestions shuffled (app w); dom := dom w;
      intervals := intervals w; nextHandle := nextHandle w;
      random := random w; drawn := drawn' |}).

(** [selectAllSubjects] and [selectAllAvailableSubjects] have the same body:
    every checkbox that is not disabled is checked. *)
Definition selectAllSubjects (d : Dom) : Dom :=
  setSubjects
    (List.map (λ cb, if disabled cb then cb else setChecked true cb) (subjects d))
    d.

Definition selectAllAvailableSubjects (d : Dom) : Dom :=
  setSubjects
    (List.map (λ cb, if disabled cb then cb else setChecked true cb) (subjects d))
    d.

Definition clearAllSubjects (d : Dom) : Dom :=
  setSubjects (List.map (setChecked false) (subjects d)) d.

(** [questions.some(q => q.category === subjectValue)] *)
Definition hasQuestions (pool : list Parser.Question) (subjectValue : string)
  : bool :=
  existsb (λ q, String.eqb (Parser.category q) subjectValue) pool.

(** [updateSubjectSelector(questions)], run when the bank has been loaded. *)
Definition updateSubjectSelector (pool : list Parser.Question) (d : Dom) : Dom :=
  setSubjects
    (List.map
       (λ cb,
          let has := hasQuestions pool (value cb) in
          {| value := value cb; disabled := negb has;
             checked := if has then checked cb else false |})
       (subjects d))
    d.

(** [document.querySelector('input[name=level][value=]').checked = true] *)
Definition clearLevel (d : Dom) : Dom := setLevelChecked "" d.

(** The filter resolution at the head of [startPracticeSession]: the first
    [filterQuestions] and the three retries, up to the test that announces
    that no question was found. *)
Definition resolveFilters (w : World) : nat * World :=
  let '(questionCount, w) := filterQuestions w in
  if questionCount =? 0 then
    let selectedSubjects := List.filter checked (subjects (dom w)) in
    let '(questionCount, w) :=
      if length selectedSubjects =? 0
      then filterQuestions (withDom selectAllSubjects w)
      else (questionCount, w) in
    let '(questionCount, w) :=
      if questionCount =? 0
      then filterQuestions (withDom clearLevel w)
      else (questionCount, w) in
    let '(questionCount, w) :=
      if questionCount =? 0
      then filterQuestions (withDom selectAllAvailableSubjects w)
      else (questionCount, w) in
    (questionCount, w)
  else (questionCount, w).

(** [startTextReveal(element, fullText)] as far as the interval goes: the
    first word is shown at once, the rest one per tick. *)
Definition startTextReveal (fullText : string) (w : World) : World :=
  let w := withApp (setTextRevealTimer None)
             (clearInterval (textRevealTimer (app w)) w) in
  let words := split space fullText in
  if 1 <? length words then
    let '(h, w) := setInterval (TextReveal words 1) w in
    withApp (setTextRevealTimer (Some h)) w
  else w.

(** [displayQuestion(question)] *)
Definition displayQuestion (q : Parser.Question) (w : World) : World :=
  let w := withApp (setTextRevealTimer None)
             (clearInterval (textRevealTimer (app w)) w) in
  startTextReveal (Parser.question q) w.

Definition startTimer (w : World) : World :=
  let w := clearInterval (timer (app w)) w in
  let timeLeft := timeAllocated (app w) in
  let w := withDom (updateTimerDisplay timeLeft) w in
  let '(h, w) := setInterval (QuestionTimer timeLeft) w in
  withApp (setTimer (Some h)) w.

(** [handleTimeout]; [now] is what [Date.now()] returns. *)
Definition handleTimeout (now : Z) (w : World) : World :=
  withApp
    (λ a,
       setUserAnswers
         (array_set (userAnswers a) (currentQuestionIndex a)
            {| answer := ""; correctness := Timeout;
               timeElapsed := timeAllocated a; timestamp := now |})
         a)
    w.

(** One run of the callback registered under [handle], if it is live. *)
Definition tick (handle : positive) (now : Z) (w : World) : World :=
  match intervals w !! handle with
  | None => w
  | Some (QuestionTimer timeLeft) =>
      if isPaused (app w) then w
      else
        let timeLeft := (timeLeft - 1)%Z in
        let w := withIntervals (<[handle := QuestionTimer timeLeft]>) w in
        if (timeLeft <=? 0)%Z then
          let w := withDom (updateTimerDisplay 0) w in
          let w := clearInterval (timer (app w)) w in
          let w := withApp (setTimer None) w in
          handleTimeout now w
        else withDom (updateTimerDisplay timeLeft) w
  | Some (TextReveal words currentWordIndex) =>
      if currentWordIndex <? length words then
        withIntervals (<[handle := TextReveal words (S currentWordIndex)]>) w
      else
        withApp (setTextRevealTimer None)
          (clearInterval (textRevealTimer (app w)) w)
  end.

Definition toggleTimerPause (w : World) : World :=
  withApp (λ a, setIsPaused (negb (isPaused a)) a) w.

(** [submitAnswer]; [input] is the value of the answer field.  Past the end
    of the working set [currentQuestion] is [undefined] and reading its
    answers throws, after the timer has been stopped. *)
Definition submitAnswer (input : string) (now : Z) (w : World) : World :=
  let userAnswer := trim input in
  if isEmpty userAnswer then w
  else
    let w := withApp (setTimer None) (clearInterval (timer (app w)) w) in
    match filteredQuestions (app w) !! currentQuestionIndex (app w) with
    | None => w
    | Some currentQuestion =>
        let isAnswerCorrect :=
          Normalize.isCorrect userAnswer (Parser.answers currentQuestion) in
        let timeLeft := timerCountdown (dom w) in
        let timeElapsed := (timeAllocated (app w) - timeLeft)%Z in
        withApp
          (λ a,
             setUserAnswers
               (array_set (userAnswers a) (currentQuestionIndex a)
                  {| answer := userAnswer;
                     correctness := if isAnswerCorrect then Correct else Incorrect;
                     timeElapsed := timeElapsed; timestamp := now |})
               a)
          w
    end.

Definition endSession (w : World) : World :=
  let w := withApp (setIsSessionActive false) w in
  let w := withApp (setTimer None) (clearInterval (timer (app w)) w) in
  withApp (setTextRevealTimer None) (clearInterval (textRevealTimer (app w)) w).

(** [nextQuestion]: the index is past the end exactly when the array has
    no element there. *)
Definition nextQuestion (w : World) : World :=
  let w := withApp (λ a, setCurrentQuestionIndex (S (currentQuestionIndex a)) a) w in
  match filteredQuestions (app w) !! currentQuestionIndex (app w) with
  | None => withDom (showScreen "summary-screen") (endSession w)
  | Some q => startTimer (displayQuestion q w)
  end.

Definition resetFilters (w : World) : World :=
  withDom (λ d, showScreen "setup-screen" (clearLevel (selectAllSubjects d))) w.

Inductive StartOutcome := Started | NoQuestionsFound.

Definition startPracticeSession (now : Z) (w : World) : StartOutcome * World :=
  let '(questionCount, w) := resolveFilters w in
  if questionCount =? 0 then (NoQuestionsFound, w)
  else
    let w :=
      withApp
        (λ a,
           setIsPaused false
             (setIsSessionActive true
                (setSessionStartTime (Some now)
                   (setUserAnswers [] (setCurrentQuestionIndex 0 a)))))
        w in
    let w := withDom (showScreen "practice-screen") w in
    match filteredQuestions (app w) with
    | first :: _ => (Started, startTimer (displayQuestion first w))
    | [] => (Started, withDom (showScreen "setup-screen") w)
    end.

(** The state [updateSubjectSelector] leaves and the checkbox handlers keep:
    a subject is disabled exactly when the pool has no question of its
    category, and a disabled checkbox is not checked. *)
Definition consistentBox (pool : list Parser.Question) (cb : Checkbox) : bool :=
  Bool.eqb (disabled cb) (negb (hasQuestions pool (value cb)))
  && (negb (checked cb) || negb (disabled cb)).

Definition loaded (w : World) : bool :=
  forallb (consistentBox (questions (app w))) (subjects (dom w)).

(** No box is checked: the test of the first retry. *)
Definition noneSelected (d : Dom) : bool :=
  forallb (λ cb, negb (checked cb)) (subjects d).

(** The questions [filterQuestions] keeps on the selection of a
    document. *)
Definition matching (pool : list Parser.Question) (d : Dom)
  : list Parser.Question :=
  let '(selectedSubjects, selectedLevel) := getActiveFilters d in
  List.filter (matchesFilters selectedSubjects selectedLevel) pool.

(** The first document of a list whose selection matches a question, the
    last one when none does. *)
Fixpoint firstMatching (pool : list Parser.Question) (d : Dom) (ds : list Dom)
  : Dom :=
  match ds with
  | [] => d
  | d' :: ds' =>
      match matching pool d with
      | [] => firstMatching pool d' ds'
      | _ :: _ => d
      end
  end.

(** A count and a world as [filterQuestions] leaves them on the selection
    [d] of a document: the count of the questions that match, the document
    with that selection, the pool as it was, and a working set that holds
    the matching questions in some order. *)
Definition settlesOn (pool : list Parser.Question) (d : Dom) (r : nat * World)
  : Prop :=
  r.1 = length (matching pool d)
  ∧ dom r.2 = d
  ∧ questions (app r.2) = pool
  ∧ filteredQuestions (app r.2) ≡ₚ matching pool d.

(** [k] runs in a row of the callback under [handle]; [clock i] is what
    [Date.now()] returns during run [from + i]. *)
Fixpoint ticks (handle : positive) (clock : nat → Z) (from k : nat) (w : World)
  : World :=
  match k with
  | O => w
  | S k' => ticks handle clock (S from) k' (tick handle (clock from) w)
  end.

(** Every live interval is one of the two that [appState] holds a handle
    of. *)
Definition tracked (w : World) : Prop :=
  ∀ h, is_Some (intervals w !! h) →
       timer (app w) = Some h ∨ textRevealTimer (app w) = Some h.

(** What the handlers registered by [setupEventListeners] and the host's
    intervals can do to the world: the start button, the back button (with
    the answer to its confirmation), a submitted answer, the next button,
    the pause button, either reset button, and a run of a live interval. *)
Inductive Event :=
| StartPractice (now : Z)
| BackToSetup (confirmed : bool)
| SubmitAnswer (input : string) (now : Z)
| NextQuestion
| TogglePause
| ResetFilters
| IntervalFires (handle : positive) (now : Z).

Definition fire (e : Event) (w : World) : World :=
  match e with
  | StartPractice now => (startPracticeSession now w).2
  | BackToSetup confirmed =>
      if confirmed then withDom (showScreen "setup-screen") (endSession w)
      else w
  | SubmitAnswer input now => submitAnswer input now w
  | NextQuestion => nextQuestion w
  | TogglePause => toggleTimerPause w
  | ResetFilters => resetFilters w
  | IntervalFires handle now => tick handle now w
  end.

(** The events of a list in order, first to last. *)
Definition run (events : list Event) (w : World) : World :=
  fold_left (λ w e, fire e w) events w.

(** A bank of two questions and a document with three subjects for the
    worked examples: the bank has just been loaded, one subject is selected,
    and the level radio is on Varsity. *)
Definition biology : Parser.Question :=
  {| Parser.id := "q1"; Parser.category := "Science>Biological Science";
     Parser.subjectBroad := "Science";
     Parser.subjectSpecific := "Biological Science";
     Parser.question := "Organelle for ATP production?";
     Parser.answers := ["Mitochondrion"; "Mitochondria"];
     Parser.level := "Freshman"; Parser.author := "NCAL" |}.

Definition history : Parser.Question :=
  {| Parser.id := "q2"; Parser.category := "Humanities>European History";
     Parser.subjectBroad := "Humanities";
     Parser.subjectSpecific := "European History";
     Parser.question := "Capital of Russia?";
     Parser.answers := ["Moscow"; "Moskva"];
     Parser.level := "Junior Varsity"; Parser.author := "NCAL" |}.

Definition sampleDom : Dom :=
  {| subjects :=
       [ {| value := "Science>Biological Science"; disabled := false; checked := true |};
         {| value := "Humanities>European History"; disabled := false; checked := false |};
         {| value := "Math>Calculus"; disabled := true; checked := false |} ];
     levelChecked := "Varsity";
     activeScreen := "setup-screen";
     timerCountdown := 0 |}.

Definition sampleWorld : World :=
  {| app :=
       {| questions := [biology; history]; filteredQuestions := [];
          currentQuestionIndex := 0; userAnswers := [];
          sessionStartTime := None; timeAllocated := 3; timer := None;
          isPaused := false; isSessionActive := false;
          textRevealTimer := None |};
     dom := sampleDom;
     intervals := ∅;
     nextHandle := 1%positive;
     random := λ _, 0;
     drawn := 0 |}.

(** The same bank with a document that has not followed it: the one subject
    checked has no question and is not disabled. *)
Definition staleDom : Dom :=
  {| subjects :=
       [ {| value := "Science>Biological Science"; disabled := false; checked := false |};
         {| value := "Math>Calculus"; disabled := false; checked := true |} ];
     levelChecked := "Varsity";
     activeScreen := "setup-screen";
     timerCountdown := 0 |}.

Definition staleWorld : World := withDom (λ _, staleDom) sampleWorld.

End Session.

(** ** Filter resolution as the design states it

    The filter and its fallbacks in the words of the design, on selections
    of subjects and a level; and, said once more without the engine's
    functions, the documents the engine goes through. *)

Module Resolution.
Import JsString Session.

(** The filter of the design: the selected categories, none meaning all,
    and the selected level, the empty string meaning any. *)
Record Selection := {
  selectedSubjects : list string;
  selectedLevel : string
}.

Definition subjectMatch (s : Selection) (q : Parser.Question) : bool :=
  match selectedSubjects s with
  | [] => true
  | subject :: others =>
      existsb (String.eqb (Parser.category q)) (subject :: others)
  end.

Definition levelMatch (s : Selection) (q : Parser.Question) : bool :=
  match selectedLevel s with
  | "" => true
  | String _ _ => String.eqb (Parser.level q) (selectedLevel s)
  end.

(** The questions of the pool that pass the filter, in pool order. *)
Definition select (pool : list Parser.Question) (s : Selection)
  : list Parser.Question :=
  List.filter (λ q, subjectMatch s q && levelMatch s q) pool.

(** Fallback (1): if no subjects were selected, select all subjects.
    [offered] are the subjects there are to select. *)
Definition selectAll (offered : list string) (s : Selection) : Selection :=
  match selectedSubjects s with
  | [] => {| selectedSubjects := offered; selectedLevel := selectedLevel s |}
  | _ :: _ => s
  end.

(** Fallback (2): clear the level filter. *)
Definition anyLevel (s : Selection) : Selection :=
  {| selectedSubjects := selectedSubjects s; selectedLevel := "" |}.

(** Fallback (3): select all subjects that have at least one matching
    question, that is, one that passes the level filter in force. *)
Definition hasMatchingQuestion (pool : list Parser.Question) (s : Selection)
           (subject : string) : bool :=
  existsb (λ q, String.eqb (Parser.category q) subject && levelMatch s q) pool.

Definition selectWithQuestions (pool : list Parser.Question)
           (offered : list string) (s : Selection) : Selection :=
  {| selectedSubjects := List.filter (hasMatchingQuestion pool s) offered;
     selectedLevel := selectedLevel s |}.

(** The first selection that yields a question, the last when none
    does. *)
Fixpoint firstNonEmpty (pool : list Parser.Question) (s : Selection)
         (fallbacks : list Selection) : Selection :=
  match fallbacks with
  | [] => s
  | s' :: fallbacks' =>
      match select pool s with
      | [] => firstNonEmpty pool s' fallbacks'
      | _ :: _ => s
      end
  end.

(** Filter resolution: the selection made, then the fallbacks in order,
    each applied to the selection the one before it leaves. *)
Definition resolve (pool : list Parser.Question) (offered : list string)
           (s : Selection) : Selection :=
  let s1 := selectAll offered s in
  let s2 := anyLevel s1 in
  let s3 := selectWithQuestions pool offered s2 in
  firstNonEmpty pool s [s1; s2; s3].

(** What the document shows: the subjects on offer, and the selection a
    reader of the checked boxes and of the level radio finds. *)
Definition offered (d : Dom) : list string := List.map value (subjects d).

Definition shown (d : Dom) : Selection :=
  {| selectedSubjects := List.map value (List.filter checked (subjects d));
     selectedLevel := levelChecked d |}.

(** The two changes the engine makes to the document while it resolves:
    every box that can be checked becomes checked; the level radio goes to
    the entry for no level. *)
Definition checkSelectable (d : Dom) : Dom :=
  {| subjects :=
       List.map
         (λ cb, {| value := value cb; disabled := disabled cb;
                   checked := checked cb || negb (disabled cb) |})
         (subjects d);
     levelChecked := levelChecked d;
     activeScreen := activeScreen d;
     timerCountdown := timerCountdown d |}.

Definition levelCleared (d : Dom) : Dom :=
  {| subjects := subjects d; levelChecked := "";
     activeScreen := activeScreen d; timerCountdown := timerCountdown d |}.

(** The first document whose selection yields a question, the last when
    none does. *)
Fixpoint firstShown (pool : list Parser.Question) (d : Dom) (ds : list Dom)
  : Dom :=
  match ds with
  | [] => d
  | d' :: ds' =>
      match select pool (shown d) with
      | [] => firstShown pool d' ds'
      | _ :: _ => d
      end
  end.

(** The documents the engine goes through. *)
Definition attempts (d : Dom) : list Dom :=
  let d1 := match selectedSubjects (shown d) with
            | [] => checkSelectable d
            | _ :: _ => d
            end in
  let d2 := levelCleared d1 in
  let d3 := checkSelectable d2 in
  [d1; d2; d3].

(** Two selections that yield the same questions and have the same level,
    the subjects of the first being those of the second that have a
    question. *)
Definition alike (pool : list Parser.Question) (a b : Selection) : Prop :=
  select pool a = select pool b
  ∧ selectedLevel a = selectedLevel b
  ∧ selectedSubjects a = List.filter (hasQuestions pool) (selectedSubjects b).

End Resolution.

(** ** csv.js *)

Module Csv.
Import JsString Session.

Record CsvRow := {
  questionId : string;
  category : string;
  subjectSpecific : string;
  level : string;
  question : string;
  userAnswer : string;
  correctness : Correctness;
  timeAllocatedSec : Z;
  timeElapsedSec : Z;
  author : string;
  timestamp : string
}.

(** [x || d] for a string, a number and one of the three result strings (all
    of them truthy); [undefined], the empty string and zero are falsy. *)
Definition orString (x : option string) (d : string) : string :=
  match x with
  | Some s => if isEmpty s then d else s
  | None => d
  end.

Definition orNumber (x : option Z) (d : Z) : Z :=
  match x with
  | Some n => if (n =? 0)%Z then d else n
  | None => d
  end.

Definition orCorrectness (x : option Correctness) (d : Correctness) : Correctness :=
  match x with
  | Some c => c
  | None => d
  end.

(** The callback of [questions.map((question, index) => ...)];
    [userAnswers[index] || {}] leaves every property [undefined] when
    the slot is empty. *)
Definition csvRow (userAnswers : SparseArray AnswerRecord) (timeAllocated : Z)
           (timestamp : string) (index : nat) (q : Parser.Question) : CsvRow :=
  let userAnswer := array_get userAnswers index in
  {| questionId := Parser.id q;
     category := Parser.category q;
     subjectSpecific := Parser.subjectSpecific q;
     level := Parser.level q;
     question := Parser.question q;
     userAnswer := orString (Session.answer <$> userAnswer) "";
     correctness := orCorrectness (Session.correctness <$> userAnswer) Incorrect;
     timeAllocatedSec := timeAllocated;
     timeElapsedSec := orNumber (Session.timeElapsed <$> userAnswer) 0;
     author := Parser.author q;
     timestamp := timestamp |}.

(** [prepareSessionResultsForCsv]; [timestamp] is what the one call of
    [getCurrentTimestamp()] returns. *)
Definition prepareSessionResultsForCsv (questions : list Parser.Question)
           (userAnswers : SparseArray AnswerRecord) (timeAllocated : Z)
           (timestamp : string) : list CsvRow :=
  imap (csvRow userAnswers timeAllocated timestamp) questions.

End Csv.

(** ** Reading an id back

    [generateId] writes the absolute value of its hash with
    [toString(36)]; [fromBase36] is what [parseInt(id, 36)] reads from such a
    text. *)

Module Base36.

(** The digits [toString(36)] writes: 0 to 9 and a to z. *)
Definition isBase36Digit (c : ascii) : bool :=
  let n := nat_of_ascii c in
  ((48 <=? n) && (n <=? 57)) || ((97 <=? n) && (n <=? 122)).

Definition digitValue36 (c : ascii) : Z :=
  let n := nat_of_ascii c in
  if n <=? 57 then Z.of_nat (n - 48) else Z.of_nat (n - 87).

(** The value of a string of base-36 digits, from the value [acc] of the
    digits read so far. *)
Fixpoint fromBase36 (acc : Z) (s : string) : Z :=
  match s with
  | "" => acc
  | String c rest => fromBase36 (acc * 36 + digitValue36 c) rest
  end.

End Base36.

(** ** Writing a line of the bank

    The escaping rules of the format description (README, Escaping Rules): a
    literal semicolon is written backslash semicolon, a literal backslash is
    written twice; the fields of a line stand with a semicolon between
    them. *)

Module BankWriter.
Import JsString.

Fixpoint escapeField (field : string) : string :=
  match field with
  | "" => ""
  | String c rest =>
      if Ascii.eqb c semicolon || Ascii.eqb c backslash
      then String backslash (String c (escapeField rest))
      else String c (escapeField rest)
  end.

Definition writeLine (fields : list string) : string :=
  String.concat ";" (List.map escapeField fields).

End BankWriter.

(** ** app.js: the score *)

Module Scoring.
Import Session.

(** [{ correct, incorrect }] *)
Record Stats := {
  correct : nat;
  incorrect : nat
}.

(** The accumulator that [reduce] starts from. *)
Definition none : Stats := {| correct := 0; incorrect := 0 |}.

(** The callback of [userAnswers.reduce(...)]: [answer?.correctness] is
    [undefined] for an empty slot, and each of the three result strings is
    truthy. *)
Definition count (acc : Stats) (answer : option AnswerRecord) : Stats :=
  match correctness <$> answer with
  | Some Correct => {| correct := S (correct acc); incorrect := incorrect acc |}
  | Some _ => {| correct := correct acc; incorrect := S (incorrect acc) |}
  | None => acc
  end.

Definition calculateStats (userAnswers : SparseArray AnswerRecord) : Stats :=
  fold_left count userAnswers none.

End Scoring.

(** ** A session played through *)

Module Play.
Import JsString Session.

(** What a world keeps through the filter resolution: everything of
    [appState] but the working set, the live intervals, the screen and the
    countdown. *)
Definition framed (w w' : World) : Prop :=
  app w' = setFilteredQuestions (filteredQuestions (app w')) (app w)
  ∧ intervals w' = intervals w
  ∧ activeScreen (dom w') = activeScreen (dom w)
  ∧ timerCountdown (dom w') = timerCountdown (dom w).

(** Each input is submitted at its time, then the next button is
    pressed. *)
Definition answerAndAdvance (inputs : list (string * Z)) : list Event :=
  flat_map (λ '(input, now), [SubmitAnswer input now; NextQuestion]) inputs.

(** The question is answered correctly by the input, as [submitAnswer]
    decides it. *)
Definition answersCorrectly (pair : Parser.Question * (string * Z)) : bool :=
  Normalize.isCorrect (trim pair.2.1) (Parser.answers pair.1).

(** The sample world with an empty bank. *)
Definition emptyBankWorld : World :=
  withApp
    (λ a,
       {| questions := []; filteredQuestions := filteredQuestions a;
          currentQuestionIndex := currentQuestionIndex a;
          userAnswers := userAnswers a; sessionStartTime := sessionStartTime a;
          timeAllocated := timeAllocated a; timer := timer a;
          isPaused := isPaused a; isSessionActive := isSessionActive a;
          textRevealTimer := textRevealTimer a |})
    sampleWorld.

End Play.

(** ** csv.js: the text of the file *)

Module CsvText.
Import JsString Session Csv.

(** A value read from a row: [undefined] for a missing property (and for
    [null]), a string, or an integer. *)
Inductive Field :=
| Undefined
| Text (s : string)
| Number (n : Z).

(** [String(field)] *)
Definition toString (field : Field) : string :=
  match field with
  | Undefined => "undefined"
  | Text s => s
  | Number n => NilZero.string_of_int (Z.to_int n)
  end.

Definition comma : ascii := ","%char.

(** [stringField.replace(/q/g, qq)] for the double quote q. *)
Fixpoint doubleQuotes (s : string) : string :=
  match s with
  | "" => ""
  | String c rest =>
      if Ascii.eqb c dquote then String dquote (String dquote (doubleQuotes rest))
      else String c (doubleQuotes rest)
  end.

Definition escapeCsvField (field : Field) : string :=
  match field with
  | Undefined => ""
  | _ =>
      let stringField := toString field in
      if occurs comma stringField || occurs dquote stringField
         || occurs newline stringField
      then String dquote (push (doubleQuotes stringField) dquote)
      else stringField
  end.

(** An object, as [row[header]] reads it. *)
Definition Row := string → Field.

Definition arrayToCsv (data : list Row) (headers : list string) : string :=
  let csvRows :=
    [String.concat "," (List.map (λ header, escapeCsvField (Text header)) headers)] in
  let csvRows :=
    csvRows
    ++ List.map
         (λ row,
            String.concat ","
              (List.map (λ header, escapeCsvField (row header)) headers))
         data in
  String.concat (String newline "") csvRows.

(** The three strings of [correctness]. *)
Definition correctnessText (c : Correctness) : string :=
  match c with
  | Correct => "Correct"
  | Incorrect => "Incorrect"
  | Timeout => "Timeout"
  end.

(** [row[header]] for an object that [prepareSessionResultsForCsv] builds. *)
Definition property (row : CsvRow) : Row :=
  λ header,
    if String.eqb header "questionId" then Text (questionId row)
    else if String.eqb header "category" then Text (category row)
    else if String.eqb header "subjectSpecific" then Text (subjectSpecific row)
    else if String.eqb header "level" then Text (level row)
    else if String.eqb header "question" then Text (question row)
    else if String.eqb header "userAnswer" then Text (userAnswer row)
    else if String.eqb header "correctness"
    then Text (correctnessText (correctness row))
    else if String.eqb header "timeAllocatedSec" then Number (timeAllocatedSec row)
    else if String.eqb header "timeElapsedSec" then Number (timeElapsedSec row)
    else if String.eqb header "author" then Text (author row)
    else if String.eqb header "timestamp" then Text (timestamp row)
    else Undefined.

(** The [headers] of [exportSessionCsv]. *)
Definition headers : list string :=
  ["questionId"; "category"; "subjectSpecific"; "level"; "question";
   "userAnswer"; "correctness"; "timeAllocatedSec"; "timeElapsedSec";
   "author"; "timestamp"].

(** The [csvContent] that [exportSessionCsv] puts into the file. *)
Definition csvContent (sessionResults : list CsvRow) : string :=
  arrayToCsv (List.map property sessionResults) headers.

(** The text of a cell: nothing for [undefined], [String(field)]
    otherwise. *)
Definition cellText (field : Field) : string :=
  match field with
  | Undefined => ""
  | _ => toString field
  end.

(** The cells of the table that [arrayToCsv] writes: the header row, then
    one row for each object. *)
Definition cells (data : list Row) (headers : list string) : list (list string) :=
  headers :: List.map (λ row, List.map (λ header, cellText (row header)) headers) data.

End CsvText.

(** ** A reader of comma-separated text

    The reader that the proofs about [arrayToCsv] run on its output: outside
    quotes a comma ends a cell, a line feed ends a row and a double quote
    opens a quoted run; inside quotes two double quotes stand for one and a
    single one closes the run.  The head of the result is the row being
    read, its head the cell being read. *)

Module CsvReader.
Import JsString CsvText.

Definition extendCell (c : ascii) (table : list (list string)) : list (list string) :=
  match table with
  | (cell :: row) :: rows => (String c cell :: row) :: rows
  | [] :: rows => [String c ""] :: rows
  | [] => [[String c ""]]
  end.

Definition newCell (table : list (list string)) : list (list string) :=
  match table with
  | row :: rows => ("" :: row) :: rows
  | [] => [[""]]
  end.

Fixpoint readCsv (inQuotes : bool) (text : string) : list (list string) :=
  match text with
  | "" => [[""]]
  | String c rest =>
      if inQuotes then
        if Ascii.eqb c dquote then
          match rest with
          | String d rest2 =>
              if Ascii.eqb d dquote then extendCell dquote (readCsv true rest2)
              else readCsv false rest
          | "" => readCsv false rest
          end
        else extendCell c (readCsv true rest)
      else if Ascii.eqb c comma then newCell (readCsv false rest)
      else if Ascii.eqb c newline then [""] :: readCsv false rest
      else if Ascii.eqb c dquote then readCsv true rest
      else extendCell c (readCsv false rest)
  end.

(** The text of a cell goes in front of the cell being read. *)
Definition prepend (s : string) (table : list (list string)) : list (list string) :=
  match table with
  | (cell :: row) :: rows => ((s +:+ cell) :: row) :: rows
  | [] :: rows => [s] :: rows
  | [] => [[s]]
  end.

(** A double quote does not follow: the text ends, or goes on with a comma
    or a line feed. *)
Definition ends (rest : string) : Prop :=
  match rest with
  | String c _ => c = comma ∨ c = newline
  | "" => True
  end.

(** The text of a row. *)
Definition rowText (fields : list Field) : string :=
  String.concat "," (List.map escapeCsvField fields).

End CsvReader.

(** * Properties *)

(** ** Strings *)

Module JsStringFacts.
Import JsString.

Lemma sapp_nil_l (s : string) : "" +:+ s = s.
Proof. reflexivity. Qed.

Lemma sapp_cons (c : ascii) (s t : string) :
  String c s +:+ t = String c (s +:+ t).
Proof. reflexivity. Qed.

Lemma sapp_nil_r (s : string) : s +:+ "" = s.
Proof. induction s as [|c s IH]; [done | by rewrite sapp_cons, IH]. Qed.

Lemma sapp_assoc (a b c : string) : (a +:+ b) +:+ c = a +:+ (b +:+ c).
Proof. induction a as [|x a IH]; [done | by rewrite !sapp_cons, IH]. Qed.

Lemma push_app (a b : string) (c : ascii) : a +:+ String c b = push a c +:+ b.
Proof. unfold push. by rewrite sapp_assoc. Qed.

Lemma split_cons (sep : ascii) (s : string) : ∃ f r, split sep s = f :: r.
Proof.
  destruct s as [|c s]; simpl; [eauto|].
  destruct (Ascii.eqb c sep); [eauto|]. destruct (split sep s); eauto.
Qed.

Lemma split_empty (sep : ascii) (s : string) : split sep s = [""] → s = "".
Proof.
  destruct s as [|c s]; [done|]. simpl.
  destruct (split_cons sep s) as (f & r & ->).
  destruct (Ascii.eqb c sep); done.
Qed.

Lemma trimEnd_idempotent (s : string) : trimEnd (trimEnd s) = trimEnd s.
Proof.
  induction s as [|c s IH]; [done|]. cbn [trimEnd].
  destruct (isWhiteSpace c && isEmpty (trimEnd s)) eqn:Hc; [done|].
  cbn [trimEnd]. by rewrite IH, Hc.
Qed.

Lemma trimStart_trimEnd (s : string) :
  trimStart (trimEnd s) = trimEnd (trimStart s).
Proof.
  induction s as [|c s IH]; [done|]. cbn [trimEnd trimStart].
  destruct (isWhiteSpace c) eqn:Hc; cbn [andb].
  - destruct (isEmpty (trimEnd s)) eqn:He.
    + destruct (trimEnd s); [|done]. by rewrite <- IH.
    + cbn [trimStart]. by rewrite Hc.
  - cbn [trimStart trimEnd]. by rewrite Hc.
Qed.

Lemma trim_trimEnd (s : string) : trim (trimEnd s) = trim s.
Proof. unfold trim. by rewrite trimStart_trimEnd, trimEnd_idempotent. Qed.

Lemma trimStart_idempotent (s : string) : trimStart (trimStart s) = trimStart s.
Proof.
  induction s as [|c s IH]; [done|]. cbn [trimStart].
  destruct (isWhiteSpace c) eqn:Hc; [done|]. cbn [trimStart]. by rewrite Hc.
Qed.

Lemma trim_idempotent (s : string) : trim (trim s) = trim s.
Proof.
  unfold trim.
  by rewrite trimStart_trimEnd, trimEnd_idempotent, trimStart_idempotent.
Qed.

(** Trimming reaches the first segment at most from the left and the last
    segment at most from the right; the separator is no white space. *)
Lemma split_trimStart (sep : ascii) (s : string) :
  isWhiteSpace sep = false →
  split sep (trimStart s) = mapFirst trimStart (split sep s).
Proof.
  intros Hsep. induction s as [|c s IH]; [done|].
  cbn [trimStart split].
  destruct (split_cons sep s) as (f & r & Hs). rewrite Hs in *.
  destruct (isWhiteSpace c) eqn:Hc.
  - destruct (Ascii.eqb_spec c sep) as [->|Hne]; [congruence|].
    cbn [mapFirst trimStart] in *. by rewrite Hc.
  - cbn [split]. rewrite Hs.
    destruct (Ascii.eqb c sep); cbn [mapFirst trimStart]; [done|].
    by rewrite Hc.
Qed.

Lemma split_trimEnd (sep : ascii) (s : string) :
  isWhiteSpace sep = false →
  split sep (trimEnd s) = mapLast trimEnd (split sep s).
Proof.
  intros Hsep. induction s as [|c s IH]; [done|].
  cbn [trimEnd split].
  destruct (split_cons sep s) as (f & r & Hs). rewrite Hs in *.
  destruct (Ascii.eqb_spec c sep) as [->|Hne].
  - rewrite Hsep. cbn [andb split]. rewrite Ascii.eqb_refl, IH.
    destruct r; reflexivity.
  - apply Ascii.eqb_neq in Hne.
    destruct r as [|g r].
    + cbn [mapLast] in *.
      assert (He : isEmpty (trimEnd s) = isEmpty (trimEnd f)).
      { destruct (trimEnd s) eqn:Hts, (trimEnd f) eqn:Htf; try done.
        apply split_empty in IH. done. }
      cbn [trimEnd]. rewrite He.
      destruct (isWhiteSpace c && isEmpty (trimEnd f)); [done|].
      cbn [split]. by rewrite Hne, IH.
    + assert (He : isEmpty (trimEnd s) = false).
      { destruct (trimEnd s); [|done]. simpl in IH. by destruct r. }
      rewrite He, andb_false_r. cbn [split]. rewrite Hne, IH.
      reflexivity.
Qed.

Lemma split_trim (sep : ascii) (s : string) :
  isWhiteSpace sep = false →
  split sep (trim s) = mapLast trimEnd (mapFirst trimStart (split sep s)).
Proof.
  intros Hsep. unfold trim.
  by rewrite split_trimEnd, split_trimStart.
Qed.

(** A string trims to the empty string exactly when it is white space
    only. *)
Lemma trim_empty_white_space (s : string) :
  isEmpty (trim s) = all isWhiteSpace s.
Proof.
  unfold trim. induction s as [|c s IH]; [done|]. cbn [trimStart all].
  destruct (isWhiteSpace c) eqn:Hc; [exact IH|].
  cbn [trimEnd]. by rewrite Hc.
Qed.

End JsStringFacts.

(** ** The field splitter *)

Module SplitterFacts.
Import JsString JsStringFacts Parser.

Lemma fields_of_cons (line : string) : ∃ f fs, fields_of line = f :: fs.
Proof.
  assert (Hext : ∀ c fs, ∃ f fs', extend c fs = f :: fs').
  { intros c [|f fs]; simpl; eauto. }
  destruct line as [|c [|d rest]]; simpl; eauto.
  - destruct (Ascii.eqb c semicolon); eauto.
  - repeat (match goal with |- context [if ?b then _ else _] => destruct b end);
      eauto.
Qed.

Lemma resume_extend (cur : string) (c : ascii) (line : string) :
  resume cur (extend c (fields_of line)) = resume (push cur c) (fields_of line).
Proof.
  destruct (fields_of_cons line) as (f & fs & ->). simpl.
  by rewrite push_app.
Qed.

Lemma resume_separator (fields : list string) (cur : string) (line : string) :
  fields ++ resume cur ("" :: fields_of line)
  = (fields ++ [cur]) ++ resume "" (fields_of line).
Proof.
  destruct (fields_of_cons line) as (f & fs & ->). simpl.
  by rewrite sapp_nil_r, <- List.app_assoc.
Qed.

(** The loop, from any state, produces the fields closed so far, then the
    open field continued by the first field of the rest, then the others. *)
Lemma split_loop_fields_of (n : nat) :
  ∀ line fields cur, String.length line ≤ n →
    split_loop fields cur line = fields ++ resume cur (fields_of line).
Proof.
  induction n as [|n IH]; intros line fields cur Hlen.
  - destruct line; simpl in *; [by rewrite sapp_nil_r | lia].
  - destruct line as [|c rest]; [simpl; by rewrite sapp_nil_r|].
    assert (Hrest : ∀ fs cf, split_loop fs cf rest
                             = fs ++ resume cf (fields_of rest)).
    { intros. apply IH. simpl in Hlen. lia. }
    destruct rest as [|d rest2].
    + simpl. destruct (Ascii.eqb c semicolon); simpl;
        by rewrite ?sapp_nil_r, <- ?List.app_assoc.
    + assert (Hrest2 : ∀ fs cf, split_loop fs cf rest2
                                = fs ++ resume cf (fields_of rest2)).
      { intros. apply IH. simpl in Hlen. lia. }
      change (split_loop fields cur (String c (String d rest2))) with
        (if Ascii.eqb c backslash && Ascii.eqb d semicolon then
           split_loop fields (push cur semicolon) rest2
         else if Ascii.eqb c backslash && Ascii.eqb d backslash then
           split_loop fields (push cur backslash) rest2
         else if Ascii.eqb c semicolon then
           split_loop (fields ++ [cur]) "" (String d rest2)
         else split_loop fields (push cur c) (String d rest2)).
      change (fields_of (String c (String d rest2))) with
        (if Ascii.eqb c backslash && Ascii.eqb d semicolon then
           extend semicolon (fields_of rest2)
         else if Ascii.eqb c backslash && Ascii.eqb d backslash then
           extend backslash (fields_of rest2)
         else if Ascii.eqb c semicolon then "" :: fields_of (String d rest2)
         else extend c (fields_of (String d rest2))).
      destruct (Ascii.eqb c backslash && Ascii.eqb d semicolon).
      { by rewrite Hrest2, resume_extend. }
      destruct (Ascii.eqb c backslash && Ascii.eqb d backslash).
      { by rewrite Hrest2, resume_extend. }
      destruct (Ascii.eqb c semicolon).
      { by rewrite Hrest, resume_separator. }
      by rewrite Hrest, resume_extend.
Qed.

Lemma splitOnUnescapedSemicolons_fields_of (line : string) :
  splitOnUnescapedSemicolons line = fields_of line.
Proof.
  unfold splitOnUnescapedSemicolons.
  rewrite (split_loop_fields_of (String.length line)) by lia.
  destruct (fields_of_cons line) as (f & fs & ->). reflexivity.
Qed.

Lemma split_loop_last (line : string) :
  ∀ fields cur, ∃ init final, split_loop fields cur line = init ++ [final].
Proof.
  intros fields cur.
  rewrite (split_loop_fields_of (String.length line)) by lia.
  destruct (fields_of_cons line) as (f & fs & ->). simpl.
  destruct (exists_last (l := (cur +:+ f) :: fs)) as (init & final & ->);
    [done|].
  exists (fields ++ init), final. by rewrite List.app_assoc.
Qed.

(** The 7-character line a, backslash, backslash, semicolon, b, semicolon, c
    holds an escaped backslash and two separators. *)
Example split_escaped_backslash_then_separator :
  splitOnUnescapedSemicolons "a\\;b;c" = ["a\"; "b"; "c"].
Proof. reflexivity. Qed.

(** C2.  The field splitter scans the line character by character.  From
    any state of the loop: a backslash followed by a semicolon appends a
    semicolon to the current field and moves on by two characters; a
    backslash followed by a backslash appends one backslash and moves on by
    two characters; a semicolon that starts no escape closes the current
    field and opens an empty one; any other character is appended to the
    current field; at the end of the line the current field is emitted, so
    the result always ends with it.  The result is the list of fields of the
    line in the format's own terms.  The line a, backslash, semicolon, b,
    semicolon, c gives the two fields [a;b] and [c]; the line x, backslash,
    backslash, y, semicolon, z gives the two fields x-backslash-y and z. *)
Theorem splitOnUnescapedSemicolons_scan :
  (∀ fields cur rest,
     split_loop fields cur (String backslash (String semicolon rest))
     = split_loop fields (push cur semicolon) rest)
  ∧ (∀ fields cur rest,
       split_loop fields cur (String backslash (String backslash rest))
       = split_loop fields (push cur backslash) rest)
  ∧ (∀ fields cur rest,
       split_loop fields cur (String semicolon rest)
       = split_loop (fields ++ [cur]) "" rest)
  ∧ (∀ fields cur c rest,
       ordinary c rest = true →
       split_loop fields cur (String c rest)
       = split_loop fields (push cur c) rest)
  ∧ (∀ fields cur, split_loop fields cur "" = fields ++ [cur])
  ∧ (∀ line, ∃ init final, splitOnUnescapedSemicolons line = init ++ [final])
  ∧ (∀ line, splitOnUnescapedSemicolons line = fields_of line)
  ∧ splitOnUnescapedSemicolons "a\;b;c" = ["a;b"; "c"]
  ∧ splitOnUnescapedSemicolons "x\\y;z" = ["x\y"; "z"].
Proof.
  repeat apply conj.
  - reflexivity.
  - reflexivity.
  - intros fields cur [|d rest]; reflexivity.
  - intros fields cur c rest Hord. unfold ordinary in Hord.
    apply andb_true_iff in Hord as [Hsemi Hesc].
    apply negb_true_iff in Hsemi. apply negb_true_iff in Hesc.
    destruct rest as [|d rest]; simpl.
    + by rewrite Hsemi.
    + rewrite Hsemi.
      destruct (Ascii.eqb c backslash); simpl in *; [|done].
      apply orb_false_iff in Hesc as [-> ->]. done.
  - reflexivity.
  - intros line. apply split_loop_last.
  - apply splitOnUnescapedSemicolons_fields_of.
  - reflexivity.
  - reflexivity.
Qed.

End SplitterFacts.

(** ** Lines and banks *)

Module ParserFacts.
Import JsString JsStringFacts Parser.

Section WithJson.
Variable JSON_parse : string → Completion JsValue.

(** What a returned question tells about the line it came from. *)
Lemma parseQuestionLine_try_question (line : string) (q : Question) :
  parseQuestionLine_try JSON_parse line = Normal (Some q) →
  ∃ category question answersJson level author first others,
    isBlank line = false
    ∧ splitOnUnescapedSemicolons line
      = [category; question; answersJson; level; author]
    ∧ isEmpty (trim category) = false
    ∧ isEmpty (trim question) = false
    ∧ JSON_parse answersJson = Normal (JArray (first :: others))
    ∧ forallb isNonEmptyString (first :: others) = true
    ∧ isValidLevel level = true
    ∧ isEmpty (trim author) = false
    ∧ q = {| id := generateId (category +:+ question +:+ level +:+ author);
             Parser.category := trim category;
             subjectBroad := trim (broadPart category);
             subjectSpecific := trim (specificPart category);
             Parser.question := trim question;
             answers := List.map trimAnswer (first :: others);
             Parser.level := trim level;
             Parser.author := trim author |}.
Proof.
  unfold parseQuestionLine_try, isBlank.
  destruct (isEmpty (trim line)); [done|].
  destruct (splitOnUnescapedSemicolons line)
    as [|category [|question [|answersJson [|level [|author [|]]]]]]; try done.
  destruct (isEmpty (trim category)) eqn:Hc; [done|].
  destruct (isEmpty (trim question)) eqn:Hq; [done|].
  destruct (JSON_parse answersJson) as [[| | | |[|first others]|]|] eqn:Hj;
    try done.
  destruct (forallb isNonEmptyString (first :: others)) eqn:Ha; [|done].
  destruct (isValidLevel level) eqn:Hl; [|done].
  destruct (isEmpty (trim author)) eqn:Hau; [done|].
  intros [= <-]. cbn [negb] in *.
  exists category, question, answersJson, level, author, first, others.
  repeat apply conj; done.
Qed.

Lemma parseQuestionLine_blank (line filename : string) (n : nat) :
  isBlank line = true → parseQuestionLine JSON_parse line filename n = Skipped.
Proof.
  unfold isBlank, parseQuestionLine, parseQuestionLine_try. by intros ->.
Qed.

Lemma parseQuestionLine_try_not_null (line : string) :
  isBlank line = false → parseQuestionLine_try JSON_parse line ≠ Normal None.
Proof.
  unfold isBlank, parseQuestionLine_try. intros ->.
  repeat case_match; done.
Qed.

Lemma parseQuestionLine_nonblank (line filename : string) (n : nat) :
  isBlank line = false →
  (∃ q, parseQuestionLine JSON_parse line filename n = Parsed q)
  ∨ (∃ reason,
       parseQuestionLine JSON_parse line filename n
       = Malformed {| Parser.filename := filename; Parser.line := n;
                      Parser.reason := reason; rawLine := line |}).
Proof.
  intros Hblank. pose proof (parseQuestionLine_try_not_null line Hblank) as Hnn.
  unfold parseQuestionLine.
  destruct (parseQuestionLine_try JSON_parse line) as [[q|]|message];
    [left | done | right]; eauto.
Qed.

(** The [forEach] loop appends to the two arrays what the remaining lines
    give, each in line order. *)
Lemma forEach_line_spec (filename : string) (lines : list string) :
  ∀ index qs es,
    forEach_line JSON_parse filename lines index qs es
    = (qs ++ omap parsedOf
               (imap (λ i l, parseQuestionLine JSON_parse l filename (index + i + 1))
                     lines),
       es ++ omap malformedOf
               (imap (λ i l, parseQuestionLine JSON_parse l filename (index + i + 1))
                     lines)).
Proof.
  induction lines as [|l lines IH]; intros index qs es.
  - simpl. by rewrite !app_nil_r.
  - cbn [forEach_line]. rewrite imap_cons.
    rewrite (imap_ext _
      (λ i l, parseQuestionLine JSON_parse l filename (S index + i + 1)))
      by (intros; simpl; f_equal; lia).
    replace (index + 0 + 1) with (index + 1) by lia.
    destruct (parseQuestionLine JSON_parse l filename (index + 1)) as [|q|e];
      rewrite IH; simpl; by rewrite <- ?List.app_assoc.
Qed.

Lemma nonblank_count (filename : string) (lines : list string) :
  ∀ index,
    let results :=
      imap (λ i l, parseQuestionLine JSON_parse l filename (index + i + 1)) lines in
    length (omap parsedOf results) + length (omap malformedOf results)
    = length (List.filter (λ l, negb (isBlank l)) lines).
Proof.
  induction lines as [|l lines IH]; intros index; [done|].
  cbn zeta in *. rewrite imap_cons.
  rewrite (imap_ext _
    (λ i l, parseQuestionLine JSON_parse l filename (S index + i + 1)))
    by (intros; simpl; f_equal; lia).
  specialize (IH (S index)). simpl List.filter.
  destruct (isBlank l) eqn:Hb.
  - rewrite parseQuestionLine_blank by done.
    cbn [omap list_omap parsedOf malformedOf negb]. exact IH.
  - destruct (parseQuestionLine_nonblank l filename (index + 0 + 1) Hb)
      as [[q ->]|[reason ->]];
      cbn [omap list_omap parsedOf malformedOf length negb]; lia.
Qed.

(** C1.  For every content and file name [parseQuestionBank] returns a
    result (every exception of a line is caught inside [parseQuestionLine]):
    [questions] holds exactly the records of the lines that parse, in line
    order; [errors] holds exactly the error objects of the lines that fail,
    in line order; the three counts are the lengths.  A blank line gives
    neither; a line that is not blank gives either its record, which is then
    in [questions] whatever the other lines are, or one error with its
    1-based line number and the raw line; so records and errors together are
    as many as the lines that are not blank. *)
Theorem parseQuestionBank_partitions (content filename : string) :
  let lines := split newline content in
  let results := lineResults JSON_parse content filename in
  let bank := parseQuestionBank JSON_parse content filename in
  questions bank = omap parsedOf results
  ∧ errors bank = omap malformedOf results
  ∧ totalLines bank = length lines
  ∧ validQuestions bank = length (questions bank)
  ∧ errorCount bank = length (errors bank)
  ∧ (∀ index line, lines !! index = Some line →
       if isBlank line then results !! index = Some Skipped
       else
         (∃ q, results !! index = Some (Parsed q) ∧ q ∈ questions bank)
         ∨ (∃ reason,
              let e := {| Parser.filename := filename; Parser.line := index + 1;
                          Parser.reason := reason; rawLine := line |} in
              results !! index = Some (Malformed e) ∧ e ∈ errors bank))
  ∧ validQuestions bank + errorCount bank
    = length (List.filter (λ l, negb (isBlank l)) lines).
Proof.
  intros lines results bank.
  assert (Hq : questions bank = omap parsedOf results
               ∧ errors bank = omap malformedOf results
               ∧ totalLines bank = length lines
               ∧ validQuestions bank = length (questions bank)
               ∧ errorCount bank = length (errors bank)).
  { subst bank results lines. unfold parseQuestionBank, lineResults.
    rewrite forEach_line_spec. cbn. done. }
  destruct Hq as (Hq & He & Ht & Hv & Hc).
  repeat apply conj; try done.
  - intros index line Hline.
    assert (Hres : results !! index
                   = Some (parseQuestionLine JSON_parse line filename (index + 1))).
    { subst results. unfold lineResults. rewrite list_lookup_imap.
      fold lines. by rewrite Hline. }
    destruct (isBlank line) eqn:Hb.
    + by rewrite Hres, parseQuestionLine_blank.
    + destruct (parseQuestionLine_nonblank line filename (index + 1) Hb)
        as [[q Hp]|[reason Hp]]; rewrite Hp in Hres; [left | right].
      * exists q. split; [done|]. rewrite Hq. apply list_elem_of_omap.
        exists (Parsed q). split; [|done]. by eapply list_elem_of_lookup_2.
      * exists reason. cbn zeta. split; [done|]. rewrite He.
        apply list_elem_of_omap. eexists (Malformed _). split; [|done].
        by eapply list_elem_of_lookup_2.
  - rewrite Hv, Hc, Hq, He. subst results. unfold lineResults.
    pose proof (nonblank_count filename lines 0) as Hn. cbn zeta in Hn.
    exact Hn.
Qed.

(** A returned record stores the level field as it stands in the line: the
    field itself, not its trimmed text, has to be one of the three levels. *)
Lemma parsed_level_is_the_field (line filename : string) (n : nat) (q : Question) :
  parseQuestionLine JSON_parse line filename n = Parsed q →
  ∃ category question answersJson level author,
    splitOnUnescapedSemicolons line
    = [category; question; answersJson; level; author]
    ∧ level ∈ validLevels ∧ Parser.level q = level.
Proof.
  unfold parseQuestionLine.
  destruct (parseQuestionLine_try JSON_parse line) as [[q'|]|] eqn:Htry;
    try done.
  intros [= ->].
  apply parseQuestionLine_try_question in Htry
    as (c & qu & a & l & au & first & others & _ & Hsplit & _ & _ & _ & _
        & Hlevel & _ & ->).
  exists c, qu, a, l, au. split; [done|]. cbn.
  unfold isValidLevel, validLevels in *. cbn in Hlevel.
  repeat (apply orb_true_iff in Hlevel as [Hlevel|Hlevel];
          [apply String.eqb_eq in Hlevel as ->; split; [set_solver | done]|]).
  done.
Qed.

Lemma secondSegment_trim (category : string) :
  secondSegment (trim category) = trim (specificPart category).
Proof.
  unfold secondSegment, specificPart.
  rewrite split_trim by done.
  destruct (split greater category) as [|a [|b [|d r]]]; cbn; try done.
  apply trim_trimEnd.
Qed.

Lemma split_without_separator (sep : ascii) (s : string) :
  occurs sep s = false → split sep s = [s].
Proof.
  induction s as [|c s IH]; [done|]. cbn [occurs split].
  intros [Hc Hs]%orb_false_iff. by rewrite Hc, (IH Hs).
Qed.

Lemma secondSegment_without_delimiter (category : string) :
  occurs greater category = false → secondSegment category = category.
Proof.
  intros Hnone. unfold secondSegment.
  by rewrite split_without_separator.
Qed.

(** C7, as the code has it.  In every record that [parseQuestionLine]
    returns, [subjectSpecific] is the second segment of [category] split at
    [>], trimmed (the text between the first [>] and the next one, or the end
    when there is no other), and the whole [category] when it has no [>]. *)
Theorem subjectSpecific_second_segment
        (line filename : string) (n : nat) (q : Question) :
  parseQuestionLine JSON_parse line filename n = Parsed q →
  subjectSpecific q = secondSegment (Parser.category q).
Proof.
  unfold parseQuestionLine.
  destruct (parseQuestionLine_try JSON_parse line) as [[q'|]|] eqn:Htry;
    try done.
  intros [= ->].
  apply parseQuestionLine_try_question in Htry
    as (c & qu & a & l & au & first & others & _ & _ & _ & _ & _ & _ & _ & _
        & ->).
  cbn. by rewrite secondSegment_trim.
Qed.

End WithJson.

(** The examples of the format description. *)
Example parseQuestionLine_valid :
  parseQuestionLine Json.parse ("Cat;Q;[" +:+ quoted "A" +:+ "];Freshman;Auth")
                    "bank_sample.txt" 1
  = Parsed {| id := "mkzjyp"; category := "Cat"; subjectBroad := "Cat";
              subjectSpecific := "Cat"; question := "Q"; answers := ["A"];
              level := "Freshman"; author := "Auth" |}.
Proof. vm_compute. reflexivity. Qed.

Example parseQuestionLine_empty_answers :
  parseQuestionLine Json.parse "Cat;Q;[];Freshman;Auth" "bank_sample.txt" 1
  = Malformed {| filename := "bank_sample.txt"; line := 1;
                 reason := "Answers must be a non-empty array";
                 rawLine := "Cat;Q;[];Freshman;Auth" |}.
Proof. vm_compute. reflexivity. Qed.

Example parseQuestionLine_unknown_level :
  parseQuestionLine Json.parse ("Cat;Q;[" +:+ quoted "A" +:+ "];Sophomore;Auth")
                    "bank_sample.txt" 1
  = Malformed {| filename := "bank_sample.txt"; line := 1;
                 reason := "Unknown level: Sophomore";
                 rawLine := "Cat;Q;[" +:+ quoted "A" +:+ "];Sophomore;Auth" |}.
Proof. vm_compute. reflexivity. Qed.

(** C6, at the line whose level field is Freshman between two spaces: the
    level is tested before it is trimmed, so the line is rejected, and the
    reason quotes the field with its spaces. *)
Theorem level_between_spaces_is_rejected :
  parseQuestionLine Json.parse ("Cat;Q;[" +:+ quoted "A" +:+ "]; Freshman ;Auth")
                    "bank_sample.txt" 1
  = Malformed {| filename := "bank_sample.txt"; line := 1;
                 reason := "Unknown level:  Freshman ";
                 rawLine := "Cat;Q;[" +:+ quoted "A" +:+ "]; Freshman ;Auth" |}
  ∧ isValidLevel (trim " Freshman ") = true.
Proof. split; vm_compute; reflexivity. Qed.

(** C7 fails as stated: the category [A>B>C] has the remainder [B>C] after
    its first [>], and the record's [subjectSpecific] is [B]. *)
Lemma subjectSpecific_is_not_the_remainder :
  ∃ q,
    parseQuestionLine Json.parse ("A>B>C;Q;[" +:+ quoted "A" +:+ "];Freshman;Auth")
                      "bank_sample.txt" 1 = Parsed q
    ∧ category q = "A>B>C"
    ∧ remainderAfterDelimiter (category q) = "B>C"
    ∧ subjectSpecific q = "B"
    ∧ subjectSpecific q ≠ remainderAfterDelimiter (category q).
Proof.
  eexists. split; [vm_compute; reflexivity|].
  repeat apply conj; try (vm_compute; reflexivity). cbn. discriminate.
Qed.

Lemma subjectSpecific_second_segment_witness :
  subjectSpecific
    {| id := "j7ik85"; category := "A>B>C"; subjectBroad := "A";
       subjectSpecific := "B"; question := "Q"; answers := ["A"];
       level := "Freshman"; author := "Auth" |}
  = secondSegment "A>B>C".
Proof.
  apply (subjectSpecific_second_segment Json.parse
           ("A>B>C;Q;[" +:+ quoted "A" +:+ "];Freshman;Auth")
           "bank_sample.txt" 1).
  vm_compute. reflexivity.
Defined.

End ParserFacts.

(** ** The normalizer *)

Module NormalizeFacts.
Import JsString JsStringFacts Normalize.

Example isCorrect_examples :
  isCorrect "the Moscow" ["Moscow"] = true
  ∧ isCorrect "New-York" ["New York"] = true
  ∧ isCorrect "Pluto" ["Moscow"] = false.
Proof. repeat apply conj; vm_compute; reflexivity. Qed.

(** Upper-casing and the hyphen replacement leave only settled characters. *)
Lemma upper_hyphen_settled (c : ascii) :
  isSettled (if Ascii.eqb (toUpperChar c) hyphen then space else toUpperChar c)
  = true.
Proof. destruct c as [[] [] [] [] [] [] [] []]; reflexivity. Qed.

Lemma settled_after_hyphens (s : string) :
  all isSettled (replaceAllChar hyphen space (toUpperCase s)) = true.
Proof.
  induction s as [|c s IH]; [done|].
  unfold replaceAllChar, toUpperCase in *. cbn [map all].
  by rewrite upper_hyphen_settled, IH.
Qed.

Lemma settled_fixed (s : string) :
  all isSettled s = true →
  toUpperCase s = s ∧ replaceAllChar hyphen space s = s.
Proof.
  unfold toUpperCase, replaceAllChar.
  induction s as [|c s IH]; [done|]. cbn [all map].
  intros [Hc Hs]%andb_true_iff. destruct (IH Hs) as [-> ->].
  unfold isSettled in Hc. apply andb_true_iff in Hc as [Hup Hhy].
  apply Ascii.eqb_eq in Hup. apply negb_true_iff in Hhy.
  by rewrite Hup, Hhy.
Qed.

Lemma all_skip (p : ascii → bool) (k : nat) :
  ∀ s, all p s = true → all p (skip k s) = true.
Proof.
  induction k as [|k IH]; intros [|c s]; cbn [skip all]; try done.
  intros [_ Hs]%andb_true_iff. by apply IH.
Qed.

Lemma all_removePunctuation (p : ascii → bool) (n : nat) :
  ∀ s, String.length s ≤ n → all p s = true →
       all p (removePunctuation s) = true.
Proof.
  induction n as [|n IH]; intros s Hlen Hall.
  - by destruct s; [|simpl in Hlen; lia].
  - destruct s as [|c rest]; [done|].
    cbn [all] in Hall. apply andb_true_iff in Hall as [Hc Hrest].
    assert (Hkeep : all p (String c (removePunctuation rest)) = true).
    { cbn [all]. rewrite Hc. apply IH; [simpl in Hlen; lia | done]. }
    cbn [removePunctuation].
    destruct rest as [|c1 [|c2 [|c3 rest']]]; try exact Hkeep.
    destruct (inClass c && Ascii.eqb c1 "{" && Ascii.eqb c2 "}"
              && Ascii.eqb c3 "]"); [|exact Hkeep].
    apply IH; [simpl in Hlen; lia|].
    cbn [all] in Hrest.
    by repeat (apply andb_true_iff in Hrest as [_ Hrest]).
Qed.

Lemma all_collapseWhiteSpace (p : ascii → bool) (s : string) :
  p space = true → all p s = true → all p (collapseWhiteSpace s) = true.
Proof.
  intros Hsp. induction s as [|c s IH]; [done|]. cbn [all collapseWhiteSpace].
  intros [Hc Hs]%andb_true_iff.
  destruct (isWhiteSpace c); [destruct (startsWithWhiteSpace s)|];
    cbn [all]; rewrite ?Hsp, ?Hc; auto.
Qed.

Lemma startsWithWhiteSpace_collapse (s : string) :
  startsWithWhiteSpace (collapseWhiteSpace s) = startsWithWhiteSpace s.
Proof.
  induction s as [|c s IH]; [done|]. cbn [collapseWhiteSpace].
  destruct (isWhiteSpace c) eqn:Hc.
  - destruct (startsWithWhiteSpace s) eqn:Hs; cbn; by rewrite ?IH, ?Hc.
  - cbn. by rewrite Hc.
Qed.

Lemma collapse_isCollapsed (s : string) :
  isCollapsed (collapseWhiteSpace s) = true.
Proof.
  induction s as [|c s IH]; [done|]. cbn [collapseWhiteSpace].
  destruct (isWhiteSpace c) eqn:Hc.
  - destruct (startsWithWhiteSpace s) eqn:Hs; [done|].
    cbn [isCollapsed]. rewrite startsWithWhiteSpace_collapse, Hs, IH. done.
  - cbn [isCollapsed]. by rewrite Hc, IH.
Qed.

Lemma isCollapsed_fixed (s : string) :
  isCollapsed s = true → collapseWhiteSpace s = s.
Proof.
  induction s as [|c s IH]; [done|]. cbn [isCollapsed collapseWhiteSpace].
  intros [Hc Hs]%andb_true_iff. rewrite (IH Hs).
  destruct (isWhiteSpace c); [|done].
  apply andb_true_iff in Hc as [Hsp Hnext].
  apply Ascii.eqb_eq in Hsp as ->. apply negb_true_iff in Hnext.
  by rewrite Hnext.
Qed.

Lemma isCollapsed_skip (k : nat) :
  ∀ s, isCollapsed s = true → isCollapsed (skip k s) = true.
Proof.
  induction k as [|k IH]; intros [|c s]; cbn [skip isCollapsed]; try done.
  intros [_ Hs]%andb_true_iff. by apply IH.
Qed.

Lemma stripArticle_skip (s : string) : ∃ k, stripArticle s = skip k s.
Proof.
  unfold stripArticle.
  destruct (String.prefix "THE " s); [by exists 4|].
  destruct (String.prefix "A " s); [by exists 2|].
  destruct (String.prefix "AN " s); [by exists 3 | by exists 0; destruct s].
Qed.

Lemma stripArticle_fixed (s : string) :
  startsWithArticle s = false → stripArticle s = s.
Proof.
  unfold startsWithArticle, stripArticle.
  intros [[-> ->]%orb_false_iff ->]%orb_false_iff. done.
Qed.

(** What every normalized string is: settled characters, single spaces. *)
Lemma normalize_shape (s : string) :
  all isSettled (normalize s) = true ∧ isCollapsed (normalize s) = true.
Proof.
  unfold normalize.
  destruct (stripArticle_skip
              (collapseWhiteSpace
                 (removePunctuation
                    (replaceAllChar hyphen space (toUpperCase (trim s))))))
    as [k ->].
  split.
  - apply all_skip, all_collapseWhiteSpace; [done|].
    eapply all_removePunctuation; [done|]. apply settled_after_hyphens.
  - apply isCollapsed_skip, collapse_isCollapsed.
Qed.

(** The fourth step removes nothing from a text without an opening brace. *)
Lemma removePunctuation_without_brace (n : nat) :
  ∀ s, String.length s ≤ n → occurs "{" s = false → removePunctuation s = s.
Proof.
  induction n as [|n IH]; intros s Hlen Hocc.
  - by destruct s; [|simpl in Hlen; lia].
  - destruct s as [|c rest]; [done|].
    cbn [occurs] in Hocc. apply orb_false_iff in Hocc as [_ Hrest].
    assert (Hkeep : String c (removePunctuation rest) = String c rest).
    { f_equal. apply IH; [simpl in Hlen; lia | done]. }
    cbn [removePunctuation].
    destruct rest as [|c1 [|c2 [|c3 rest']]]; try exact Hkeep.
    cbn [occurs] in Hrest. apply orb_false_iff in Hrest as [-> _].
    rewrite andb_false_r. exact Hkeep.
Qed.

(** C3, at the input [a.b]: the full stop is still there after [normalize].
    The pattern of the fourth step only matches a punctuation character that
    is followed by the three characters opening brace, closing brace, closing
    bracket; any text without an opening brace goes through it unchanged. *)
Theorem normalize_keeps_full_stop :
  normalize "a.b" = "A.B"
  ∧ hasPunctuation (normalize "a.b") = true
  ∧ removePunctuation "A.B" = "A.B".
Proof. repeat apply conj; vm_compute; reflexivity. Qed.

(** C4 fails as stated: the article is stripped once per application, so a
    second application strips the article the first one exposed. *)
Lemma normalize_not_idempotent :
  normalize "the an x" = "AN X"
  ∧ normalize (normalize "the an x") = "X"
  ∧ normalize (normalize "the an x") ≠ normalize "the an x".
Proof. repeat apply conj; try (vm_compute; reflexivity). vm_compute. discriminate. Qed.

(** Edge cases of the order of the steps: a hyphen at an end of the trimmed
    text becomes a space after the trim, and stays for the next
    application to trim. *)
Example normalize_leaves_space_of_hyphen :
  normalize "x-" = "X " ∧ normalize "X " = "X".
Proof. split; vm_compute; reflexivity. Qed.

Lemma normalize_fixed_point (n : string) :
  all isSettled n = true → isCollapsed n = true →
  trim n = n → removePunctuation n = n → startsWithArticle n = false →
  normalize n = n.
Proof.
  intros Hsettled Hcollapsed Htrim Hpunct Hart.
  destruct (settled_fixed _ Hsettled) as [Hupper Hhyphen].
  unfold normalize.
  rewrite Htrim, Hupper, Hhyphen, Hpunct, (isCollapsed_fixed _ Hcollapsed).
  by apply stripArticle_fixed.
Qed.

(** No step makes a text longer, and the trim, the fourth step and the
    article step only keep the length of a text they leave as it is. *)
Lemma trimStart_length (s : string) :
  String.length (trimStart s) ≤ String.length s
  ∧ (String.length (trimStart s) = String.length s → trimStart s = s).
Proof.
  induction s as [|c s [IH _]]; [done|]. cbn [trimStart].
  destruct (isWhiteSpace c); cbn [String.length]; split; auto with lia.
Qed.

Lemma trimEnd_length (s : string) :
  String.length (trimEnd s) ≤ String.length s
  ∧ (String.length (trimEnd s) = String.length s → trimEnd s = s).
Proof.
  induction s as [|c s [IHle IHeq]]; [done|]. cbn [trimEnd].
  destruct (isWhiteSpace c && isEmpty (trimEnd s)); cbn [String.length];
    split; try lia.
  intros Heq. f_equal. apply IHeq. lia.
Qed.

Lemma trim_length (s : string) :
  String.length (trim s) ≤ String.length s
  ∧ (String.length (trim s) = String.length s → trim s = s).
Proof.
  unfold trim.
  destruct (trimStart_length s) as [Hle1 Heq1].
  destruct (trimEnd_length (trimStart s)) as [Hle2 Heq2].
  split; [lia|]. intros Heq.
  rewrite Heq2 by lia. apply Heq1. lia.
Qed.

Lemma string_map_length (f : ascii → ascii) (s : string) :
  String.length (map f s) = String.length s.
Proof. induction s as [|c s IH]; [done|]. cbn. by rewrite IH. Qed.

Lemma removePunctuation_length (n : nat) :
  ∀ s, String.length s ≤ n →
       String.length (removePunctuation s) ≤ String.length s
       ∧ (String.length (removePunctuation s) = String.length s →
          removePunctuation s = s).
Proof.
  induction n as [|n IH]; intros s Hlen.
  - by destruct s; [|simpl in Hlen; lia].
  - destruct s as [|c rest]; [done|].
    assert (Hkeep :
      String.length (String c (removePunctuation rest))
      ≤ String.length (String c rest)
      ∧ (String.length (String c (removePunctuation rest))
         = String.length (String c rest) →
         String c (removePunctuation rest) = String c rest)).
    { destruct (IH rest) as [Hle Heq]; [simpl in Hlen; lia|].
      cbn [String.length]. split; [lia|]. intros H. f_equal. apply Heq. lia. }
    cbn [removePunctuation].
    destruct rest as [|c1 [|c2 [|c3 rest']]]; try exact Hkeep.
    destruct (inClass c && Ascii.eqb c1 "{" && Ascii.eqb c2 "}"
              && Ascii.eqb c3 "]"); [|exact Hkeep].
    destruct (IH rest') as [Hle _]; [simpl in Hlen; lia|].
    cbn [String.length]. split; lia.
Qed.

Lemma collapseWhiteSpace_length (s : string) :
  String.length (collapseWhiteSpace s) ≤ String.length s.
Proof.
  induction s as [|c s IH]; [done|]. cbn [collapseWhiteSpace].
  destruct (isWhiteSpace c); [destruct (startsWithWhiteSpace s)|];
    cbn [String.length]; lia.
Qed.

Lemma skip_length (k : nat) :
  ∀ s, String.length (skip k s) = String.length s - k.
Proof.
  induction k as [|k IH]; intros [|c s]; cbn [skip String.length];
    rewrite ?IH; lia.
Qed.

Lemma prefix_length (p : string) :
  ∀ s, String.prefix p s = true → String.length p ≤ String.length s.
Proof.
  induction p as [|a p IH]; intros [|c s]; cbn; try done; [lia|].
  destruct (ascii_dec a c); [|done]. intros H. apply IH in H. lia.
Qed.

Lemma stripArticle_length (s : string) :
  String.length (stripArticle s) ≤ String.length s
  ∧ (String.length (stripArticle s) = String.length s →
     startsWithArticle s = false).
Proof.
  unfold stripArticle, startsWithArticle.
  destruct (String.prefix "THE " s) eqn:H1;
    [apply prefix_length in H1; rewrite skip_length; cbn in *; lia|].
  destruct (String.prefix "A " s) eqn:H2;
    [apply prefix_length in H2; rewrite skip_length; cbn in *; lia|].
  destruct (String.prefix "AN " s) eqn:H3;
    [apply prefix_length in H3; rewrite skip_length; cbn in *; lia|].
  done.
Qed.

(** C4, as the code has it.  A second application of [normalize] changes
    nothing exactly when the normalized text has no white space at its ends,
    is left as it is by the fourth step, and does not begin with one of the
    three articles. *)
Theorem normalize_idempotent_exactly_when (s : string) :
  normalize (normalize s) = normalize s
  ↔ trim (normalize s) = normalize s
    ∧ removePunctuation (normalize s) = normalize s
    ∧ startsWithArticle (normalize s) = false.
Proof.
  destruct (normalize_shape s) as [Hsettled Hcollapsed].
  set (n := normalize s) in *.
  split; [|intros (Htrim & Hpunct & Hart); by apply normalize_fixed_point].
  intros Hfix.
  destruct (trim_length n) as [Hle1 Heq1].
  pose proof (string_map_length toUpperChar (trim n)) as Hup.
  pose proof (string_map_length (λ c, if Ascii.eqb c hyphen then space else c)
                (toUpperCase (trim n))) as Hhy.
  fold (toUpperCase (trim n)) in Hup.
  fold (replaceAllChar hyphen space (toUpperCase (trim n))) in Hhy.
  set (b := replaceAllChar hyphen space (toUpperCase (trim n))) in *.
  destruct (removePunctuation_length (String.length b) b) as [Hle3 Heq3];
    [done|].
  pose proof (collapseWhiteSpace_length (removePunctuation b)) as Hle4.
  destruct (stripArticle_length (collapseWhiteSpace (removePunctuation b)))
    as [Hle5 Heq5].
  assert (Hlen : String.length
                   (stripArticle (collapseWhiteSpace (removePunctuation b)))
                 = String.length n).
  { unfold normalize in Hfix. fold b in Hfix. by rewrite Hfix. }
  assert (Htrim : trim n = n) by (apply Heq1; lia).
  destruct (settled_fixed _ Hsettled) as [Hupper Hhyphen].
  assert (Hb : b = n) by (subst b; by rewrite Htrim, Hupper, Hhyphen).
  rewrite Hb in *.
  assert (Hpunct : removePunctuation n = n) by (apply Heq3; lia).
  rewrite Hpunct, (isCollapsed_fixed _ Hcollapsed) in *.
  auto.
Qed.

Lemma normalize_idempotent_exactly_when_witness :
  normalize (normalize "  The New-York!  ") = normalize "  The New-York!  ".
Proof.
  apply (proj2 (normalize_idempotent_exactly_when "  The New-York!  ")).
  repeat apply conj; vm_compute; reflexivity.
Defined.

End NormalizeFacts.

(** ** The session engine: answer log and timers *)

Module SessionFacts.
Import JsString Session.

Lemma array_get_set (A : Type) (array : SparseArray A) (i : nat) (v : A) :
  array_get (array_set array i v) i = Some v.
Proof.
  unfold array_get, array_set. case_decide as Hi.
  - by rewrite list_lookup_insert_eq.
  - rewrite lookup_app_r by lia. rewrite lookup_app_r; rewrite length_replicate;
      [|lia]. by replace (i - length array - (i - length array)) with 0 by lia.
Qed.

Lemma array_get_set_other (A : Type) (array : SparseArray A) (i j : nat) (v : A) :
  i ≠ j → array_get (array_set array i v) j = array_get array j.
Proof.
  intros Hij. unfold array_get, array_set. case_decide as Hi.
  - by rewrite list_lookup_insert_ne.
  - destruct (decide (j < length array)) as [Hj|Hj].
    + by rewrite lookup_app_l.
    + rewrite lookup_app_r by lia. rewrite (lookup_ge_None_2 array) by lia.
      destruct (decide (j - length array < i - length array)) as [Hlt|Hge].
      * rewrite lookup_app_l by (rewrite length_replicate; lia).
        by rewrite lookup_replicate_2.
      * rewrite lookup_app_r by (rewrite length_replicate; lia).
        rewrite length_replicate.
        destruct (j - length array - (i - length array)) as [|m] eqn:Hm;
          [lia | done].
Qed.

(** What [handleTimeout] writes, and where. *)
Lemma handleTimeout_records (now : Z) (w : World) :
  array_get (userAnswers (app (handleTimeout now w)))
            (currentQuestionIndex (app w))
  = Some {| answer := ""; correctness := Timeout;
            timeElapsed := timeAllocated (app w); timestamp := now |}
  ∧ (∀ j, j ≠ currentQuestionIndex (app w) →
          array_get (userAnswers (app (handleTimeout now w))) j
          = array_get (userAnswers (app w)) j)
  ∧ currentQuestionIndex (app (handleTimeout now w))
    = currentQuestionIndex (app w)
  ∧ timeAllocated (app (handleTimeout now w)) = timeAllocated (app w)
  ∧ timer (app (handleTimeout now w)) = timer (app w)
  ∧ intervals (handleTimeout now w) = intervals w.
Proof.
  unfold handleTimeout. cbn. repeat apply conj; try done.
  - apply array_get_set.
  - intros j Hj. by apply array_get_set_other.
Qed.

(** A run of the question timer that does not reach zero only counts down. *)
Lemma tick_counts_down (h : positive) (now : Z) (w : World) (timeLeft : Z) :
  intervals w !! h = Some (QuestionTimer timeLeft) →
  isPaused (app w) = false →
  (1 < timeLeft)%Z →
  app (tick h now w) = app w
  ∧ intervals (tick h now w) !! h = Some (QuestionTimer (timeLeft - 1)).
Proof.
  intros Hh Hp Hlt. unfold tick. rewrite Hh, Hp.
  destruct (Z.leb_spec (timeLeft - 1) 0); [lia|].
  cbn. split; [done|]. by rewrite lookup_insert_eq.
Qed.

(** The run that reaches zero stops the timer and records the timeout. *)
Lemma tick_expires (h : positive) (now : Z) (w : World) (timeLeft : Z) :
  intervals w !! h = Some (QuestionTimer timeLeft) →
  isPaused (app w) = false →
  (timeLeft ≤ 1)%Z →
  let w' := tick h now w in
  userAnswers (app w')
  = array_set (userAnswers (app w)) (currentQuestionIndex (app w))
      {| answer := ""; correctness := Timeout;
         timeElapsed := timeAllocated (app w); timestamp := now |}
  ∧ currentQuestionIndex (app w') = currentQuestionIndex (app w)
  ∧ timer (app w') = None
  ∧ (timer (app w) = Some h → intervals w' !! h = None)
  ∧ timerCountdown (dom w') = 0%Z.
Proof.
  intros Hh Hp Hle. unfold tick. rewrite Hh, Hp.
  destruct (Z.leb_spec (timeLeft - 1) 0); [|lia]. cbn.
  destruct (timer (app w)) as [t|]; cbn; repeat apply conj; try done.
  intros [= ->]. by rewrite lookup_delete_eq.
Qed.

Lemma tick_paused (h : positive) (now : Z) (w : World) (timeLeft : Z) :
  intervals w !! h = Some (QuestionTimer timeLeft) →
  isPaused (app w) = true →
  tick h now w = w.
Proof. intros Hh Hp. unfold tick. by rewrite Hh, Hp. Qed.

Lemma ticks_last (h : positive) (clock : nat → Z) (k : nat) :
  ∀ from w,
    ticks h clock from (S k) w
    = tick h (clock (from + k)) (ticks h clock from k w).
Proof.
  induction k as [|k IH]; intros from w.
  - cbn. by rewrite Nat.add_0_r.
  - cbn [ticks] in *. rewrite IH. by replace (S from + k) with (from + S k) by lia.
Qed.

Lemma ticks_count_down (h : positive) (clock : nat → Z) (k : nat) :
  ∀ from w timeLeft,
    intervals w !! h = Some (QuestionTimer timeLeft) →
    isPaused (app w) = false →
    (Z.of_nat k < timeLeft)%Z →
    app (ticks h clock from k w) = app w
    ∧ intervals (ticks h clock from k w) !! h
      = Some (QuestionTimer (timeLeft - Z.of_nat k)).
Proof.
  induction k as [|k IH]; intros from w timeLeft Hh Hp Hlt.
  - cbn. by rewrite Z.sub_0_r.
  - cbn [ticks].
    destruct (tick_counts_down h (clock from) w timeLeft Hh Hp) as [Happ Hint];
      [lia|].
    destruct (IH (S from) (tick h (clock from) w) (timeLeft - 1)%Z)
      as [Happ' Hint']; [done | by rewrite Happ | lia |].
    rewrite Happ', Happ, Hint'. split; [done|]. do 2 f_equal. lia.
Qed.

Lemma startTimer_state (w : World) :
  app (startTimer w) = setTimer (Some (nextHandle w)) (app w)
  ∧ intervals (startTimer w) !! nextHandle w
    = Some (QuestionTimer (timeAllocated (app w)))
  ∧ timerCountdown (dom (startTimer w)) = timeAllocated (app w).
Proof.
  unfold startTimer, setInterval.
  destruct (timer (app w)); cbn; by rewrite lookup_insert_eq.
Qed.

(** C8.  Whenever the callback of the question timer runs unpaused and its
    count reaches zero, the timer is stopped and the answer log gets, at the
    current question index, the record with the empty answer, [Timeout], and
    the whole allocation as elapsed time (stamped with the time of that run);
    no other index changes.  And the count does reach zero: started with an
    allocation of at least one second and run unpaused once per second with
    no answer submitted in between, the callback leaves the answer log as it
    was until the run numbered by the allocation, which is the one that
    records the timeout. *)
Theorem timeout_is_recorded :
  (∀ (w : World) (h : positive) (now timeLeft : Z),
     intervals w !! h = Some (QuestionTimer timeLeft) →
     isPaused (app w) = false →
     (timeLeft ≤ 1)%Z →
     let w' := tick h now w in
     array_get (userAnswers (app w')) (currentQuestionIndex (app w))
     = Some {| answer := ""; correctness := Timeout;
               timeElapsed := timeAllocated (app w); timestamp := now |}
     ∧ (∀ j, j ≠ currentQuestionIndex (app w) →
             array_get (userAnswers (app w')) j
             = array_get (userAnswers (app w)) j)
     ∧ timer (app w') = None
     ∧ (timer (app w) = Some h → intervals w' !! h = None))
  ∧ (∀ (w : World) (clock : nat → Z),
       isPaused (app w) = false →
       (1 ≤ timeAllocated (app w))%Z →
       let n := Z.to_nat (timeAllocated (app w)) in
       let h := nextHandle w in
       let w' := ticks h clock 0 n (startTimer w) in
       (∀ k, k < n →
             userAnswers (app (ticks h clock 0 k (startTimer w)))
             = userAnswers (app w))
       ∧ array_get (userAnswers (app w')) (currentQuestionIndex (app w))
         = Some {| answer := ""; correctness := Timeout;
                   timeElapsed := timeAllocated (app w);
                   timestamp := clock (n - 1) |}
       ∧ (∀ j, j ≠ currentQuestionIndex (app w) →
               array_get (userAnswers (app w')) j
               = array_get (userAnswers (app w)) j)
       ∧ timer (app w') = None
       ∧ intervals w' !! h = None).
Proof.
  split.
  { intros w h now timeLeft Hh Hp Hle.
    destruct (tick_expires h now w timeLeft Hh Hp Hle)
      as (Hlog & _ & Htimer & Hgone & _).
    cbn zeta in *. rewrite Hlog. repeat apply conj; try done.
    - apply array_get_set.
    - intros j Hj. by apply array_get_set_other. }
  intros w clock Hp Hn n h w'.
  destruct (startTimer_state w) as (Happ & Hint & _). fold h in Happ, Hint.
  assert (Hp0 : isPaused (app (startTimer w)) = false) by by rewrite Happ.
  assert (Hrun : ∀ k, k < n →
            app (ticks h clock 0 k (startTimer w)) = app (startTimer w)
            ∧ intervals (ticks h clock 0 k (startTimer w)) !! h
              = Some (QuestionTimer (timeAllocated (app w) - Z.of_nat k))).
  { intros k Hk. apply ticks_count_down; [done | done | lia]. }
  split.
  { intros k Hk. destruct (Hrun k Hk) as [-> _]. by rewrite Happ. }
  assert (Hn' : n = S (n - 1)) by lia.
  destruct (Hrun (n - 1)) as [Happ1 Hint1]; [lia|].
  subst w'. rewrite Hn', ticks_last. cbn [Nat.add].
  replace (S (n - 1) - 1) with (n - 1) by lia.
  destruct (tick_expires h (clock (n - 1))
              (ticks h clock 0 (n - 1) (startTimer w)) _ Hint1)
    as (Hlog & _ & Htimer & Hgone & _); [by rewrite Happ1 | lia |].
  cbn zeta in *. rewrite Hlog, Happ1, Happ. cbn.
  repeat apply conj; try done.
  - apply array_get_set.
  - intros j Hj. by apply array_get_set_other.
  - apply Hgone. by rewrite Happ1, Happ.
Qed.

Lemma timeout_is_recorded_witness :
  array_get
    (userAnswers (app (ticks 1 (λ i, 5000 + Z.of_nat i)%Z 0 3 (startTimer sampleWorld))))
    0
  = Some {| answer := ""; correctness := Timeout; timeElapsed := 3;
            timestamp := 5002 |}.
Proof.
  exact (proj1 (proj2 (proj2 timeout_is_recorded sampleWorld
                         (λ i, 5000 + Z.of_nat i)%Z eq_refl
                         ltac:(cbn; lia)))).
Defined.

(** *** Leaving the active state *)

Lemma endSession_cancels (w : World) :
  let w' := endSession w in
  isSessionActive (app w') = false
  ∧ timer (app w') = None
  ∧ textRevealTimer (app w') = None
  ∧ (∀ h, timer (app w) = Some h ∨ textRevealTimer (app w) = Some h →
          intervals w' !! h = None)
  ∧ (tracked w → intervals w' = ∅).
Proof.
  unfold endSession, tracked.
  destruct w as [a d ints nh rnd dr].
  destruct a as [qs fqs idx ua sst ta [t|] p act [r|]]; cbn;
    (repeat apply conj; try done);
    try (intros h [[= <-]|[= <-]]);
    rewrite ?lookup_delete_eq; try done.
  all: try (destruct (decide (r = t)) as [->|];
            [by rewrite lookup_delete_eq
            |by rewrite lookup_delete_ne, lookup_delete_eq]).
  all: intros Htracked; apply map_eq; intros h; rewrite lookup_empty;
    destruct (ints !! h) as [cb|] eqn:Hh;
    rewrite ?lookup_delete_None; auto;
    destruct (Htracked h) as [[= <-]|[= <-]]; auto.
Qed.

(** The last question answered, [nextQuestion] ends the session. *)
Lemma nextQuestion_completes (w : World) :
  length (filteredQuestions (app w)) ≤ S (currentQuestionIndex (app w)) →
  nextQuestion w
  = withDom (showScreen "summary-screen")
      (endSession
         (withApp (λ a, setCurrentQuestionIndex (S (currentQuestionIndex a)) a) w)).
Proof.
  intros Hlast. unfold nextQuestion. cbn.
  by rewrite lookup_ge_None_2.
Qed.

(** [resetFilters] touches the document only. *)
Lemma resetFilters_keeps_state (w : World) :
  app (resetFilters w) = app w ∧ intervals (resetFilters w) = intervals w.
Proof. done. Qed.

(** *** The live intervals are the two that [appState] knows

    Every handler and every run of an interval keeps [tracked]: the engine
    never loses the handle of a live interval. *)

Ltac live_cases H :=
  repeat first
    [ apply lookup_insert_is_Some in H as [H|[? H]]
    | apply lookup_delete_is_Some in H as [? H] ].

Lemma tracked_clear_timer (w : World) :
  tracked w →
  tracked (withApp (setTimer None) (clearInterval (timer (app w)) w)).
Proof.
  unfold tracked. destruct w as [a d ints nh rnd dr].
  destruct a as [qs fqs idx ua sst ta [t|] p act r]; cbn; intros Htr h Hh.
  - live_cases Hh. destruct (Htr h Hh) as [[= ->]|?]; [done | by right].
  - destruct (Htr h Hh) as [?|?]; [done | by right].
Qed.

Lemma tracked_clear_reveal (w : World) :
  tracked w →
  tracked (withApp (setTextRevealTimer None)
             (clearInterval (textRevealTimer (app w)) w)).
Proof.
  unfold tracked. destruct w as [a d ints nh rnd dr].
  destruct a as [qs fqs idx ua sst ta t p act [r|]]; cbn; intros Htr h Hh.
  - live_cases Hh. destruct (Htr h Hh) as [?|[= ->]]; [by left | done].
  - destruct (Htr h Hh) as [?|?]; [by left | done].
Qed.

Lemma tracked_startTimer (w : World) : tracked w → tracked (startTimer w).
Proof.
  unfold tracked, startTimer, setInterval. destruct w as [a d ints nh rnd dr].
  destruct a as [qs fqs idx ua sst ta [t|] p act r]; cbn; intros Htr h Hh;
    live_cases Hh; subst; auto;
    destruct (Htr h Hh) as [[= ->]|?]; auto; done.
Qed.

Lemma tracked_startTextReveal (fullText : string) (w : World) :
  tracked w → tracked (startTextReveal fullText w).
Proof.
  intros Htr. apply tracked_clear_reveal in Htr.
  unfold startTextReveal.
  assert (Hnone : textRevealTimer
                    (app (withApp (setTextRevealTimer None)
                            (clearInterval (textRevealTimer (app w)) w))) = None)
    by done.
  revert Htr Hnone.
  generalize (withApp (setTextRevealTimer None)
                (clearInterval (textRevealTimer (app w)) w)) as w1.
  intros w1 Htr Hnone. destruct (1 <? length (split space fullText)); [|done].
  unfold tracked, setInterval in *. destruct w1 as [a d ints nh rnd dr].
  destruct a; cbn in *. intros h Hh. live_cases Hh; subst; auto.
  destruct (Htr h Hh); auto. done.
Qed.

Lemma tracked_displayQuestion (q : Parser.Question) (w : World) :
  tracked w → tracked (displayQuestion q w).
Proof.
  intros Htr. unfold displayQuestion.
  by apply tracked_startTextReveal, tracked_clear_reveal.
Qed.

Lemma tracked_endSession (w : World) : tracked w → tracked (endSession w).
Proof.
  intros Htr. unfold endSession.
  apply tracked_clear_reveal, tracked_clear_timer.
  unfold tracked in *. by destruct w as [[] ?].
Qed.

Lemma tracked_handleTimeout (now : Z) (w : World) :
  tracked w → tracked (handleTimeout now w).
Proof. unfold tracked. by destruct w as [[] ?]. Qed.

Lemma tracked_tick (h : positive) (now : Z) (w : World) :
  tracked w → tracked (tick h now w).
Proof.
  intros Htr. unfold tick.
  destruct (intervals w !! h) as [[timeLeft|words i]|] eqn:Hh; [| |done].
  - destruct (isPaused (app w)); [done|].
    assert (Hkeep : tracked (withIntervals <[h:=QuestionTimer (timeLeft - 1)]> w)).
    { unfold tracked in *. destruct w as [a d ints nh rnd dr]. cbn in *.
      intros h' Hh'. live_cases Hh'; subst; eauto. }
    destruct (timeLeft - 1 <=? 0)%Z.
    + apply tracked_handleTimeout.
      apply (tracked_clear_timer
               (withDom (updateTimerDisplay 0)
                  (withIntervals <[h:=QuestionTimer (timeLeft - 1)]> w))).
      unfold tracked in *. by destruct w as [[] ?].
    + unfold tracked in *. by destruct w as [[] ?].
  - destruct (i <? length words).
    + unfold tracked in *. destruct w as [a d ints nh rnd dr]. cbn in *.
      intros h' Hh'. live_cases Hh'; subst; eauto.
    + by apply tracked_clear_reveal.
Qed.

Lemma tracked_submitAnswer (input : string) (now : Z) (w : World) :
  tracked w → tracked (submitAnswer input now w).
Proof.
  intros Htr. unfold submitAnswer. destruct (isEmpty (trim input)); [done|].
  apply tracked_clear_timer in Htr. revert Htr.
  generalize (withApp (setTimer None) (clearInterval (timer (app w)) w)) as w1.
  intros w1 Htr.
  destruct (filteredQuestions (app w1) !! currentQuestionIndex (app w1));
    [|done].
  unfold tracked in *. by destruct w1 as [[] ?].
Qed.

Lemma tracked_nextQuestion (w : World) : tracked w → tracked (nextQuestion w).
Proof.
  intros Htr. unfold nextQuestion.
  assert (Htr1 : tracked
            (withApp (λ a, setCurrentQuestionIndex (S (currentQuestionIndex a)) a) w)).
  { unfold tracked in *. by destruct w as [[] ?]. }
  revert Htr1.
  generalize (withApp (λ a, setCurrentQuestionIndex (S (currentQuestionIndex a)) a) w)
    as w1.
  intros w1 Htr1.
  destruct (filteredQuestions (app w1) !! currentQuestionIndex (app w1)).
  - by apply tracked_startTimer, tracked_displayQuestion.
  - apply tracked_endSession in Htr1. unfold tracked in *.
    by destruct (endSession w1) as [[] ?].
Qed.

Lemma filterQuestions_keeps_timers (w : World) :
  intervals (filterQuestions w).2 = intervals w
  ∧ timer (app (filterQuestions w).2) = timer (app w)
  ∧ textRevealTimer (app (filterQuestions w).2) = textRevealTimer (app w).
Proof.
  unfold filterQuestions. destruct (getActiveFilters (dom w)).
  destruct (shuffleArray _ _ _). done.
Qed.

Lemma tracked_filterQuestions (f : Dom → Dom) (w : World) :
  tracked w → tracked (filterQuestions (withDom f w)).2.
Proof.
  intros Htr. destruct (filterQuestions_keeps_timers (withDom f w)) as (Hi & Ht & Hr).
  unfold tracked in *. rewrite Hi, Ht, Hr. by destruct w as [[] ?].
Qed.

Lemma tracked_resolveFilters (w : World) :
  tracked w → tracked (resolveFilters w).2.
Proof.
  intros Htr. unfold resolveFilters.
  apply (tracked_filterQuestions (λ d, d)) in Htr.
  replace (withDom (λ d, d) w) with w in Htr by by destruct w.
  destruct (filterQuestions w) as [c0 w0]. cbn [snd] in Htr.
  destruct (c0 =? 0); [|done].
  assert (H1 : tracked
            (if length (List.filter checked (subjects (dom w0))) =? 0
             then filterQuestions (withDom selectAllSubjects w0)
             else (c0, w0)).2).
  { destruct (_ =? 0); [by apply tracked_filterQuestions | done]. }
  destruct (if length _ =? 0 then _ else _) as [c1 w1]. cbn [snd] in H1.
  assert (H2 : tracked
            (if c1 =? 0 then filterQuestions (withDom clearLevel w1)
             else (c1, w1)).2).
  { destruct (c1 =? 0); [by apply tracked_filterQuestions | done]. }
  destruct (if c1 =? 0 then _ else _) as [c2 w2]. cbn [snd] in H2.
  destruct (c2 =? 0); [|done].
  apply (tracked_filterQuestions selectAllAvailableSubjects) in H2.
  by destruct (filterQuestions (withDom selectAllAvailableSubjects w2)).
Qed.

Lemma tracked_startPracticeSession (now : Z) (w : World) :
  tracked w → tracked (startPracticeSession now w).2.
Proof.
  intros Htr. unfold startPracticeSession.
  apply tracked_resolveFilters in Htr.
  destruct (resolveFilters w) as [c w1]. cbn [snd] in Htr.
  destruct (c =? 0); [done|].
  set (w2 := withDom (showScreen "practice-screen") (withApp _ w1)).
  assert (Htr2 : tracked w2).
  { subst w2. unfold tracked in *. by destruct w1 as [[] ?]. }
  destruct (filteredQuestions (app w2)); cbn [snd].
  - unfold tracked in *. by destruct w2 as [[] ?].
  - by apply tracked_startTimer, tracked_displayQuestion.
Qed.

Lemma tracked_fire (e : Event) (w : World) : tracked w → tracked (fire e w).
Proof.
  intros Htr. destruct e as [now|[]|input now| | | |h now]; cbn [fire].
  - by apply tracked_startPracticeSession.
  - apply tracked_endSession in Htr. unfold tracked in *.
    by destruct (endSession w) as [[] ?].
  - done.
  - by apply tracked_submitAnswer.
  - by apply tracked_nextQuestion.
  - unfold tracked in *. by destruct w as [[] ?].
  - unfold tracked in *. by destruct w as [[] ?].
  - by apply tracked_tick.
Qed.

Lemma tracked_run (events : list Event) :
  ∀ w, tracked w → tracked (run events w).
Proof.
  unfold run. induction events as [|e events IH]; intros w Htr; [done|].
  cbn. by apply IH, tracked_fire.
Qed.

(** So, from a start without live intervals and after any events, the
    confirmed back button and the [nextQuestion] that passes the last
    question both leave no live interval at all. *)
Lemma ending_cancels_every_interval (events : list Event) (w : World) :
  intervals w = ∅ →
  let w' := run events w in
  intervals (fire (BackToSetup true) w') = ∅
  ∧ (length (filteredQuestions (app w')) ≤ S (currentQuestionIndex (app w')) →
     intervals (fire NextQuestion w') = ∅).
Proof.
  intros Hnone w'.
  assert (Htr : tracked w').
  { apply tracked_run. intros h. rewrite Hnone, lookup_empty.
    by intros [? ?]. }
  split.
  - exact (proj2 (proj2 (proj2 (proj2 (endSession_cancels w')))) Htr).
  - intros Hlast. cbn [fire]. rewrite nextQuestion_completes by done.
    refine (proj2 (proj2 (proj2 (proj2 (endSession_cancels _)))) _).
    unfold tracked in *. by destruct w' as [[] ?].
Qed.

(** C9, at a session started on the sample bank and left through the reset
    button of the practice screen: [resetFilters] shows the setup screen but
    does not call [endSession], so the session stays active and both
    intervals stay live; three seconds later the question timer writes a
    timeout into the answer log of the session that was left. *)
Theorem resetFilters_leaves_timers_running :
  let active := (startPracticeSession 1000 sampleWorld).2 in
  let left := resetFilters active in
  isSessionActive (app active) = true
  ∧ timer (app active) = Some 2%positive
  ∧ textRevealTimer (app active) = Some 1%positive
  ∧ activeScreen (dom left) = "setup-screen"
  ∧ isSessionActive (app left) = true
  ∧ intervals left !! 2%positive = Some (QuestionTimer 3)
  ∧ intervals left !! 1%positive
    = Some (TextReveal ["Organelle"; "for"; "ATP"; "production?"] 1)
  ∧ userAnswers (app left) = []
  ∧ userAnswers (app (ticks 2 (λ i, 2000 + Z.of_nat i)%Z 0 3 left))
    = [Some {| answer := ""; correctness := Timeout; timeElapsed := 3;
               timestamp := 2002 |}]
  ∧ intervals (endSession active) = ∅.
Proof. cbv zeta. repeat apply conj; vm_compute; reflexivity. Qed.

End SessionFacts.

(** ** The session engine: filter resolution *)

Module FilterFacts.
Import JsString Session.

Lemma swap_Permutation (A : Type) (array : list A) (i j : nat) :
  swap array i j ≡ₚ array.
Proof.
  unfold swap. destruct (array !! i) eqn:Hi, (array !! j) eqn:Hj; try done.
  by apply Permutation_insert_swap.
Qed.

(** The shuffle reorders: whatever [Math.random] returns, the result holds
    the same questions. *)
Lemma shuffle_loop_Permutation (A : Type) (random : nat → nat) (i : nat) :
  ∀ drawn (array : list A), (shuffle_loop random drawn i array).1 ≡ₚ array.
Proof.
  induction i as [|i IH]; intros drawn array; [done|].
  cbn [shuffle_loop]. by rewrite IH, swap_Permutation.
Qed.

(** What one [filterQuestions] returns and leaves. *)
Lemma filterQuestions_settles (w : World) :
  settlesOn (questions (app w)) (dom w) (filterQuestions w).
Proof.
  unfold settlesOn, filterQuestions, matching.
  destruct (getActiveFilters (dom w)) as [selectedSubjects selectedLevel].
  pose proof (shuffle_loop_Permutation _ (random w)
    (length (List.filter (matchesFilters selectedSubjects selectedLevel)
                         (questions (app w))) - 1)
    (drawn w)
    (List.filter (matchesFilters selectedSubjects selectedLevel)
                 (questions (app w)))) as Hperm.
  unfold shuffleArray.
  destruct (shuffle_loop _ _ _ _) as [shuffled drawn']. cbn in *.
  by rewrite Hperm.
Qed.

(** A retry: the selection is changed by [f], then [filterQuestions] runs. *)
Lemma retry_settles (pool : list Parser.Question) (f : Dom → Dom) (w : World) :
  questions (app w) = pool →
  settlesOn pool (f (dom w)) (filterQuestions (withDom f w)).
Proof. intros <-. apply (filterQuestions_settles (withDom f w)). Qed.

Lemma settlesOn_zero (pool : list Parser.Question) (d : Dom) (r : nat * World) :
  settlesOn pool d r → r.1 = 0 → matching pool d = [].
Proof. intros (Hc & _) Hz. apply length_zero_iff_nil. congruence. Qed.

Lemma settlesOn_positive (pool : list Parser.Question) (d : Dom) (r : nat * World) :
  settlesOn pool d r → r.1 ≠ 0 → ∃ q qs, matching pool d = q :: qs.
Proof.
  intros (Hc & _) Hnz. destruct (matching pool d) as [|q qs]; [done|]. eauto.
Qed.

Lemma no_selection (l : list Checkbox) :
  (length (List.filter checked l) =? 0) = forallb (λ cb, negb (checked cb)) l.
Proof.
  induction l as [|cb l IH]; [done|]. cbn.
  destruct (checked cb); cbn; [done | exact IH].
Qed.

Lemma consistent_selectAllSubjects (pool : list Parser.Question) (d : Dom) :
  forallb (consistentBox pool) (subjects d) = true →
  forallb (consistentBox pool) (subjects (selectAllSubjects d)) = true.
Proof.
  unfold selectAllSubjects. cbn. generalize (subjects d) as l.
  induction l as [|cb l IH]; [done|]. cbn.
  intros [Hcb Hl]%andb_true_iff. rewrite (IH Hl), andb_true_r.
  destruct cb as [v [] c]; [done|]. unfold consistentBox in *. cbn in *.
  destruct (negb (hasQuestions pool v)); [by destruct c | done].
Qed.

(** The loader leaves the boxes consistent with the pool, whatever they were
    before, and the two selection buttons keep them so. *)
Lemma updateSubjectSelector_consistent (pool : list Parser.Question) (d : Dom) :
  forallb (consistentBox pool) (subjects (updateSubjectSelector pool d)) = true.
Proof.
  unfold updateSubjectSelector. cbn. generalize (subjects d) as l.
  induction l as [|cb l IH]; [done|]. cbn. rewrite IH, andb_true_r.
  unfold consistentBox. cbn.
  destruct (hasQuestions pool (value cb)); cbn; [|done].
  by rewrite orb_true_r.
Qed.

Lemma consistent_clearAllSubjects (pool : list Parser.Question) (d : Dom) :
  forallb (consistentBox pool) (subjects d) = true →
  forallb (consistentBox pool) (subjects (clearAllSubjects d)) = true.
Proof.
  unfold clearAllSubjects. cbn. generalize (subjects d) as l.
  induction l as [|cb l IH]; [done|]. cbn.
  intros [Hcb Hl]%andb_true_iff. rewrite (IH Hl), andb_true_r.
  unfold consistentBox in *. cbn.
  apply andb_true_iff in Hcb as [-> _]. done.
Qed.

(** With no level selected, a pool that is not empty and boxes as the loader
    leaves them, some question matches. *)
Lemma matching_without_level (pool : list Parser.Question) (d : Dom) :
  pool ≠ [] →
  forallb (consistentBox pool) (subjects d) = true →
  levelChecked d = "" →
  matching pool d ≠ [].
Proof.
  intros Hpool Hcons Hlevel. unfold matching, getActiveFilters. rewrite Hlevel.
  destruct (List.filter checked (subjects d)) as [|cb sel] eqn:Hsel.
  - cbn. destruct pool as [|q pool]; [done|]. cbn. done.
  - assert (Hin : In cb (List.filter checked (subjects d)))
      by (rewrite Hsel; by left).
    apply filter_In in Hin as [Hin Hchk].
    rewrite forallb_forall in Hcons. specialize (Hcons cb Hin).
    unfold consistentBox in Hcons. apply andb_true_iff in Hcons as [Hdis Hok].
    rewrite Hchk in Hok. cbn in Hok. apply negb_true_iff in Hok.
    rewrite Hok in Hdis. apply Bool.eqb_prop in Hdis.
    symmetry in Hdis. apply negb_false_iff in Hdis.
    unfold hasQuestions in Hdis. apply existsb_exists in Hdis as (q & Hq & Hcat).
    intros Hnil.
    assert (Hmatch : In q (List.filter
                             (matchesFilters (List.map value (cb :: sel)) "")
                             pool)).
    { apply filter_In. split; [done|]. unfold matchesFilters. cbn.
      by rewrite Hcat. }
    by rewrite Hnil in Hmatch.
Qed.

(** The loop-free reading of [resolveFilters]: it settles on the first of
    the four selections that matches a question. *)
Lemma resolveFilters_spec (w : World) :
  let pool := questions (app w) in
  let d1 := if noneSelected (dom w) then selectAllSubjects (dom w) else dom w in
  let d2 := clearLevel d1 in
  let d3 := selectAllAvailableSubjects d2 in
  settlesOn pool (firstMatching pool (dom w) [d1; d2; d3]) (resolveFilters w).
Proof.
  intros pool d1 d2 d3. unfold resolveFilters. cbn [firstMatching].
  pose proof (filterQuestions_settles w) as H0. fold pool in H0.
  destruct (filterQuestions w) as [c0 w0].
  destruct (Nat.eqb_spec c0 0) as [Hz0|Hnz0]; cycle 1.
  { destruct (settlesOn_positive _ _ _ H0 Hnz0) as (q & qs & ->). exact H0. }
  rewrite (settlesOn_zero _ _ _ H0 Hz0).
  pose proof H0 as (_ & Hd0 & Hq0 & _). cbn [fst snd] in Hd0, Hq0.
  rewrite Hd0, no_selection. fold (noneSelected (dom w)).
  assert (H1 : settlesOn pool d1
                 (if noneSelected (dom w)
                  then filterQuestions (withDom selectAllSubjects w0)
                  else (c0, w0))).
  { subst d1. destruct (noneSelected (dom w)); [|exact H0].
    rewrite <- Hd0. by apply retry_settles. }
  destruct (if noneSelected (dom w) then filterQuestions _ else _) as [c1 w1].
  destruct (Nat.eqb_spec c1 0) as [Hz1|Hnz1]; cycle 1.
  { destruct (settlesOn_positive _ _ _ H1 Hnz1) as (q & qs & ->).
    cbn beta iota. destruct (Nat.eqb_spec c1 0); [done | exact H1]. }
  rewrite (settlesOn_zero _ _ _ H1 Hz1).
  pose proof H1 as (_ & Hd1 & Hq1 & _). cbn [fst snd] in Hd1, Hq1.
  assert (H2 : settlesOn pool d2 (filterQuestions (withDom clearLevel w1))).
  { subst d2. rewrite <- Hd1. by apply retry_settles. }
  destruct (filterQuestions (withDom clearLevel w1)) as [c2 w2].
  destruct (Nat.eqb_spec c2 0) as [Hz2|Hnz2]; cycle 1.
  { destruct (settlesOn_positive _ _ _ H2 Hnz2) as (q & qs & ->). exact H2. }
  rewrite (settlesOn_zero _ _ _ H2 Hz2).
  pose proof H2 as (_ & Hd2 & Hq2 & _). cbn [fst snd] in Hd2, Hq2.
  assert (H3 : settlesOn pool d3
                 (filterQuestions (withDom selectAllAvailableSubjects w2))).
  { subst d3. rewrite <- Hd2. by apply retry_settles. }
  destruct (filterQuestions (withDom selectAllAvailableSubjects w2)) as [c3 w3].
  exact H3.
Qed.

(** *** The boxes stay as the loader leaves them

    No handler and no interval touches the pool, and the selection is only
    changed by checking enabled boxes. *)

Lemma updateSubjectSelector_loaded (w : World) :
  loaded (withDom (updateSubjectSelector (questions (app w))) w) = true.
Proof.
  unfold loaded. cbn [withDom app dom].
  apply updateSubjectSelector_consistent.
Qed.

Lemma startTimer_keeps_pool (w : World) :
  questions (app (startTimer w)) = questions (app w)
  ∧ subjects (dom (startTimer w)) = subjects (dom w).
Proof. unfold startTimer, setInterval. by destruct w as [[? ? ? ? ? ? [] ? ? ?] ?]. Qed.

Lemma displayQuestion_keeps_pool (q : Parser.Question) (w : World) :
  questions (app (displayQuestion q w)) = questions (app w)
  ∧ subjects (dom (displayQuestion q w)) = subjects (dom w).
Proof.
  unfold displayQuestion, startTextReveal, setInterval.
  destruct (1 <? length (split space (Parser.question q)));
    by destruct w as [[? ? ? ? ? ? ? ? ? []] ?].
Qed.

Lemma endSession_keeps_pool (w : World) :
  questions (app (endSession w)) = questions (app w)
  ∧ subjects (dom (endSession w)) = subjects (dom w).
Proof. unfold endSession. by destruct w as [[? ? ? ? ? ? [] ? ? []] ?]. Qed.

Lemma tick_keeps_pool (h : positive) (now : Z) (w : World) :
  questions (app (tick h now w)) = questions (app w)
  ∧ subjects (dom (tick h now w)) = subjects (dom w).
Proof.
  unfold tick. destruct (intervals w !! h) as [[timeLeft|words i]|]; [| |done].
  - destruct (isPaused (app w)); [done|].
    destruct (timeLeft - 1 <=? 0)%Z; by destruct w as [[? ? ? ? ? ? [] ? ? ?] ?].
  - destruct (i <? length words); by destruct w as [[? ? ? ? ? ? ? ? ? []] ?].
Qed.

Lemma loaded_keeps (w w' : World) :
  questions (app w') = questions (app w) →
  subjects (dom w') = subjects (dom w) →
  loaded w = true → loaded w' = true.
Proof. unfold loaded. by intros -> ->. Qed.

Lemma loaded_resolveFilters (w : World) :
  loaded w = true → loaded (resolveFilters w).2 = true.
Proof.
  intros Hl. pose proof (resolveFilters_spec w) as (_ & Hdom & Hq & _).
  cbv zeta in *. unfold loaded in *. rewrite Hq, Hdom. cbn [firstMatching].
  set (pool := questions (app w)) in *.
  set (d1 := if noneSelected (dom w) then selectAllSubjects (dom w) else dom w).
  assert (H1 : forallb (consistentBox pool) (subjects d1) = true).
  { subst d1. destruct (noneSelected (dom w)); [|done].
    by apply consistent_selectAllSubjects. }
  destruct (matching pool (dom w)); [|done].
  destruct (matching pool d1); [|done].
  destruct (matching pool (clearLevel d1)); [|done].
  by apply (consistent_selectAllSubjects pool (clearLevel d1)).
Qed.

Lemma loaded_fire (e : Event) (w : World) :
  loaded w = true → loaded (fire e w) = true.
Proof.
  intros Hl. destruct e as [now|[]|input now| | | |h now]; cbn [fire].
  - unfold startPracticeSession.
    apply loaded_resolveFilters in Hl.
    destruct (resolveFilters w) as [c w1]. cbn [snd] in Hl.
    destruct (c =? 0); [done|].
    set (w2 := withDom (showScreen "practice-screen") (withApp _ w1)).
    assert (Hl2 : loaded w2 = true).
    { revert Hl. apply loaded_keeps; by destruct w1 as [[] ?]. }
    destruct (filteredQuestions (app w2)) as [|q qs]; cbn [snd].
    + revert Hl2. apply loaded_keeps; by destruct w2 as [[] ?].
    + revert Hl2.
      destruct (startTimer_keeps_pool (displayQuestion q w2)) as [Hq Hs].
      destruct (displayQuestion_keeps_pool q w2) as [Hq' Hs'].
      apply loaded_keeps; congruence.
  - revert Hl. destruct (endSession_keeps_pool w). by apply loaded_keeps.
  - done.
  - revert Hl. apply loaded_keeps; unfold submitAnswer;
      destruct (isEmpty (trim input)); try done;
      destruct w as [[? ? ? ? ? ? [] ? ? ?] ?]; cbn;
      by destruct (_ !! _).
  - unfold nextQuestion.
    set (w1 := withApp _ w).
    assert (Hl1 : loaded w1 = true).
    { revert Hl. apply loaded_keeps; by destruct w as [[] ?]. }
    destruct (filteredQuestions (app w1) !! currentQuestionIndex (app w1)) as [q|].
    + revert Hl1.
      destruct (startTimer_keeps_pool (displayQuestion q w1)) as [Hq Hs].
      destruct (displayQuestion_keeps_pool q w1) as [Hq' Hs'].
      apply loaded_keeps; congruence.
    + revert Hl1. destruct (endSession_keeps_pool w1). by apply loaded_keeps.
  - revert Hl. apply loaded_keeps; by destruct w as [[] ?].
  - unfold loaded in *. cbn.
    by apply (consistent_selectAllSubjects (questions (app w)) (dom w)).
  - revert Hl. destruct (tick_keeps_pool h now w). by apply loaded_keeps.
Qed.

Lemma loaded_run (events : list Event) :
  ∀ w, loaded w = true → loaded (run events w) = true.
Proof.
  unfold run. induction events as [|e events IH]; intros w Hl; [done|].
  cbn. by apply IH, loaded_fire.
Qed.

Lemma startPracticeSession_outcome (now : Z) (w : World) :
  (startPracticeSession now w).1 = NoQuestionsFound ↔ (resolveFilters w).1 = 0.
Proof.
  unfold startPracticeSession.
  destruct (resolveFilters w) as [c w']. cbn [fst].
  destruct (Nat.eqb_spec c 0) as [->|Hc]; [done|].
  cbn. destruct (filteredQuestions (app w')); cbn; split; done.
Qed.

End FilterFacts.

(** ** The session engine against the design of filter resolution *)

Module ResolutionFacts.
Import JsString Session FilterFacts Resolution.

(** The code's filter and the functions it changes the document with are
    the ones described. *)
Lemma matching_select (pool : list Parser.Question) (d : Dom) :
  matching pool d = select pool (shown d).
Proof.
  unfold matching, select, getActiveFilters, shown. apply List.filter_ext.
  intros q. unfold matchesFilters, subjectMatch, levelMatch. cbn.
  f_equal.
  - by destruct (List.map value (List.filter checked (subjects d))).
  - by destruct (levelChecked d).
Qed.

Lemma selectAllSubjects_checkSelectable (d : Dom) :
  selectAllSubjects d = checkSelectable d.
Proof.
  unfold selectAllSubjects, checkSelectable, setSubjects. f_equal.
  apply List.map_ext. intros [v [] c]; cbn; [by rewrite orb_false_r|].
  by rewrite orb_true_r.
Qed.

Lemma selectAllAvailableSubjects_checkSelectable (d : Dom) :
  selectAllAvailableSubjects d = checkSelectable d.
Proof.
  unfold selectAllAvailableSubjects, checkSelectable, setSubjects. f_equal.
  apply List.map_ext. intros [v [] c]; cbn; [by rewrite orb_false_r|].
  by rewrite orb_true_r.
Qed.

Lemma clearLevel_levelCleared (d : Dom) : clearLevel d = levelCleared d.
Proof. reflexivity. Qed.

Lemma noneSelected_shown (d : Dom) :
  noneSelected d = match selectedSubjects (shown d) with [] => true | _ => false end.
Proof.
  unfold noneSelected, shown. cbn. induction (subjects d) as [|cb l IH]; [done|].
  cbn. destruct (checked cb); cbn; [done | exact IH].
Qed.

Lemma firstMatching_firstShown (pool : list Parser.Question) (ds : list Dom) :
  ∀ d, firstMatching pool d ds = firstShown pool d ds.
Proof.
  induction ds as [|d' ds IH]; intros d; [done|].
  cbn [firstMatching firstShown]. by rewrite matching_select, IH.
Qed.

(** What [resolveFilters] does, for any document. *)
Lemma resolveFilters_attempts (w : World) :
  let pool := questions (app w) in
  let w' := (resolveFilters w).2 in
  dom w' = firstShown pool (dom w) (attempts (dom w))
  ∧ (resolveFilters w).1 = length (select pool (shown (dom w')))
  ∧ filteredQuestions (app w') ≡ₚ select pool (shown (dom w'))
  ∧ questions (app w') = pool.
Proof.
  intros pool w'.
  pose proof (resolveFilters_spec w) as (Hc & Hd & Hq & Hp). cbv zeta in *.
  fold pool in Hc, Hd, Hq, Hp. fold w' in Hd, Hq, Hp.
  assert (Hdom : dom w' = firstShown pool (dom w) (attempts (dom w))).
  { rewrite Hd, firstMatching_firstShown. unfold attempts.
    rewrite noneSelected_shown, selectAllSubjects_checkSelectable,
      selectAllAvailableSubjects_checkSelectable.
    by destruct (selectedSubjects (shown (dom w))). }
  rewrite <- Hd, matching_select in Hc, Hp.
  done.
Qed.

Lemma firstShown_shown (pool : list Parser.Question) (ds : list Dom) :
  ∀ d, shown (firstShown pool d ds)
       = firstNonEmpty pool (shown d) (List.map shown ds).
Proof.
  induction ds as [|d' ds IH]; intros d; [done|].
  cbn [firstShown firstNonEmpty List.map].
  destruct (select pool (shown d)); [apply IH | done].
Qed.

(** With a box as the loader leaves it, it is checked or can be checked
    exactly when its subject has a question. *)
Lemma consistentBox_selectable (pool : list Parser.Question) (cb : Checkbox) :
  consistentBox pool cb = true →
  checked cb || negb (disabled cb) = hasQuestions pool (value cb).
Proof.
  unfold consistentBox. intros [Hdis Hchk]%andb_true_iff.
  apply Bool.eqb_prop in Hdis. rewrite Hdis in *.
  destruct (hasQuestions pool (value cb)), (checked cb); done.
Qed.

Lemma shown_checkSelectable (pool : list Parser.Question) (d : Dom) :
  forallb (consistentBox pool) (subjects d) = true →
  shown (checkSelectable d)
  = {| selectedSubjects := List.filter (hasQuestions pool) (offered d);
       selectedLevel := levelChecked d |}.
Proof.
  intros Hcons. unfold shown, checkSelectable, offered. cbn. f_equal.
  induction (subjects d) as [|cb l IH]; [done|].
  cbn in Hcons. apply andb_true_iff in Hcons as [Hcb Hl].
  cbn [List.map List.filter checked value].
  rewrite (consistentBox_selectable pool cb Hcb).
  destruct (hasQuestions pool (value cb)); cbn [List.map value];
    by rewrite (IH Hl).
Qed.

Lemma hasMatchingQuestion_anyLevel
      (pool : list Parser.Question) (s : Selection) (subject : string) :
  selectedLevel s = "" →
  hasMatchingQuestion pool s subject = hasQuestions pool subject.
Proof.
  intros Hl. unfold hasMatchingQuestion, hasQuestions, levelMatch. rewrite Hl.
  induction pool as [|q pool IH]; [done|]. cbn. by rewrite andb_true_r, IH.
Qed.

Lemma question_subject (pool : list Parser.Question) (q : Parser.Question) :
  In q pool → hasQuestions pool (Parser.category q) = true.
Proof.
  intros Hq. unfold hasQuestions. apply existsb_exists. exists q.
  split; [done|]. apply String.eqb_refl.
Qed.

Lemma offered_with_questions
      (pool : list Parser.Question) (subjects : list string) (q : Parser.Question) :
  In q pool →
  existsb (String.eqb (Parser.category q)) (List.filter (hasQuestions pool) subjects)
  = existsb (String.eqb (Parser.category q)) subjects.
Proof.
  intros Hq. induction subjects as [|subject subjects IH]; [done|].
  cbn [List.filter existsb].
  destruct (String.eqb_spec (Parser.category q) subject) as [<-|Hne].
  - rewrite (question_subject pool q Hq). cbn. by rewrite String.eqb_refl.
  - destruct (hasQuestions pool subject); cbn; [|exact IH].
    apply String.eqb_neq in Hne. by rewrite Hne.
Qed.

Lemma filter_none (A : Type) (f : A → bool) (l : list A) :
  (∀ a, In a l → f a = false) → List.filter f l = [].
Proof.
  intros H. rewrite (List.filter_ext_in f (λ _, false) l H).
  apply List.filter_false.
Qed.

(** Selecting the subjects on offer selects the questions of those of them
    that have a question; if none of them has one, it selects nothing. *)
Lemma select_with_questions
      (pool : list Parser.Question) (subjects : list string) (level : string) :
  List.filter (hasQuestions pool) subjects ≠ [] →
  select pool {| selectedSubjects := List.filter (hasQuestions pool) subjects;
                 selectedLevel := level |}
  = select pool {| selectedSubjects := subjects; selectedLevel := level |}.
Proof.
  intros Hne. unfold select. apply List.filter_ext_in. intros q Hq.
  f_equal. unfold subjectMatch. cbn [selectedSubjects].
  pose proof (offered_with_questions pool subjects q Hq) as Hb.
  destruct subjects as [|s2 l]; [by destruct Hne|].
  destruct (List.filter (hasQuestions pool) (s2 :: l)) as [|s1 sel];
    [by destruct Hne | exact Hb].
Qed.

Lemma select_without_questions
      (pool : list Parser.Question) (subjects : list string) (level : string) :
  List.filter (hasQuestions pool) subjects = [] → subjects ≠ [] →
  select pool {| selectedSubjects := subjects; selectedLevel := level |} = [].
Proof.
  intros Hnone Hne. apply filter_none. intros q Hq.
  unfold subjectMatch. cbn [selectedSubjects].
  pose proof (offered_with_questions pool subjects q Hq) as Hb.
  rewrite Hnone in Hb. cbn in Hb.
  destruct subjects as [|s l]; [by destruct Hne|]. by rewrite <- Hb.
Qed.

Lemma consistent_checkSelectable (pool : list Parser.Question) (d : Dom) :
  forallb (consistentBox pool) (subjects d) = true →
  forallb (consistentBox pool) (subjects (checkSelectable d)) = true.
Proof.
  rewrite <- selectAllSubjects_checkSelectable.
  apply consistent_selectAllSubjects.
Qed.

Lemma select_nonempty (pool : list Parser.Question) (d : Dom) :
  pool ≠ [] →
  forallb (consistentBox pool) (subjects d) = true →
  levelChecked d = "" →
  select pool (shown d) ≠ [].
Proof.
  intros Hp Hc Hl. rewrite <- matching_select.
  by apply matching_without_level.
Qed.

Lemma firstNonEmpty_alike (pool : list Parser.Question) (as' bs : list Selection) :
  ∀ a b, alike pool a b → Forall2 (alike pool) as' bs →
         alike pool (firstNonEmpty pool a as') (firstNonEmpty pool b bs).
Proof.
  intros a b Hab Hall. revert a b Hab.
  induction Hall as [|a' b' as' bs Hhead Htail IH]; intros a b Hab; [done|].
  cbn [firstNonEmpty]. pose proof Hab as [Hsel _]. rewrite <- Hsel.
  destruct (select pool a) eqn:Ha; [by apply IH | exact Hab].
Qed.

Lemma alike_same (pool : list Parser.Question) (a : Selection) :
  List.filter (hasQuestions pool) (selectedSubjects a) = selectedSubjects a →
  alike pool a a.
Proof. intros Hsame. by repeat split. Qed.

Lemma filter_twice (A : Type) (f : A → bool) (l : list A) :
  List.filter f (List.filter f l) = List.filter f l.
Proof.
  induction l as [|a l IH]; [done|]. cbn [List.filter].
  destruct (f a) eqn:Hf; [|exact IH]. cbn [List.filter]. by rewrite Hf, IH.
Qed.

(** With the boxes as the loader leaves them, every selected subject has a
    question. *)
Lemma shown_with_questions (pool : list Parser.Question) (d : Dom) :
  forallb (consistentBox pool) (subjects d) = true →
  List.filter (hasQuestions pool) (selectedSubjects (shown d))
  = selectedSubjects (shown d).
Proof.
  intros Hcons. unfold shown. cbn [selectedSubjects].
  induction (subjects d) as [|cb l IH]; [done|].
  cbn in Hcons. apply andb_true_iff in Hcons as [Hcb Hl].
  cbn [List.filter]. destruct (checked cb) eqn:Hchk; [|by apply IH].
  cbn [List.map List.filter].
  pose proof (consistentBox_selectable pool cb Hcb) as Hq.
  rewrite Hchk in Hq. cbn in Hq. by rewrite <- Hq, (IH Hl).
Qed.

Lemma firstNonEmpty_second
      (pool : list Parser.Question) (s c1 c2 c3 : Selection) :
  select pool c2 ≠ [] → select pool (firstNonEmpty pool s [c1; c2; c3]) ≠ [].
Proof.
  intros H2. cbn [firstNonEmpty].
  destruct (select pool s) eqn:H0; [|by rewrite H0].
  destruct (select pool c1) eqn:H1; [|by rewrite H1].
  by destruct (select pool c2) eqn:H2'; [|rewrite H2'].
Qed.

Lemma offered_checkSelectable (d : Dom) : offered (checkSelectable d) = offered d.
Proof.
  unfold offered, checkSelectable. cbn. rewrite List.map_map. done.
Qed.

Lemma selectWithQuestions_anyLevel
      (pool : list Parser.Question) (subjects : list string) (s : Selection) :
  selectWithQuestions pool subjects (anyLevel s)
  = {| selectedSubjects := List.filter (hasQuestions pool) subjects;
       selectedLevel := "" |}.
Proof.
  unfold selectWithQuestions. cbn [selectedLevel anyLevel]. f_equal.
  apply List.filter_ext. intros subject.
  by apply hasMatchingQuestion_anyLevel.
Qed.

(** The engine against the design, with the boxes as the loader leaves
    them: the same questions and the same level at every step, hence the
    same step to stop at. *)
Lemma attempts_resolve (pool : list Parser.Question) (d : Dom) :
  forallb (consistentBox pool) (subjects d) = true →
  alike pool (shown (firstShown pool d (attempts d)))
        (resolve pool (offered d) (shown d)).
Proof.
  intros Hcons.
  assert (Hcons1 : forallb (consistentBox pool) (subjects (checkSelectable d)) = true)
    by (by apply consistent_checkSelectable).
  pose proof (shown_with_questions pool d Hcons) as Hshown.
  rewrite firstShown_shown. unfold attempts, resolve, selectAll.
  rewrite selectWithQuestions_anyLevel.
  destruct (selectedSubjects (shown d)) as [|subject others] eqn:Hsel.
  - (* no subject is selected *)
    cbn [List.map].
    change (selectedLevel (shown d)) with (levelChecked d).
    change (shown (levelCleared (checkSelectable d)))
      with (anyLevel (shown (checkSelectable d))).
    rewrite (shown_checkSelectable pool (levelCleared (checkSelectable d)))
      by exact Hcons1.
    change (offered (levelCleared (checkSelectable d)))
      with (offered (checkSelectable d)).
    rewrite offered_checkSelectable, (shown_checkSelectable pool d Hcons).
    unfold anyLevel. cbn [selectedSubjects selectedLevel levelChecked levelCleared].
    assert (Hs : alike pool (shown d) (shown d))
      by (apply alike_same; by rewrite Hsel).
    destruct (List.filter (hasQuestions pool) (offered d)) as [|s1 sel] eqn:Hq.
    + destruct (offered d) as [|o1 os] eqn:Ho.
      { apply firstNonEmpty_alike; [exact Hs|]. by repeat constructor. }
      assert (Hd : shown d = {| selectedSubjects := [];
                                selectedLevel := levelChecked d |}).
      { unfold shown in *. cbn in Hsel. by rewrite Hsel. }
      cbn [firstNonEmpty].
      rewrite (select_without_questions pool (o1 :: os) (levelChecked d))
        by done.
      rewrite (select_without_questions pool (o1 :: os) "") by done.
      rewrite <- Hd.
      destruct (select pool (shown d)); [|exact Hs].
      destruct (select pool {| selectedSubjects := []; selectedLevel := "" |});
        by repeat split.
    + rewrite <- Hq.
      assert (Hne : List.filter (hasQuestions pool) (offered d) ≠ [])
        by (by rewrite Hq).
      apply firstNonEmpty_alike; [exact Hs|].
      repeat constructor; cbn [selectedLevel selectedSubjects]; try done;
        try (by apply select_with_questions).
      by rewrite filter_twice.
  - (* some subject is selected *)
    cbn [List.map].
    change (shown (levelCleared d)) with (anyLevel (shown d)).
    rewrite (shown_checkSelectable pool (levelCleared d)) by exact Hcons.
    apply firstNonEmpty_alike; [by apply alike_same; rewrite Hsel|].
    repeat constructor; cbn [selectedLevel selectedSubjects anyLevel];
      try done; try (by rewrite Hsel).
    by rewrite filter_twice.
Qed.

(** With the boxes as the loader leaves them, the engine finds a question
    as soon as the pool has one. *)
Lemma attempts_find (pool : list Parser.Question) (d : Dom) :
  forallb (consistentBox pool) (subjects d) = true →
  select pool (shown (firstShown pool d (attempts d))) = [] ↔ pool = [].
Proof.
  intros Hcons. split; [|intros ->; apply filter_none; by intros ? []].
  intros Hempty. destruct pool as [|q0 pool'] eqn:Hpool; [done|]. exfalso.
  rewrite <- Hpool in *. rewrite firstShown_shown in Hempty.
  revert Hempty. unfold attempts. cbn [List.map].
  apply firstNonEmpty_second.
  apply select_nonempty; [by rewrite Hpool | | done].
  destruct (selectedSubjects (shown d)); [|done].
  by apply consistent_checkSelectable.
Qed.

(** C5. Filter resolution at session start.  For every state of the
    application, the engine leaves the document on the first of these
    whose selection yields a question, and on the last when none does: the
    document as it is; the same with every box that is not disabled
    checked, if no box was checked; that with the level radio on any
    level; that with every box that is not disabled checked.  The count
    returned is the number of questions that selection yields, the working
    set holds them in some order, and the session reports that no
    question was found exactly when there is none.

    With the boxes as the loader leaves them, the outcome is the one of
    the fallbacks in the words of the design, tried in order until one
    yields a question: (1) all subjects if none was selected, (2) no
    level, (3) the subjects that have a matching question.  The working
    set, the count and the level are the design's; the boxes checked are
    the design's subjects that have a question; and no question is found
    only with an empty pool. *)
Theorem filter_resolution_escalates :
  (∀ (now : Z) (w : World),
     let pool := questions (app w) in
     let w' := (resolveFilters w).2 in
     dom w' = firstShown pool (dom w) (attempts (dom w))
     ∧ (resolveFilters w).1 = length (select pool (shown (dom w')))
     ∧ filteredQuestions (app w') ≡ₚ select pool (shown (dom w'))
     ∧ ((startPracticeSession now w).1 = NoQuestionsFound
        ↔ select pool (shown (dom w')) = []))
  ∧ (∀ (now : Z) (w : World),
       loaded w = true →
       let pool := questions (app w) in
       let w' := (resolveFilters w).2 in
       let r := resolve pool (offered (dom w)) (shown (dom w)) in
       filteredQuestions (app w') ≡ₚ select pool r
       ∧ (resolveFilters w).1 = length (select pool r)
       ∧ levelChecked (dom w') = selectedLevel r
       ∧ selectedSubjects (shown (dom w'))
         = List.filter (hasQuestions pool) (selectedSubjects r)
       ∧ (select pool r = [] ↔ pool = [])
       ∧ ((startPracticeSession now w).1 = NoQuestionsFound ↔ pool = [])).
Proof.
  split.
  - intros now w pool w'.
    destruct (resolveFilters_attempts w) as (Hd & Hc & Hp & _).
    cbv zeta in Hd, Hc, Hp. fold pool w' in Hd, Hc, Hp.
    do 3 (split; [done|]).
    rewrite startPracticeSession_outcome, Hc. apply length_zero_iff_nil.
  - intros now w Hl pool w' r.
    destruct (resolveFilters_attempts w) as (Hd & Hc & Hp & _).
    cbv zeta in Hd, Hc, Hp. fold pool w' in Hd, Hc, Hp.
    destruct (attempts_resolve pool (dom w) Hl) as (Hsel & Hlev & Hsub).
    pose proof (attempts_find pool (dom w) Hl) as Hzero.
    fold r in Hsel, Hlev, Hsub.
    rewrite <- Hd in Hsel, Hlev, Hsub, Hzero.
    rewrite Hsel in Hc, Hp, Hzero.
    do 4 (split; [done|]). split; [exact Hzero|].
    rewrite startPracticeSession_outcome, Hc, <- Hzero.
    apply length_zero_iff_nil.
Qed.

(** With no subject selected and the level on Varsity, of which the bank
    has no question, fallback (1) and then fallback (2) are taken: both
    questions are selected; the design selects the three subjects, the
    engine the two that have a question.  With one subject selected,
    fallback (2) alone changes the selection.  With a document that has not
    followed the bank, the third retry is the one that finds a question. *)
Lemma filter_resolution_escalates_witness :
  let w := withDom clearAllSubjects sampleWorld in
  let w' := (resolveFilters w).2 in
  let w1 := (resolveFilters sampleWorld).2 in
  let w2 := (resolveFilters staleWorld).2 in
  loaded w = true
  ∧ resolve [biology; history] (offered (dom w)) (shown (dom w))
    = {| selectedSubjects :=
           ["Science>Biological Science"; "Humanities>European History";
            "Math>Calculus"];
         selectedLevel := "" |}
  ∧ filteredQuestions (app w') ≡ₚ [biology; history]
  ∧ (resolveFilters w).1 = 2
  ∧ levelChecked (dom w') = ""
  ∧ selectedSubjects (shown (dom w'))
    = ["Science>Biological Science"; "Humanities>European History"]
  ∧ (startPracticeSession 1000 w).1 ≠ NoQuestionsFound
  ∧ loaded sampleWorld = true
  ∧ filteredQuestions (app w1) ≡ₚ [biology]
  ∧ selectedSubjects (shown (dom w1)) = ["Science>Biological Science"]
  ∧ levelChecked (dom w1) = ""
  ∧ loaded staleWorld = false
  ∧ shown (dom w2)
    = {| selectedSubjects := ["Science>Biological Science"; "Math>Calculus"];
         selectedLevel := "" |}
  ∧ filteredQuestions (app w2) ≡ₚ [biology]
  ∧ (resolveFilters staleWorld).1 = 1.
Proof.
  intros w w' w1 w2.
  pose proof (proj2 filter_resolution_escalates 1000%Z w eq_refl)
    as (Hp & Hc & Hl & Hs & _ & Hn).
  pose proof (proj2 filter_resolution_escalates 1000%Z sampleWorld eq_refl)
    as (Hp1 & _ & Hl1 & Hs1 & _).
  pose proof (proj1 filter_resolution_escalates 1000%Z staleWorld)
    as (Hd2 & Hc2 & Hp2 & _).
  cbv zeta in Hd2, Hc2, Hp2. fold w2 in Hd2, Hc2, Hp2.
  split; [reflexivity|]. split; [reflexivity|].
  split; [exact Hp|]. split; [exact Hc|]. split; [exact Hl|].
  split; [exact Hs|].
  split; [intros Hnone; by apply Hn in Hnone|].
  split; [reflexivity|]. split; [exact Hp1|]. split; [exact Hs1|].
  split; [exact Hl1|]. split; [reflexivity|].
  rewrite Hd2 in Hc2, Hp2 |- *.
  split; [reflexivity|]. split; [exact Hp2 | exact Hc2].
Defined.

End ResolutionFacts.

(** ** The export rows *)

Module CsvFacts.
Import JsString Session Csv.

(** C10.  [prepareSessionResultsForCsv] returns one row per question of the
    working set, in its order, every row with the one export time stamp and
    the allocation; a row whose index has no answer record has the empty
    answer, [Incorrect] and zero elapsed seconds; a row whose index has one
    carries its answer text, its result and its elapsed seconds. *)
Theorem prepareSessionResultsForCsv_rows
        (questions : list Parser.Question)
        (userAnswers : list (option AnswerRecord))
        (timeAllocated : Z) (timestamp : string) :
  let rows :=
    prepareSessionResultsForCsv questions userAnswers timeAllocated timestamp in
  length rows = length questions
  ∧ ∀ index q, questions !! index = Some q →
      ∃ row, rows !! index = Some row
        ∧ questionId row = Parser.id q
        ∧ category row = Parser.category q
        ∧ subjectSpecific row = Parser.subjectSpecific q
        ∧ level row = Parser.level q
        ∧ question row = Parser.question q
        ∧ author row = Parser.author q
        ∧ timeAllocatedSec row = timeAllocated
        ∧ Csv.timestamp row = timestamp
        ∧ match array_get userAnswers index with
          | None =>
              userAnswer row = ""
              ∧ correctness row = Incorrect
              ∧ timeElapsedSec row = 0%Z
          | Some a =>
              userAnswer row = answer a
              ∧ correctness row = Session.correctness a
              ∧ timeElapsedSec row = timeElapsed a
          end.
Proof.
  intros rows. subst rows. unfold prepareSessionResultsForCsv. split.
  - apply length_imap.
  - intros index q Hq. rewrite list_lookup_imap, Hq. cbn.
    eexists. split; [reflexivity|]. cbn.
    repeat apply conj; try done.
    destruct (array_get userAnswers index) as [a|]; cbn; [|done].
    repeat apply conj; try done.
    + unfold orString. by destruct (answer a).
    + unfold orNumber. destruct (Z.eqb_spec (timeElapsed a) 0); congruence.
Qed.

End CsvFacts.

(** ** The id of a record *)

Module IdFacts.
Import JsString Parser Base36.
Local Open Scope Z_scope.

Lemma toInt32_range (z : Z) : - 2 ^ 31 ≤ toInt32 z < 2 ^ 31.
Proof.
  unfold toInt32. pose proof (Z.mod_pos_bound (z + 2 ^ 31) (2 ^ 32)). lia.
Qed.

Lemma toInt32_mod (z : Z) : toInt32 z mod 2 ^ 32 = z mod 2 ^ 32.
Proof.
  unfold toInt32.
  rewrite Zminus_mod, Zmod_mod, <- Zminus_mod.
  f_equal. lia.
Qed.

Lemma toInt32_congruent (x y : Z) :
  x mod 2 ^ 32 = y mod 2 ^ 32 → toInt32 x = toInt32 y.
Proof.
  intros H. unfold toInt32.
  rewrite (Zplus_mod x), (Zplus_mod y), H. reflexivity.
Qed.

(** One round of the hash is [31 * hash + char], wrapped to 32 bits. *)
Lemma hash_step_linear (hash : Z) (c : ascii) :
  hash_step hash c = toInt32 (31 * hash + Z.of_nat (nat_of_ascii c)).
Proof.
  unfold hash_step. apply toInt32_congruent.
  rewrite Zplus_mod, Zminus_mod, toInt32_mod, <- Zminus_mod, <- Zplus_mod.
  f_equal. lia.
Qed.

Lemma hash_loop_app (a b : string) :
  ∀ hash, hash_loop hash (a +:+ b) = hash_loop (hash_loop hash a) b.
Proof.
  induction a as [|c a IH]; intros hash; [reflexivity|].
  rewrite JsStringFacts.sapp_cons. cbn [hash_loop]. apply IH.
Qed.

Lemma hash_loop_range (content : string) :
  ∀ hash, - 2 ^ 31 ≤ hash < 2 ^ 31 →
          - 2 ^ 31 ≤ hash_loop hash content < 2 ^ 31.
Proof.
  induction content as [|c rest IH]; intros hash H; [exact H|].
  cbn [hash_loop]. apply IH. apply toInt32_range.
Qed.

Lemma digit36_digit (d : Z) :
  0 ≤ d < 36 →
  isBase36Digit (digit36 d) = true ∧ digitValue36 (digit36 d) = d.
Proof.
  intros H.
  assert (Hn : d = Z.of_nat (Z.to_nat d)) by lia.
  assert (Hlt : (Z.to_nat d < 36)%nat) by lia.
  revert Hn Hlt. generalize (Z.to_nat d). intros n -> Hlt.
  do 36 (destruct n as [|n]; [split; vm_compute; reflexivity|]).
  lia.
Qed.

Lemma fromBase36_acc (s : string) :
  ∀ acc, fromBase36 acc s
         = acc * 36 ^ Z.of_nat (String.length s) + fromBase36 0 s.
Proof.
  induction s as [|c s IH]; intros acc.
  - cbn. lia.
  - cbn [fromBase36 String.length]. rewrite IH, (IH (0 * 36 + _)).
    rewrite Nat2Z.inj_succ, Z.pow_succ_r by lia. lia.
Qed.

(** With fuel for every digit, [toBase36] writes the number in front of
    [acc]. *)
Lemma toBase36_value (fuel : nat) :
  ∀ n acc,
    0 ≤ n < 36 ^ Z.of_nat fuel →
    fromBase36 0 (toBase36 fuel n acc)
    = n * 36 ^ Z.of_nat (String.length acc) + fromBase36 0 acc.
Proof.
  induction fuel as [|fuel IH]; intros n acc H.
  - cbn in H. assert (n = 0) by lia. subst n. cbn [toBase36]. lia.
  - cbn [toBase36].
    pose proof (Z.mod_pos_bound n 36 ltac:(lia)) as Hm.
    pose proof (Z.div_mod n 36 ltac:(lia)) as Hd.
    destruct (digit36_digit (n mod 36) Hm) as [_ Hv].
    assert (Hs : fromBase36 0 (String (digit36 (n mod 36)) acc)
                 = (n mod 36) * 36 ^ Z.of_nat (String.length acc)
                   + fromBase36 0 acc).
    { cbn [fromBase36]. rewrite fromBase36_acc, Hv. lia. }
    destruct (Z.eqb_spec (n / 36) 0) as [H0|H0].
    + rewrite Hs. replace (n mod 36) with n by lia. reflexivity.
    + rewrite IH.
      * rewrite Hs. cbn [String.length].
        rewrite Nat2Z.inj_succ, Z.pow_succ_r by lia. lia.
      * rewrite Nat2Z.inj_succ, Z.pow_succ_r in H by lia.
        split; [apply Z.div_pos; lia|].
        apply Z.div_lt_upper_bound; lia.
Qed.

Lemma toBase36_digits (fuel : nat) :
  ∀ n acc,
    0 ≤ n → all isBase36Digit acc = true →
    all isBase36Digit (toBase36 fuel n acc) = true.
Proof.
  induction fuel as [|fuel IH]; intros n acc Hn Hacc; [exact Hacc|].
  cbn [toBase36].
  pose proof (Z.mod_pos_bound n 36 ltac:(lia)) as Hm.
  destruct (digit36_digit (n mod 36) Hm) as [Hd _].
  assert (all isBase36Digit (String (digit36 (n mod 36)) acc) = true)
    by (cbn [all]; rewrite Hd, Hacc; reflexivity).
  destruct (n / 36 =? 0); [assumption|].
  apply IH; [apply Z.div_pos; lia | assumption].
Qed.

Lemma toBase36_length (fuel : nat) :
  ∀ (k : nat) n acc,
    (1 ≤ k ≤ fuel)%nat → 0 ≤ n < 36 ^ Z.of_nat k →
    (S (String.length acc) ≤ String.length (toBase36 fuel n acc)
     ≤ k + String.length acc)%nat.
Proof.
  induction fuel as [|fuel IH]; intros k n acc Hk Hn; [lia|].
  cbn [toBase36].
  destruct (Z.eqb_spec (n / 36) 0) as [H0|H0]; [cbn [String.length]; lia|].
  destruct k as [|k]; [lia|].
  rewrite Nat2Z.inj_succ, Z.pow_succ_r in Hn by lia.
  destruct k as [|k].
  { exfalso. apply H0. apply Z.div_small. cbn in Hn. lia. }
  assert (Hq : 0 ≤ n / 36 < 36 ^ Z.of_nat (S k)).
  { split; [apply Z.div_pos; lia | apply Z.div_lt_upper_bound; lia]. }
  pose proof (IH (S k) (n / 36) (String (digit36 (n mod 36)) acc)
                ltac:(lia) Hq) as H.
  cbn [String.length] in H. lia.
Qed.

(** X1.  The hash that [generateId] computes is a 32-bit signed integer,
    and the id is its absolute value written in base 36: one to six
    characters, each a digit or a lower-case letter, and reading the id as a
    base-36 number gives the absolute value of the hash back. *)
Theorem generateId_renders_hash (content : string) :
  let hash := hash_loop 0 content in
  - 2 ^ 31 ≤ hash < 2 ^ 31
  ∧ (1 ≤ String.length (generateId content) ≤ 6)%nat
  ∧ all isBase36Digit (generateId content) = true
  ∧ fromBase36 0 (generateId content) = Z.abs hash.
Proof.
  intros hash.
  assert (Hr : - 2 ^ 31 ≤ hash < 2 ^ 31) by (apply hash_loop_range; lia).
  split; [exact Hr|]. unfold generateId. fold hash.
  split; [|split].
  - pose proof (toBase36_length 7 6 (Z.abs hash) "" ltac:(lia)) as H.
    cbn [String.length] in H. rewrite Nat.add_0_r in H.
    apply H. change (36 ^ Z.of_nat 6) with 2176782336. lia.
  - apply toBase36_digits; [lia | reflexivity].
  - rewrite toBase36_value; [cbn; lia|].
    change (36 ^ Z.of_nat 7) with 78364164096. lia.
Qed.

(** X2.  Ids are not unique: two contents that differ only in that one has
    the letters A, a where the other has B, B get the same id, whatever
    stands before and after them. *)
Theorem generateId_collides (before after : string) :
  generateId (before +:+ "Aa" +:+ after) = generateId (before +:+ "BB" +:+ after).
Proof.
  unfold generateId. do 2 f_equal.
  rewrite !hash_loop_app. f_equal.
  generalize (hash_loop 0 before). intros hash.
  cbn [hash_loop]. rewrite !hash_step_linear.
  apply toInt32_congruent.
  rewrite (Zplus_mod (31 * toInt32 _)),
    (Zplus_mod (31 * toInt32 (_ + Z.of_nat (nat_of_ascii "B")))).
  rewrite (Zmult_mod 31 (toInt32 _)),
    (Zmult_mod 31 (toInt32 (_ + Z.of_nat (nat_of_ascii "B")))).
  rewrite !toInt32_mod.
  rewrite <- !Zmult_mod, <- !Zplus_mod.
  f_equal.
  change (Z.of_nat (nat_of_ascii "A")) with 65.
  change (Z.of_nat (nat_of_ascii "a")) with 97.
  change (Z.of_nat (nat_of_ascii "B")) with 66. lia.
Qed.

End IdFacts.

(** ** Lines written and read back *)

Module BankFacts.
Import JsString JsStringFacts Parser ParserFacts BankWriter SplitterFacts.

Lemma fields_of_plain (line : string) :
  occurs backslash line = false → fields_of line = split semicolon line.
Proof.
  induction line as [|c rest IH]; [done|].
  cbn [occurs]. intros [Hc Hrest]%orb_false_iff.
  specialize (IH Hrest).
  assert (Hstep : fields_of (String c rest)
                  = if Ascii.eqb c semicolon then "" :: fields_of rest
                    else extend c (fields_of rest)).
  { destruct rest as [|d rest2]; [done|].
    cbn [fields_of]. by rewrite Hc. }
  rewrite Hstep, IH. cbn [split].
  destruct (Ascii.eqb c semicolon); [done|].
  by destruct (split semicolon rest).
Qed.

(** X3.  On a line without a backslash the field splitter is the plain
    [line.split(';')]: every semicolon separates, and empty fields, also at
    either end, are kept. *)
Theorem splitOnUnescapedSemicolons_plain (line : string) :
  occurs backslash line = false →
  splitOnUnescapedSemicolons line = split semicolon line.
Proof.
  intros H. rewrite splitOnUnescapedSemicolons_fields_of.
  by apply fields_of_plain.
Qed.

Lemma splitOnUnescapedSemicolons_plain_witness :
  splitOnUnescapedSemicolons "a;;b;" = split semicolon "a;;b;".
Proof. apply splitOnUnescapedSemicolons_plain. reflexivity. Defined.

(** An escaped field in front of any text is read as the field, continued
    by the first field of that text. *)
Lemma fields_of_escapeField (field rest : string) :
  fields_of (escapeField field +:+ rest) = resume field (fields_of rest).
Proof.
  induction field as [|c field IH].
  - rewrite sapp_nil_l. destruct (fields_of_cons rest) as (f & fs & ->).
    cbn. by rewrite sapp_nil_l.
  - cbn [escapeField].
    assert (Hext : extend c (resume field (fields_of rest))
                   = resume (String c field) (fields_of rest)).
    { destruct (fields_of_cons rest) as (f & fs & ->). done. }
    destruct (Ascii.eqb_spec c semicolon) as [->|Hs];
      [|destruct (Ascii.eqb_spec c backslash) as [->|Hb]]; cbn [orb].
    + rewrite !sapp_cons. cbn [fields_of].
      change (Ascii.eqb backslash backslash && Ascii.eqb semicolon semicolon)
        with true. cbn iota. by rewrite IH.
    + rewrite !sapp_cons. cbn [fields_of].
      change (Ascii.eqb backslash backslash && Ascii.eqb backslash semicolon)
        with false.
      change (Ascii.eqb backslash backslash && Ascii.eqb backslash backslash)
        with true. cbn iota. by rewrite IH.
    + rewrite sapp_cons.
      apply Ascii.eqb_neq in Hs, Hb.
      assert (Hstep : ∀ s, fields_of (String c s) = extend c (fields_of s)).
      { intros [|d s]; cbn [fields_of]; by rewrite ?Hs, ?Hb. }
      by rewrite Hstep, IH.
Qed.

Lemma writeLine_cons (field next : string) (fields : list string) :
  writeLine (field :: next :: fields)
  = escapeField field +:+ ";" +:+ writeLine (next :: fields).
Proof. reflexivity. Qed.

Lemma fields_of_writeLine (field : string) (fields : list string) :
  fields_of (writeLine (field :: fields)) = field :: fields.
Proof.
  revert field. induction fields as [|g fields IH]; intros field.
  - change (writeLine [field]) with (escapeField field).
    rewrite <- (sapp_nil_r (escapeField field)), fields_of_escapeField.
    cbn. by rewrite sapp_nil_r.
  - rewrite writeLine_cons, fields_of_escapeField.
    assert (Hsep : ∀ s, fields_of (";" +:+ s) = "" :: fields_of s).
    { intros [|d s]; done. }
    rewrite Hsep, IH. cbn. by rewrite sapp_nil_r.
Qed.

(** X4.  The two escapes are enough to write any fields: when every
    semicolon and every backslash of each field is written with a backslash
    before it and the fields are joined with semicolons, the splitter gives
    back exactly these fields, whatever characters they hold. *)
Theorem splitOnUnescapedSemicolons_writeLine (fields : list string) :
  fields ≠ [] → splitOnUnescapedSemicolons (writeLine fields) = fields.
Proof.
  destruct fields as [|field fields]; [done|]. intros _.
  rewrite splitOnUnescapedSemicolons_fields_of. apply fields_of_writeLine.
Qed.

Lemma splitOnUnescapedSemicolons_writeLine_witness :
  writeLine ["a;b"; "c\d"; ""] = "a\;b;c\\d;"
  ∧ splitOnUnescapedSemicolons "a\;b;c\\d;" = ["a;b"; "c\d"; ""].
Proof.
  split; [reflexivity|].
  exact (splitOnUnescapedSemicolons_writeLine ["a;b"; "c\d"; ""] ltac:(done)).
Defined.

Lemma all_app (p : ascii → bool) (a b : string) :
  all p (a +:+ b) = all p a && all p b.
Proof.
  induction a as [|c a IH]; [done|]. rewrite sapp_cons. cbn [all].
  by rewrite IH, andb_assoc.
Qed.

Lemma all_escapeField (field : string) :
  all isWhiteSpace (escapeField field) = all isWhiteSpace field.
Proof.
  induction field as [|c field IH]; [done|]. cbn [escapeField].
  destruct (Ascii.eqb_spec c semicolon) as [->|Hs]; [by cbn|].
  destruct (Ascii.eqb_spec c backslash) as [->|Hb]; [by cbn|].
  cbn [orb all]. by rewrite IH.
Qed.

Lemma writeLine_not_blank (field : string) (fields : list string) :
  isBlank field = false → isBlank (writeLine (field :: fields)) = false.
Proof.
  unfold isBlank. rewrite !trim_empty_white_space. intros H.
  destruct fields as [|next fields].
  - change (writeLine [field]) with (escapeField field).
    by rewrite all_escapeField.
  - rewrite writeLine_cons, all_app, all_escapeField, H. done.
Qed.

End BankFacts.

(** ** The records and the errors of a bank *)

Module RecordFacts.
Import JsString JsStringFacts Parser ParserFacts BankWriter BankFacts SplitterFacts.

Lemma validLevel_trimmed (level : string) :
  isValidLevel level = true → level ∈ validLevels ∧ trim level = level.
Proof.
  unfold isValidLevel, validLevels. cbn [existsb]. intros H.
  repeat (apply orb_true_iff in H as [H|H];
          [apply String.eqb_eq in H as ->; split; [set_solver | reflexivity]|]).
  done.
Qed.

Lemma nonEmptyStrings_trimmed (values : list JsValue) :
  forallb isNonEmptyString values = true →
  Forall (λ a, isEmpty a = false ∧ trim a = a) (List.map trimAnswer values).
Proof.
  induction values as [|v values IH]; cbn [forallb List.map]; [constructor|].
  intros [Hv Hrest]%andb_true_iff. constructor; [|by apply IH].
  destruct v; try done. cbn in *.
  split; [by apply negb_true_iff | apply trim_idempotent].
Qed.

Section WithJson.
Variable JSON_parse : string → Completion JsValue.

(** X5.  The checks of [parseQuestionLine] are all there is to a valid
    line: five fields of which the category, the question and the author
    are not blank, the answers parse to a non-empty array of non-empty
    strings and the level is one of the three, written with the escapes of
    the format, parse to the record of these fields, trimmed, with the id of
    the category, question, level and author as they stand in the line. *)
Theorem parseQuestionLine_writeLine
        (category question answersJson level author filename : string)
        (lineNumber : nat) (first : JsValue) (others : list JsValue) :
  isBlank category = false →
  isBlank question = false →
  JSON_parse answersJson = Normal (JArray (first :: others)) →
  forallb isNonEmptyString (first :: others) = true →
  isValidLevel level = true →
  isBlank author = false →
  parseQuestionLine JSON_parse
    (writeLine [category; question; answersJson; level; author])
    filename lineNumber
  = Parsed {| id := generateId (category +:+ question +:+ level +:+ author);
              Parser.category := trim category;
              subjectBroad := trim (broadPart category);
              subjectSpecific := trim (specificPart category);
              Parser.question := trim question;
              answers := List.map trimAnswer (first :: others);
              Parser.level := trim level;
              Parser.author := trim author |}.
Proof.
  unfold isBlank. intros Hc Hq Hj Ha Hl Hau.
  unfold parseQuestionLine, parseQuestionLine_try.
  pose proof (writeLine_not_blank category [question; answersJson; level; author] Hc)
    as Hline.
  unfold isBlank in Hline. rewrite Hline.
  rewrite splitOnUnescapedSemicolons_fields_of, fields_of_writeLine.
  by rewrite Hc, Hq, Hj, Ha, Hl, Hau.
Qed.

Lemma bank_question_origin (content filename : string) (q : Question) :
  q ∈ questions (parseQuestionBank JSON_parse content filename) →
  ∃ line n, parseQuestionLine JSON_parse line filename n = Parsed q.
Proof.
  unfold parseQuestionBank. rewrite forEach_line_spec. cbn.
  intros (r & Hr & Hq)%list_elem_of_omap.
  destruct r as [|q'|]; try done. cbn in Hq. injection Hq as ->.
  apply list_elem_of_lookup in Hr as [i Hr].
  rewrite list_lookup_imap in Hr.
  destruct (split newline content !! i) as [l|]; [|done].
  cbn in Hr. injection Hr as Hr. eauto.
Qed.

(** X6.  Every record in the [questions] of a parsed bank is valid: its
    category, question and author are not empty and carry no white space at
    either end, it has at least one answer and each answer is a non-empty
    trimmed string, and its level is one of the three levels.  This holds
    whatever [JSON.parse] returns. *)
Theorem bank_records_are_valid (content filename : string) (q : Question) :
  q ∈ questions (parseQuestionBank JSON_parse content filename) →
  (isEmpty (category q) = false ∧ trim (category q) = category q)
  ∧ (isEmpty (question q) = false ∧ trim (question q) = question q)
  ∧ (answers q ≠ []
     ∧ Forall (λ a, isEmpty a = false ∧ trim a = a) (answers q))
  ∧ level q ∈ validLevels
  ∧ (isEmpty (author q) = false ∧ trim (author q) = author q).
Proof.
  intros (line & n & Hline)%bank_question_origin.
  unfold parseQuestionLine in Hline.
  destruct (parseQuestionLine_try JSON_parse line) as [[q'|]|] eqn:Htry;
    try done.
  injection Hline as ->.
  apply parseQuestionLine_try_question in Htry
    as (c & qu & a & l & au & first & others & _ & _ & Hc & Hq & _ & Ha
        & Hl & Hau & ->).
  apply validLevel_trimmed in Hl as [Hl Hlt].
  cbn [category question answers level author].
  rewrite !trim_idempotent, Hlt.
  repeat apply conj; try done.
  by apply nonEmptyStrings_trimmed.
Qed.

End WithJson.

Lemma parseQuestionLine_writeLine_witness :
  parseQuestionLine Json.parse
    (writeLine ["Math; Logic"; "2 \ 1?"; "[" +:+ quoted "2" +:+ "]"; "Varsity"; "NCAL"])
    "bank.txt" 7
  = Parsed {| id := generateId ("Math; Logic" +:+ "2 \ 1?" +:+ "Varsity" +:+ "NCAL");
              category := "Math; Logic"; subjectBroad := "Math; Logic";
              subjectSpecific := "Math; Logic"; question := "2 \ 1?";
              answers := ["2"]; level := "Varsity"; author := "NCAL" |}.
Proof.
  exact (parseQuestionLine_writeLine Json.parse "Math; Logic" "2 \ 1?"
           ("[" +:+ quoted "2" +:+ "]") "Varsity" "NCAL" "bank.txt" 7
           (JString "2") [] eq_refl eq_refl eq_refl eq_refl eq_refl eq_refl).
Defined.

Lemma bank_records_are_valid_witness :
  level {| id := "mkzjyp"; category := "Cat"; subjectBroad := "Cat";
           subjectSpecific := "Cat"; question := "Q"; answers := ["A"];
           level := "Freshman"; author := "Auth" |} ∈ validLevels.
Proof.
  refine (proj1 (proj2 (proj2 (proj2
            (bank_records_are_valid Json.parse
               ("Cat;Q;[" +:+ quoted "A" +:+ "];Freshman;Auth") "bank.txt"
               _ _))))).
  vm_compute. constructor.
Defined.

End RecordFacts.

Module ErrorFacts.
Import JsString JsStringFacts Parser ParserFacts.

Section WithJson.
Variable JSON_parse : string → Completion JsValue.

(** The errors of the lines from [index] on: each belongs to one of these
    lines, and they come in the order of the lines. *)
Lemma errors_from (filename : string) (lines : list string) :
  ∀ index,
    let es := omap malformedOf
                (imap (λ i l, parseQuestionLine JSON_parse l filename (index + i + 1))
                      lines) in
    Forall (λ e, Parser.filename e = filename
                 ∧ index < line e ≤ index + length lines
                 ∧ lines !! (line e - index - 1) = Some (rawLine e)
                 ∧ isBlank (rawLine e) = false) es
    ∧ StronglySorted (λ e1 e2, line e1 < line e2) es.
Proof.
  induction lines as [|l lines IH]; intros index; cbn zeta.
  - split; constructor.
  - rewrite imap_cons.
    rewrite (imap_ext _
      (λ i l, parseQuestionLine JSON_parse l filename (S index + i + 1)))
      by (intros; simpl; f_equal; lia).
    destruct (IH (S index)) as [Hall Hsorted]. cbn zeta in Hall, Hsorted.
    assert (Hweak :
      Forall (λ e, Parser.filename e = filename
                   ∧ index < line e ≤ index + length (l :: lines)
                   ∧ (l :: lines) !! (line e - index - 1) = Some (rawLine e)
                   ∧ isBlank (rawLine e) = false)
             (omap malformedOf
                (imap (λ i l, parseQuestionLine JSON_parse l filename
                                (S index + i + 1)) lines))).
    { eapply Forall_impl; [exact Hall|]. cbn [length].
      intros e (Hf & Hr & Hl & Hb). repeat apply conj; try done; try lia.
      replace (line e - index - 1) with (S (line e - S index - 1)) by lia.
      exact Hl. }
    destruct (isBlank l) eqn:Hblank.
    + rewrite parseQuestionLine_blank by done.
      cbn [omap list_omap malformedOf]. by split.
    + destruct (parseQuestionLine_nonblank JSON_parse l filename (index + 0 + 1) Hblank)
        as [[q ->]|[reason ->]]; cbn [omap list_omap malformedOf]; [by split|].
      split.
      * constructor; [|exact Hweak]. cbn [Parser.filename line rawLine length].
        repeat apply conj; try done; try lia.
        by replace (index + 0 + 1 - index - 1) with 0 by lia.
      * constructor; [exact Hsorted|].
        eapply Forall_impl; [exact Hall|]. cbn [line].
        intros e (_ & Hr & _). lia.
Qed.

(** X7.  Every error in the [errors] of a parsed bank points at its line:
    it carries the file name given, a line number between 1 and
    [totalLines], and as [rawLine] the text of exactly that line of the
    content, which is not blank; and the errors stand in strictly increasing
    order of their line numbers, so no line is reported twice. *)
Theorem bank_errors_locate_lines (content filename : string) :
  let lines := split newline content in
  let bank := parseQuestionBank JSON_parse content filename in
  Forall (λ e, Parser.filename e = filename
               ∧ 1 ≤ line e ≤ totalLines bank
               ∧ lines !! (line e - 1) = Some (rawLine e)
               ∧ isBlank (rawLine e) = false)
         (errors bank)
  ∧ StronglySorted (λ e1 e2, line e1 < line e2) (errors bank).
Proof.
  intros lines bank. subst bank. unfold parseQuestionBank.
  rewrite forEach_line_spec. cbn [errors totalLines app].
  destruct (errors_from filename lines 0) as [Hall Hsorted].
  cbn zeta in Hall, Hsorted. split; [|exact Hsorted].
  eapply Forall_impl; [exact Hall|].
  intros e (Hf & Hr & Hl & Hb). fold lines.
  repeat apply conj; try done; try lia.
  by replace (line e - 1) with (line e - 0 - 1) by lia.
Qed.

End WithJson.

End ErrorFacts.

(** ** What the matcher ignores *)

Module MatchingFacts.
Import JsString JsStringFacts Normalize NormalizeFacts.

Lemma isWhiteSpace_toUpperChar (c : ascii) :
  isWhiteSpace (toUpperChar c) = isWhiteSpace c.
Proof. by destruct c as [[] [] [] [] [] [] [] []]. Qed.

Lemma isEmpty_map (f : ascii → ascii) (s : string) :
  isEmpty (map f s) = isEmpty s.
Proof. by destruct s. Qed.

Lemma trimStart_map (f : ascii → ascii) (s : string) :
  (∀ c, isWhiteSpace (f c) = isWhiteSpace c) →
  trimStart (map f s) = map f (trimStart s).
Proof.
  intros Hf. induction s as [|c s IH]; [done|].
  cbn [map trimStart]. rewrite Hf. by destruct (isWhiteSpace c).
Qed.

Lemma trimEnd_map (f : ascii → ascii) (s : string) :
  (∀ c, isWhiteSpace (f c) = isWhiteSpace c) →
  trimEnd (map f s) = map f (trimEnd s).
Proof.
  intros Hf. induction s as [|c s IH]; [done|].
  cbn [map trimEnd]. rewrite Hf, IH, isEmpty_map.
  by destruct (isWhiteSpace c && isEmpty (trimEnd s)).
Qed.

Lemma trim_toUpperCase (s : string) :
  trim (toUpperCase s) = toUpperCase (trim s).
Proof.
  unfold trim, toUpperCase.
  rewrite trimStart_map, trimEnd_map by apply isWhiteSpace_toUpperChar.
  reflexivity.
Qed.

Lemma string_map_map (f g : ascii → ascii) (s : string) :
  map f (map g s) = map (λ c, f (g c)) s.
Proof. induction s as [|c s IH]; [done|]. cbn [map]. by rewrite IH. Qed.

Lemma string_map_ext (f g : ascii → ascii) (s : string) :
  (∀ c, f c = g c) → map f s = map g s.
Proof.
  intros H. induction s as [|c s IH]; [done|]. cbn [map]. by rewrite H, IH.
Qed.

Lemma hyphens_toUpperCase (s : string) :
  replaceAllChar hyphen space (toUpperCase s)
  = toUpperCase (replaceAllChar hyphen space s).
Proof.
  unfold replaceAllChar, toUpperCase. rewrite !string_map_map.
  apply string_map_ext. by intros [[] [] [] [] [] [] [] []].
Qed.

(** X8.  The matcher ignores letter case: two texts with the same upper
    case form have the same normal form, so each answers a question exactly
    when the other does. *)
Theorem normalize_ignores_case (s t : string) :
  toUpperCase s = toUpperCase t →
  normalize s = normalize t
  ∧ ∀ answersArray, isCorrect s answersArray = isCorrect t answersArray.
Proof.
  intros H.
  assert (Hn : normalize s = normalize t).
  { unfold normalize. by rewrite <- !trim_toUpperCase, H. }
  split; [exact Hn|]. intros answersArray. unfold isCorrect. by rewrite Hn.
Qed.

Lemma normalize_ignores_case_witness :
  normalize "Mitochondria" = normalize "mITOCHONDRIA".
Proof.
  exact (proj1 (normalize_ignores_case "Mitochondria" "mITOCHONDRIA" eq_refl)).
Defined.

(** X9.  The matcher reads a hyphen as a space: two texts that, once
    trimmed, differ only in having hyphens where the other has spaces have
    the same normal form. *)
Theorem normalize_reads_hyphen_as_space (s t : string) :
  replaceAllChar hyphen space (trim s) = replaceAllChar hyphen space (trim t) →
  normalize s = normalize t.
Proof.
  intros H. unfold normalize. by rewrite !hyphens_toUpperCase, H.
Qed.

Lemma normalize_reads_hyphen_as_space_witness :
  normalize "well-known fact" = normalize "well known-fact".
Proof. apply normalize_reads_hyphen_as_space. reflexivity. Defined.

(** X10.  An answer of the list is always accepted, in any letter case and
    with any white space around it: an input whose trimmed upper case form
    is that of a listed answer is correct. *)
Theorem isCorrect_accepts_listed_answer
        (userInput answer : string) (answersArray : list string) :
  answer ∈ answersArray →
  toUpperCase (trim userInput) = toUpperCase (trim answer) →
  isCorrect userInput answersArray = true.
Proof.
  intros Hin H. unfold isCorrect. apply existsb_exists.
  exists answer. split; [by apply list_elem_of_In|].
  apply String.eqb_eq. unfold normalize. by rewrite H.
Qed.

Lemma isCorrect_accepts_listed_answer_witness :
  isCorrect "  moscow " ["Moskva"; "Moscow"] = true.
Proof.
  apply (isCorrect_accepts_listed_answer _ "Moscow"); [|reflexivity].
  apply list_elem_of_further, list_elem_of_here.
Defined.

(** What is true of every character of a text stays true through the steps
    of [normalize] that drop or replace characters. *)
Lemma all_trimStart (p : ascii → bool) (s : string) :
  all p s = true → all p (trimStart s) = true.
Proof.
  induction s as [|c s IH]; [done|]. cbn [trimStart].
  destruct (isWhiteSpace c); [|done].
  cbn [all]. intros [_ Hs]%andb_true_iff. by apply IH.
Qed.

Lemma all_trimEnd (p : ascii → bool) (s : string) :
  all p s = true → all p (trimEnd s) = true.
Proof.
  induction s as [|c s IH]; [done|]. cbn [trimEnd all].
  intros [Hc Hs]%andb_true_iff.
  destruct (isWhiteSpace c && isEmpty (trimEnd s)); [done|].
  cbn [all]. by rewrite Hc, IH.
Qed.

Lemma all_map (p : ascii → bool) (f : ascii → ascii) (s : string) :
  (∀ c, p c = true → p (f c) = true) →
  all p s = true → all p (map f s) = true.
Proof.
  intros Hf. induction s as [|c s IH]; [done|]. cbn [all map].
  intros [Hc Hs]%andb_true_iff. by rewrite (Hf c Hc), IH.
Qed.

Lemma isAscii_toUpperChar (c : ascii) :
  isAscii c = true → isAscii (toUpperChar c) = true.
Proof.
  unfold isAscii, toUpperChar. intros Hc%Nat.ltb_lt.
  destruct ((97 <=? nat_of_ascii c) && (nat_of_ascii c <=? 122)) eqn:Hlow;
    [|by apply Nat.ltb_lt].
  apply Nat.ltb_lt. rewrite nat_ascii_embedding; lia.
Qed.

Lemma all_impl (p q : ascii → bool) (s : string) :
  (∀ c, p c = true → q c = true) → all p s = true → all q s = true.
Proof.
  intros Hpq. induction s as [|c s IH]; [done|]. cbn [all].
  intros [Hc Hs]%andb_true_iff. by rewrite (Hpq c Hc), IH.
Qed.

Lemma isSettled_not_lower (c : ascii) :
  isSettled c = true → negb (isLowerCase c) = true.
Proof.
  unfold isSettled, toUpperChar, isLowerCase.
  intros [Hup _]%andb_true_iff. apply Ascii.eqb_eq in Hup.
  destruct ((97 <=? nat_of_ascii c) && (nat_of_ascii c <=? 122)) eqn:Hlow;
    [exfalso|done].
  apply andb_true_iff in Hlow as [Hlo%Nat.leb_le Hhi%Nat.leb_le].
  apply (f_equal nat_of_ascii) in Hup.
  rewrite nat_ascii_embedding in Hup; lia.
Qed.

(** X11.  The normal form of a text of characters below U+0080 is again
    such a text; it holds no lower-case letter and no hyphen, its only
    white space is single spaces, and it is never longer than the text it
    comes from. *)
Theorem normalize_output_shape (s : string) :
  all isAscii s = true →
  all isAscii (normalize s) = true
  ∧ all (λ c, negb (isLowerCase c)) (normalize s) = true
  ∧ all isSettled (normalize s) = true
  ∧ isCollapsed (normalize s) = true
  ∧ String.length (normalize s) ≤ String.length s.
Proof.
  intros Hascii.
  destruct (normalize_shape s) as [Hs Hc].
  split; [|split; [|split; [exact Hs|split; [exact Hc|]]]].
  2: { revert Hs. apply all_impl, isSettled_not_lower. }
  - unfold normalize.
    destruct (stripArticle_skip
                (collapseWhiteSpace
                   (removePunctuation
                      (replaceAllChar hyphen space (toUpperCase (trim s))))))
      as [k ->].
    apply all_skip, all_collapseWhiteSpace; [done|].
    eapply all_removePunctuation; [done|].
    apply all_map; [intros c Hc'; by destruct (Ascii.eqb c hyphen)|].
    apply all_map; [exact isAscii_toUpperChar|].
    by apply all_trimEnd, all_trimStart.
  - unfold normalize.
    pose proof (proj1 (trim_length s)) as Ha.
    remember (trim s) as a eqn:Ea. clear Ea.
    assert (Hb : String.length (replaceAllChar hyphen space (toUpperCase a))
                 = String.length a)
      by (unfold replaceAllChar, toUpperCase; by rewrite !string_map_length).
    remember (replaceAllChar hyphen space (toUpperCase a)) as b eqn:Eb. clear Eb.
    pose proof (proj1 (removePunctuation_length (String.length b) b ltac:(lia)))
      as Hc'.
    remember (removePunctuation b) as c eqn:Ec. clear Ec.
    pose proof (collapseWhiteSpace_length c) as Hd.
    remember (collapseWhiteSpace c) as d eqn:Ed. clear Ed.
    pose proof (proj1 (stripArticle_length d)). lia.
Qed.

(** An answer between spaces, with an article, a hyphen and a run of two
    spaces. *)
Lemma normalize_output_shape_witness :
  all isAscii "  the well-known  Cat? " = true
  ∧ normalize "  the well-known  Cat? " = "WELL KNOWN CAT?"
  ∧ all isAscii (normalize "  the well-known  Cat? ") = true
  ∧ all (λ c, negb (isLowerCase c)) (normalize "  the well-known  Cat? ") = true
  ∧ all isSettled (normalize "  the well-known  Cat? ") = true
  ∧ isCollapsed (normalize "  the well-known  Cat? ") = true
  ∧ String.length (normalize "  the well-known  Cat? ")
    ≤ String.length "  the well-known  Cat? ".
Proof.
  split; [reflexivity|]. split; [reflexivity|].
  apply normalize_output_shape. reflexivity.
Defined.

End MatchingFacts.

(** ** The score *)

Module ScoringFacts.
Import JsString Session SessionFacts Scoring.

Lemma count_from (acc : Stats) (answer : option AnswerRecord) :
  correct (count acc answer) = correct acc + correct (count none answer)
  ∧ incorrect (count acc answer) = incorrect acc + incorrect (count none answer).
Proof. destruct answer as [[? [] ? ?]|]; cbn; lia. Qed.

Lemma fold_count_from (l : list (option AnswerRecord)) :
  ∀ acc,
    correct (fold_left count l acc)
    = correct acc + correct (fold_left count l none)
    ∧ incorrect (fold_left count l acc)
      = incorrect acc + incorrect (fold_left count l none).
Proof.
  induction l as [|x l IH]; intros acc; [cbn; lia|].
  cbn [fold_left].
  destruct (IH (count acc x)) as [-> ->], (IH (count none x)) as [-> ->].
  destruct (count_from acc x) as [-> ->]. lia.
Qed.

Lemma calculateStats_cons (x : option AnswerRecord) (l : list (option AnswerRecord)) :
  correct (calculateStats (x :: l))
  = correct (count none x) + correct (calculateStats l)
  ∧ incorrect (calculateStats (x :: l))
    = incorrect (count none x) + incorrect (calculateStats l).
Proof.
  unfold calculateStats. cbn [fold_left].
  destruct (fold_count_from l (count none x)) as [-> ->]. done.
Qed.

Lemma calculateStats_app (l1 l2 : list (option AnswerRecord)) :
  correct (calculateStats (l1 ++ l2))
  = correct (calculateStats l1) + correct (calculateStats l2)
  ∧ incorrect (calculateStats (l1 ++ l2))
    = incorrect (calculateStats l1) + incorrect (calculateStats l2).
Proof.
  induction l1 as [|x l1 [IHc IHi]]; [done|].
  rewrite <- app_comm_cons.
  destruct (calculateStats_cons x (l1 ++ l2)) as [-> ->].
  destruct (calculateStats_cons x l1) as [-> ->]. lia.
Qed.

Lemma calculateStats_holes (n : nat) :
  calculateStats (replicate n None) = none.
Proof. induction n as [|n IH]; [done|]. exact IH. Qed.

(** X13.  Writing a record into the answer log changes the score by that
    record alone: the record counts once (as correct when its result is
    Correct, as incorrect when it is Incorrect or Timeout), what the slot
    held before no longer counts, and a slot that was empty counted
    nothing.  So a question answered again is not counted twice. *)
Theorem calculateStats_array_set
        (userAnswers : list (option AnswerRecord)) (i : nat) (r : AnswerRecord) :
  let before := calculateStats userAnswers in
  let after := calculateStats (array_set userAnswers i r) in
  let old := count none (array_get userAnswers i) in
  let new := count none (Some r) in
  correct after + correct old = correct before + correct new
  ∧ incorrect after + incorrect old = incorrect before + incorrect new.
Proof.
  cbv zeta. unfold array_set, array_get.
  destruct (decide (i < length userAnswers)) as [Hi|Hi].
  - destruct (lookup_lt_is_Some_2 userAnswers i Hi) as [x Hx].
    rewrite Hx. cbn [mjoin option_join option_bind].
    pose proof (take_drop_middle userAnswers i x Hx) as Hsplit.
    assert (Hlen : length (take i userAnswers) = i)
      by (rewrite length_take; lia).
    revert Hsplit Hlen.
    generalize (take i userAnswers) (drop (S i) userAnswers).
    intros l1 l2 <- <-.
    rewrite insert_app_r_alt by lia.
    rewrite Nat.sub_diag. cbn [list_insert insert].
    destruct (calculateStats_app l1 (Some r :: l2)) as [-> ->].
    destruct (calculateStats_app l1 (x :: l2)) as [-> ->].
    destruct (calculateStats_cons (Some r) l2) as [-> ->].
    destruct (calculateStats_cons x l2) as [-> ->].
    lia.
  - rewrite lookup_ge_None_2 by lia. cbn [mjoin option_join option_bind].
    destruct (calculateStats_app userAnswers
                (replicate (i - length userAnswers) None ++ [Some r])) as [-> ->].
    destruct (calculateStats_app (replicate (i - length userAnswers) None)
                [Some r]) as [-> ->].
    rewrite calculateStats_holes. cbn. lia.
Qed.

(** X14.  The two counts of [calculateStats] add up to the number of
    records in the log: every record is counted exactly once, the correct
    ones as correct and all others, timeouts too, as incorrect; empty slots
    are not counted, so the sum never exceeds the length of the log. *)
Theorem calculateStats_total (userAnswers : list (option AnswerRecord)) :
  let stats := calculateStats userAnswers in
  correct stats + incorrect stats = length (omap id userAnswers)
  ∧ correct stats
    = length (List.filter
                (λ a, match correctness a with Correct => true | _ => false end)
                (omap id userAnswers))
  ∧ correct stats + incorrect stats ≤ length userAnswers.
Proof.
  cbv zeta. induction userAnswers as [|x l (IH1 & IH2 & IH3)]; [done|].
  destruct (calculateStats_cons x l) as [-> ->].
  destruct x as [[? [] ? ?]|]; cbn in *; lia.
Qed.

End ScoringFacts.

(** ** Shuffling and answering *)

Module AnswerFacts.
Import JsString Session SessionFacts FilterFacts.

Lemma shuffle_loop_draws (A : Type) (random : nat → nat) (i : nat) :
  ∀ drawn (array : list A), (shuffle_loop random drawn i array).2 = drawn + i.
Proof.
  induction i as [|i IH]; intros drawn array; cbn [shuffle_loop snd]; [lia|].
  rewrite IH. lia.
Qed.

(** X12.  Whatever numbers [Math.random] returns, [shuffleArray] returns a
    rearrangement of its array: the same elements, each as often as before,
    and as many of them; it draws one random number for each position but
    the first. *)
Theorem shuffleArray_permutes
        (A : Type) (random : nat → nat) (drawn : nat) (array : list A) :
  (shuffleArray random drawn array).1 ≡ₚ array
  ∧ length (shuffleArray random drawn array).1 = length array
  ∧ (shuffleArray random drawn array).2 = drawn + (length array - 1).
Proof.
  unfold shuffleArray.
  pose proof (shuffle_loop_Permutation A random (length array - 1) drawn array)
    as Hp.
  split; [exact Hp|]. split; [by rewrite Hp | apply shuffle_loop_draws].
Qed.

(** What [submitAnswer] does to [appState] when the input is not blank and
    there is a current question. *)
Lemma submitAnswer_log
      (input : string) (now : Z) (w : World) (q : Parser.Question) :
  Parser.isBlank input = false →
  filteredQuestions (app w) !! currentQuestionIndex (app w) = Some q →
  app (submitAnswer input now w)
  = setUserAnswers
      (array_set (userAnswers (app w)) (currentQuestionIndex (app w))
         {| answer := trim input;
            correctness :=
              if Normalize.isCorrect (trim input) (Parser.answers q)
              then Correct else Incorrect;
            timeElapsed := timeAllocated (app w) - timerCountdown (dom w);
            timestamp := now |})
      (setTimer None (app w)).
Proof.
  unfold Parser.isBlank. intros Hblank Hq. unfold submitAnswer. rewrite Hblank.
  assert (Hq' : filteredQuestions
                  (app (withApp (setTimer None) (clearInterval (timer (app w)) w)))
                !! currentQuestionIndex
                     (app (withApp (setTimer None) (clearInterval (timer (app w)) w)))
                = Some q).
  { by destruct w as [[] ?], timer. }
  rewrite Hq'. by destruct w as [[] ?], timer.
Qed.

(** X15.  A submitted answer that is not blank is recorded for the current
    question: the trimmed input, Correct or Incorrect as [isCorrect] decides
    against the answers of that question, the seconds allocated less the
    seconds the countdown shows, and the time of submission; it replaces
    whatever the slot held, the other slots are unchanged, and the question
    timer is cancelled, so a later run of its callback changes nothing:
    the answer cannot be overwritten by a timeout. *)
Theorem submitAnswer_records
        (input : string) (now : Z) (w : World) (q : Parser.Question) :
  Parser.isBlank input = false →
  filteredQuestions (app w) !! currentQuestionIndex (app w) = Some q →
  let w' := submitAnswer input now w in
  let index := currentQuestionIndex (app w) in
  array_get (userAnswers (app w')) index
  = Some {| answer := trim input;
            correctness :=
              if Normalize.isCorrect (trim input) (Parser.answers q)
              then Correct else Incorrect;
            timeElapsed := timeAllocated (app w) - timerCountdown (dom w);
            timestamp := now |}
  ∧ (∀ j, j ≠ index →
          array_get (userAnswers (app w')) j = array_get (userAnswers (app w)) j)
  ∧ currentQuestionIndex (app w') = index
  ∧ timer (app w') = None
  ∧ (∀ h now', timer (app w) = Some h → tick h now' w' = w').
Proof.
  intros Hblank Hq. cbv zeta.
  rewrite (submitAnswer_log input now w q Hblank Hq).
  cbn [userAnswers currentQuestionIndex timer setUserAnswers setTimer].
  repeat apply conj; try done.
  - apply array_get_set.
  - intros j Hj. by apply array_get_set_other.
  - intros h now' Hh. unfold Parser.isBlank in Hblank.
    unfold submitAnswer, tick. rewrite Hblank.
    destruct w as [[] ?]; cbn in *. subst. cbn. rewrite Hq. cbn.
    by rewrite lookup_delete_eq.
Qed.

Lemma submitAnswer_records_witness :
  let w := (startPracticeSession 1000 sampleWorld).2 in
  correctness <$>
    array_get (userAnswers (app (submitAnswer " mitochondria " 1500 w)))
              (currentQuestionIndex (app w))
  = Some Correct.
Proof.
  pose proof (submitAnswer_records " mitochondria " 1500
                (startPracticeSession 1000 sampleWorld).2 biology
                eq_refl eq_refl) as [H _].
  cbv zeta in *. rewrite H. reflexivity.
Defined.

(** While the timer runs, the countdown element shows the seconds that are
    left. *)
Lemma ticks_countdown (h : positive) (clock : nat → Z) (k : nat) :
  ∀ from w timeLeft,
    intervals w !! h = Some (QuestionTimer timeLeft) →
    isPaused (app w) = false →
    timerCountdown (dom w) = timeLeft →
    (Z.of_nat k < timeLeft)%Z →
    let w' := ticks h clock from k w in
    app w' = app w
    ∧ timerCountdown (dom w') = (timeLeft - Z.of_nat k)%Z.
Proof.
  induction k as [|k IH]; intros from w timeLeft Hh Hp Hd Hk; cbv zeta.
  - cbn [ticks]. split; [done|]. lia.
  - cbn [ticks].
    assert (Hstep : tick h (clock from) w
                    = withDom (updateTimerDisplay (timeLeft - 1))
                        (withIntervals (<[h := QuestionTimer (timeLeft - 1)]>) w)).
    { unfold tick. rewrite Hh, Hp.
      destruct (Z.leb_spec (timeLeft - 1) 0); [lia | done]. }
    rewrite Hstep.
    destruct (IH (S from)
                (withDom (updateTimerDisplay (timeLeft - 1))
                   (withIntervals (<[h := QuestionTimer (timeLeft - 1)]>) w))
                (timeLeft - 1)%Z) as [Ha Hc].
    + cbn. by rewrite lookup_insert_eq.
    + exact Hp.
    + done.
    + lia.
    + cbv zeta in Ha, Hc. rewrite Ha, Hc. split; [done|]. lia.
Qed.

(** X16.  The time recorded with an answer is the number of whole seconds
    the question timer has counted: an answer submitted after [k] runs of
    the timer callback, before the time is up and without a pause, is
    recorded with [timeElapsed = k]. *)
Theorem submitAnswer_elapsed_seconds
        (input : string) (now : Z) (clock : nat → Z) (k : nat)
        (w : World) (q : Parser.Question) :
  isPaused (app w) = false →
  (Z.of_nat k < timeAllocated (app w))%Z →
  Parser.isBlank input = false →
  filteredQuestions (app w) !! currentQuestionIndex (app w) = Some q →
  let running := ticks (nextHandle w) clock 0 k (startTimer w) in
  timeElapsed <$>
    array_get (userAnswers (app (submitAnswer input now running)))
              (currentQuestionIndex (app w))
  = Some (Z.of_nat k).
Proof.
  intros Hp Hk Hblank Hq running.
  destruct (startTimer_state w) as (Happ & Hint & Hcd).
  destruct (ticks_countdown (nextHandle w) clock k 0 (startTimer w)
              (timeAllocated (app w)) Hint
              ltac:(by rewrite Happ) Hcd Hk) as [Ha Hc].
  cbv zeta in Ha, Hc. fold running in Ha, Hc.
  assert (Hidx : currentQuestionIndex (app running) = currentQuestionIndex (app w))
    by (by rewrite Ha, Happ).
  assert (Hq' : filteredQuestions (app running) !! currentQuestionIndex (app running)
                = Some q) by (by rewrite Ha, Happ).
  rewrite (submitAnswer_log input now running q Hblank Hq'), <- Hidx.
  cbn [userAnswers setUserAnswers]. rewrite array_get_set.
  cbn. rewrite Ha, Happ, Hc. cbn. f_equal. lia.
Qed.

Lemma submitAnswer_elapsed_seconds_witness :
  let w := (startPracticeSession 1000 sampleWorld).2 in
  let running := ticks (nextHandle w) (λ i, 2000 + Z.of_nat i)%Z 0 2 (startTimer w) in
  timeElapsed <$>
    array_get (userAnswers (app (submitAnswer "Mitochondria" 4000 running)))
              (currentQuestionIndex (app w))
  = Some 2%Z.
Proof.
  exact (submitAnswer_elapsed_seconds "Mitochondria" 4000
           (λ i, 2000 + Z.of_nat i)%Z 2
           (startPracticeSession 1000 sampleWorld).2 biology
           eq_refl eq_refl eq_refl eq_refl).
Defined.

End AnswerFacts.

(** ** Pausing, starting and advancing *)

Module FlowFacts.
Import JsString Session SessionFacts FilterFacts Play.

Lemma ticks_paused (h : positive) (clock : nat → Z) (k : nat) :
  ∀ from w timeLeft,
    intervals w !! h = Some (QuestionTimer timeLeft) →
    isPaused (app w) = true →
    ticks h clock from k w = w.
Proof.
  induction k as [|k IH]; intros from w timeLeft Hh Hp; [done|].
  cbn [ticks]. rewrite (tick_paused h (clock from) w timeLeft Hh Hp).
  by eapply IH.
Qed.

(** X17.  A pause freezes the question timer: while the session is paused,
    any number of runs of the timer callback leave the whole state as it
    is, and resuming gives back exactly the state before the pause, with
    the seconds left as they were. *)
Theorem pause_freezes_countdown
        (h : positive) (clock : nat → Z) (from k : nat) (w : World) (timeLeft : Z) :
  intervals w !! h = Some (QuestionTimer timeLeft) →
  isPaused (app w) = false →
  ticks h clock from k (toggleTimerPause w) = toggleTimerPause w
  ∧ toggleTimerPause (ticks h clock from k (toggleTimerPause w)) = w.
Proof.
  intros Hh Hp.
  assert (Hfrozen : ticks h clock from k (toggleTimerPause w) = toggleTimerPause w).
  { apply (ticks_paused h clock k from _ timeLeft); [exact Hh|].
    cbn. by rewrite Hp. }
  split; [exact Hfrozen|]. rewrite Hfrozen.
  destruct w as [[] ?]. cbn in Hp. subst. reflexivity.
Qed.

Lemma pause_freezes_countdown_witness :
  let w := (startPracticeSession 1000 sampleWorld).2 in
  toggleTimerPause (ticks 2 (λ i, 2000 + Z.of_nat i)%Z 0 5 (toggleTimerPause w)) = w.
Proof.
  exact (proj2 (pause_freezes_countdown 2 (λ i, 2000 + Z.of_nat i)%Z 0 5
                  (startPracticeSession 1000 sampleWorld).2 3 eq_refl eq_refl)).
Defined.

Lemma filterQuestions_frame (w : World) :
  app (filterQuestions w).2
  = setFilteredQuestions (filteredQuestions (app (filterQuestions w).2)) (app w)
  ∧ intervals (filterQuestions w).2 = intervals w
  ∧ activeScreen (dom (filterQuestions w).2) = activeScreen (dom w)
  ∧ timerCountdown (dom (filterQuestions w).2) = timerCountdown (dom w).
Proof.
  unfold filterQuestions. destruct (getActiveFilters (dom w)).
  destruct (shuffleArray _ _ _). done.
Qed.

Lemma framed_filterQuestions (f : Dom → Dom) (w0 w : World) :
  (∀ d, activeScreen (f d) = activeScreen d
        ∧ timerCountdown (f d) = timerCountdown d) →
  framed w0 w → framed w0 (filterQuestions (withDom f w)).2.
Proof.
  intros Hf (Ha & Hi & Hs & Hc).
  destruct (filterQuestions_frame (withDom f w)) as (Ha' & Hi' & Hs' & Hc').
  destruct (Hf (dom w)) as [Hfs Hfc].
  unfold framed. rewrite Ha', Hi', Hs', Hc'. cbn [withDom app dom intervals].
  rewrite Hfs, Hfc, Hi, Hs, Hc. repeat apply conj; try done.
  rewrite Ha at 1. by destruct (app w0).
Qed.

(** The filter resolution touches the working set and the filter controls
    only. *)
Lemma framed_resolveFilters (w : World) : framed w (resolveFilters w).2.
Proof.
  assert (Hid : ∀ d : Dom, activeScreen d = activeScreen d
                           ∧ timerCountdown d = timerCountdown d) by done.
  assert (Hsel : ∀ d, activeScreen (selectAllSubjects d) = activeScreen d
                      ∧ timerCountdown (selectAllSubjects d) = timerCountdown d)
    by done.
  assert (Hlev : ∀ d, activeScreen (clearLevel d) = activeScreen d
                      ∧ timerCountdown (clearLevel d) = timerCountdown d)
    by done.
  assert (Hav : ∀ d, activeScreen (selectAllAvailableSubjects d) = activeScreen d
                     ∧ timerCountdown (selectAllAvailableSubjects d)
                       = timerCountdown d) by done.
  assert (H0 : framed w w) by (unfold framed; by destruct w as [[] ?]).
  unfold resolveFilters.
  apply (framed_filterQuestions (λ d, d) w w Hid) in H0.
  replace (withDom (λ d, d) w) with w in H0 by by destruct w.
  destruct (filterQuestions w) as [c0 w0]. cbn [snd] in H0.
  destruct (c0 =? 0); [|done].
  assert (H1 : framed w
            (if length (List.filter checked (subjects (dom w0))) =? 0
             then filterQuestions (withDom selectAllSubjects w0)
             else (c0, w0)).2).
  { destruct (_ =? 0); [by apply framed_filterQuestions | done]. }
  destruct (if length _ =? 0 then _ else _) as [c1 w1]. cbn [snd] in H1.
  assert (H2 : framed w
            (if c1 =? 0 then filterQuestions (withDom clearLevel w1)
             else (c1, w1)).2).
  { destruct (c1 =? 0); [by apply framed_filterQuestions | done]. }
  destruct (if c1 =? 0 then _ else _) as [c2 w2]. cbn [snd] in H2.
  destruct (c2 =? 0); [|done].
  apply (framed_filterQuestions selectAllAvailableSubjects w w2 Hav) in H2.
  by destruct (filterQuestions (withDom selectAllAvailableSubjects w2)).
Qed.

Lemma resolveFilters_count (w : World) :
  (resolveFilters w).1 = length (filteredQuestions (app (resolveFilters w).2)).
Proof.
  destruct (resolveFilters_spec w) as (Hc & _ & _ & Hp). cbv zeta in Hc, Hp.
  by rewrite Hc, Hp.
Qed.

Lemma displayQuestion_frame (q : Parser.Question) (w : World) :
  app (displayQuestion q w)
  = setTextRevealTimer (textRevealTimer (app (displayQuestion q w))) (app w)
  ∧ dom (displayQuestion q w) = dom w.
Proof.
  unfold displayQuestion, startTextReveal.
  generalize (1 <? length (split space (Parser.question q))).
  intros b. destruct w as [[] ?]. by destruct b, textRevealTimer0.
Qed.

(** A question put on the screen: its timer runs with the full time. *)
Lemma question_shown (q : Parser.Question) (w : World) :
  let w' := startTimer (displayQuestion q w) in
  app w'
  = setTimer (timer (app w'))
      (setTextRevealTimer (textRevealTimer (app w')) (app w))
  ∧ (∃ h, timer (app w') = Some h
          ∧ intervals w' !! h = Some (QuestionTimer (timeAllocated (app w))))
  ∧ timerCountdown (dom w') = timeAllocated (app w)
  ∧ activeScreen (dom w') = activeScreen (dom w).
Proof.
  cbv zeta.
  destruct (displayQuestion_frame q w) as [Ha Hd].
  destruct (startTimer_state (displayQuestion q w)) as (Hs & Hi & Hc).
  assert (Halloc : timeAllocated (app (displayQuestion q w)) = timeAllocated (app w))
    by (rewrite Ha; by destruct (app w)).
  repeat apply conj.
  - rewrite Hs. rewrite Ha at 1. by destruct (app w).
  - exists (nextHandle (displayQuestion q w)).
    rewrite Hs, Hi, Halloc. by destruct (app (displayQuestion q w)).
  - by rewrite Hc, Halloc.
  - unfold startTimer. rewrite <- Hd.
    by destruct (displayQuestion q w) as [[] ?], timer.
Qed.

(** X18.  A session that starts is a fresh one: the working set is not
    empty, the first question is current, the answer log is empty, the
    session is active and not paused and carries its start time, the bank
    and the time per question are as before, the question timer is live
    with the full time and the countdown shows it, and the practice screen
    is shown.  Nothing of an earlier session is left in these fields. *)
Theorem startPracticeSession_started (now : Z) (w : World) :
  (startPracticeSession now w).1 = Started →
  let w' := (startPracticeSession now w).2 in
  filteredQuestions (app w') ≠ []
  ∧ currentQuestionIndex (app w') = 0
  ∧ userAnswers (app w') = []
  ∧ sessionStartTime (app w') = Some now
  ∧ isSessionActive (app w') = true
  ∧ isPaused (app w') = false
  ∧ timeAllocated (app w') = timeAllocated (app w)
  ∧ questions (app w') = questions (app w)
  ∧ (∃ h, timer (app w') = Some h
          ∧ intervals w' !! h = Some (QuestionTimer (timeAllocated (app w))))
  ∧ timerCountdown (dom w') = timeAllocated (app w)
  ∧ activeScreen (dom w') = "practice-screen".
Proof.
  unfold startPracticeSession.
  pose proof (framed_resolveFilters w) as (Ha & _).
  pose proof (resolveFilters_count w) as Hn.
  destruct (resolveFilters w) as [c w1]. cbn [fst snd] in *.
  destruct (Nat.eqb_spec c 0) as [->|Hne]; [done|]. intros _.
  set (w2 := withDom (showScreen "practice-screen") (withApp _ w1)).
  assert (Hf : filteredQuestions (app w2) = filteredQuestions (app w1))
    by (subst w2; by destruct w1 as [[] ?]).
  destruct (filteredQuestions (app w1)) as [|first rest] eqn:Hw1;
    [cbn in Hn; lia|].
  rewrite Hf. cbn [snd].
  destruct (question_shown first w2) as (Hsh & Htimer & Hcd & Hscr).
  cbv zeta in Hsh, Htimer, Hcd, Hscr.
  assert (Halloc : timeAllocated (app w2) = timeAllocated (app w)).
  { subst w2. cbn. rewrite Ha. by destruct (app w). }
  rewrite Halloc in Htimer, Hcd.
  rewrite Hsh, Hcd, Hscr.
  repeat apply conj; try done.
  - cbn [filteredQuestions setTimer setTextRevealTimer]. by rewrite Hf.
  - subst w2. cbn. rewrite Ha. by destruct (app w).
Qed.

Lemma startPracticeSession_started_witness :
  let w' := (startPracticeSession 1000 sampleWorld).2 in
  currentQuestionIndex (app w') = 0 ∧ userAnswers (app w') = [].
Proof.
  pose proof (startPracticeSession_started 1000 sampleWorld eq_refl)
    as (_ & Hi & Hu & _).
  exact (conj Hi Hu).
Defined.

(** X19.  When no question can be found, nothing starts:
    [startPracticeSession] leaves [appState] as it was but for an empty
    working set, touches no interval, and leaves the screen and the
    countdown alone; the index, the answer log, the active and paused flags
    and the timer handles of a running session are not reset. *)
Theorem startPracticeSession_without_questions (now : Z) (w : World) :
  (startPracticeSession now w).1 = NoQuestionsFound →
  let w' := (startPracticeSession now w).2 in
  app w' = setFilteredQuestions [] (app w)
  ∧ intervals w' = intervals w
  ∧ activeScreen (dom w') = activeScreen (dom w)
  ∧ timerCountdown (dom w') = timerCountdown (dom w).
Proof.
  unfold startPracticeSession.
  pose proof (framed_resolveFilters w) as (Ha & Hi & Hs & Hc).
  pose proof (resolveFilters_count w) as Hn.
  destruct (resolveFilters w) as [c w1]. cbn [fst snd] in *.
  destruct (Nat.eqb_spec c 0) as [->|Hne].
  - intros _. cbn [snd]. symmetry in Hn. apply length_zero_iff_nil in Hn.
    rewrite Hn in Ha. done.
  - by destruct (filteredQuestions _).
Qed.

Lemma startPracticeSession_without_questions_witness :
  app (startPracticeSession 1000 emptyBankWorld).2
  = setFilteredQuestions [] (app emptyBankWorld).
Proof.
  exact (proj1 (startPracticeSession_without_questions 1000 emptyBankWorld
                  eq_refl)).
Defined.

(** The next button keeps the answer log and the working set, and ends the
    session when it passes the last question. *)
Lemma nextQuestion_log (w : World) :
  let w' := nextQuestion w in
  let next := S (currentQuestionIndex (app w)) in
  currentQuestionIndex (app w') = next
  ∧ userAnswers (app w') = userAnswers (app w)
  ∧ filteredQuestions (app w') = filteredQuestions (app w)
  ∧ (filteredQuestions (app w) !! next = None →
     isSessionActive (app w') = false
     ∧ activeScreen (dom w') = "summary-screen").
Proof.
  cbv zeta. unfold nextQuestion.
  set (w1 := withApp _ w).
  assert (H1 : filteredQuestions (app w1) !! currentQuestionIndex (app w1)
               = filteredQuestions (app w) !! S (currentQuestionIndex (app w)))
    by (subst w1; by destruct w as [[] ?]).
  rewrite H1.
  destruct (filteredQuestions (app w) !! S (currentQuestionIndex (app w)))
    as [q|].
  - destruct (question_shown q w1) as (Hsh & _). cbv zeta in Hsh.
    rewrite Hsh.
    repeat apply conj; try done; subst w1; by destruct w as [[] ?].
  - subst w1. destruct w as [[] ?]; cbn. by destruct timer0, textRevealTimer0.
Qed.

(** X20.  The next button moves to the next question and touches neither
    the answer log nor the working set, also when the current question has
    not been answered.  If there is a next question, its timer is started
    with the full time and the countdown shows it; if there is none, the
    session is ended: it is no longer active, both timer handles are
    cleared, and the summary screen is shown. *)
Theorem nextQuestion_advances (w : World) :
  let w' := nextQuestion w in
  let next := S (currentQuestionIndex (app w)) in
  currentQuestionIndex (app w') = next
  ∧ userAnswers (app w') = userAnswers (app w)
  ∧ filteredQuestions (app w') = filteredQuestions (app w)
  ∧ match filteredQuestions (app w) !! next with
    | Some q =>
        isSessionActive (app w') = isSessionActive (app w)
        ∧ (∃ h, timer (app w') = Some h
                ∧ intervals w' !! h
                  = Some (QuestionTimer (timeAllocated (app w))))
        ∧ timerCountdown (dom w') = timeAllocated (app w)
        ∧ activeScreen (dom w') = activeScreen (dom w)
    | None =>
        isSessionActive (app w') = false
        ∧ timer (app w') = None
        ∧ textRevealTimer (app w') = None
        ∧ activeScreen (dom w') = "summary-screen"
    end.
Proof.
  cbv zeta. unfold nextQuestion.
  set (w1 := withApp _ w).
  assert (H1 : filteredQuestions (app w1) !! currentQuestionIndex (app w1)
               = filteredQuestions (app w) !! S (currentQuestionIndex (app w)))
    by (subst w1; by destruct w as [[] ?]).
  rewrite H1.
  destruct (filteredQuestions (app w) !! S (currentQuestionIndex (app w)))
    as [q|].
  - destruct (question_shown q w1) as (Hsh & Htimer & Hcd & Hscr).
    cbv zeta in Hsh, Htimer, Hcd, Hscr.
    rewrite Hsh, Hcd, Hscr.
    repeat apply conj; subst w1; by destruct w as [[] ?].
  - subst w1. destruct w as [[] ?]; cbn. by destruct timer0, textRevealTimer0.
Qed.

End FlowFacts.

(** ** Whole sessions *)

Module PlayFacts.
Import JsString Session SessionFacts Scoring ScoringFacts AnswerFacts FlowFacts Play.

(** X21.  The engine never leaks an interval: from a state without live
    intervals, after any sequence of button presses, submissions and timer
    runs, every live interval is the one whose handle [appState.timer] holds
    or the one whose handle [appState.textRevealTimer] holds; so at most two
    are live at any time. *)
Theorem live_intervals_are_bounded (events : list Event) (w : World) :
  intervals w = ∅ →
  let w' := run events w in
  (∀ h, is_Some (intervals w' !! h) →
        timer (app w') = Some h ∨ textRevealTimer (app w') = Some h)
  ∧ size (intervals w') ≤ 2.
Proof.
  intros Hnone w'.
  assert (Htr : tracked w').
  { apply tracked_run. intros h. rewrite Hnone, lookup_empty.
    by intros [? ?]. }
  split; [exact Htr|].
  rewrite <- size_dom.
  set (known := (option_to_set (timer (app w'))
                 ∪ option_to_set (textRevealTimer (app w')) : gset positive)).
  transitivity (size known).
  - apply subseteq_size. intros h Hh. apply elem_of_dom in Hh.
    destruct (Htr h Hh) as [H|H]; subst known; rewrite H; set_solver.
  - subst known. rewrite size_union_alt.
    assert (Hone : ∀ o : option positive,
               size (option_to_set o : gset positive) ≤ 1).
    { intros [h|]; cbn; [by rewrite size_singleton | by rewrite size_empty; lia]. }
    pose proof (Hone (timer (app w'))).
    assert (size (option_to_set (textRevealTimer (app w'))
                  ∖ option_to_set (timer (app w')) : gset positive) ≤ 1).
    { etransitivity;
        [apply subseteq_size | apply (Hone (textRevealTimer (app w')))].
      by intros x [Hx _]%elem_of_difference. }
    lia.
Qed.

Lemma live_intervals_are_bounded_witness :
  size (intervals
          (run [StartPractice 1000; SubmitAnswer "x" 1500; NextQuestion;
                StartPractice 3000; ResetFilters; StartPractice 4000]
               sampleWorld)) ≤ 2.
Proof.
  exact (proj2 (live_intervals_are_bounded
                  [StartPractice 1000; SubmitAnswer "x" 1500; NextQuestion;
                   StartPractice 3000; ResetFilters; StartPractice 4000]
                  sampleWorld eq_refl)).
Defined.

Lemma array_set_end (A : Type) (array : list (option A)) (v : A) :
  array_set array (length array) v = array ++ [Some v].
Proof.
  unfold array_set. destruct (decide _) as [H|_]; [lia|].
  by rewrite Nat.sub_diag.
Qed.

Lemma run_cons (e : Event) (events : list Event) (w : World) :
  run (e :: events) w = run events (fire e w).
Proof. reflexivity. Qed.

Lemma answerAndAdvance_cons (input : string) (now : Z) (inputs : list (string * Z)) :
  answerAndAdvance ((input, now) :: inputs)
  = SubmitAnswer input now :: NextQuestion :: answerAndAdvance inputs.
Proof. reflexivity. Qed.

(** Playing the inputs from question [k] on, with the log filled up to
    [k]: one record is appended for each input. *)
Lemma played (inputs : list (string * Z)) :
  ∀ (w : World) (k : nat),
    currentQuestionIndex (app w) = k →
    length (userAnswers (app w)) = k →
    k + length inputs = length (filteredQuestions (app w)) →
    Forall (λ i, Parser.isBlank i.1 = false) inputs →
    let w' := run (answerAndAdvance inputs) w in
    let before := calculateStats (userAnswers (app w)) in
    let after := calculateStats (userAnswers (app w')) in
    correct after
    = correct before
      + length (List.filter answersCorrectly
                  (zip (drop k (filteredQuestions (app w))) inputs))
    ∧ correct after + incorrect after
      = correct before + incorrect before + length inputs
    ∧ length (userAnswers (app w')) = k + length inputs
    ∧ currentQuestionIndex (app w') = k + length inputs
    ∧ filteredQuestions (app w') = filteredQuestions (app w)
    ∧ (inputs ≠ [] →
       isSessionActive (app w') = false
       ∧ activeScreen (dom w') = "summary-screen").
Proof.
  induction inputs as [|[input now] inputs IH]; intros w k Hk Hlen Hn Hne;
    cbv zeta.
  - cbn. rewrite zip_with_nil_r. cbn. repeat apply conj; lia || done.
  - cbn [length] in Hn. inversion Hne as [|? ? Hblank Hrest]; subst.
    cbn [fst] in Hblank.
    destruct (lookup_lt_is_Some_2 (filteredQuestions (app w))
                (currentQuestionIndex (app w)) ltac:(lia)) as [q Hq].
    rewrite answerAndAdvance_cons, !run_cons. cbn [fire].
    pose proof (submitAnswer_log input now w q Hblank Hq) as Hsub.
    set (w1 := submitAnswer input now w) in *.
    destruct (nextQuestion_log w1) as (Hi2 & Hu2 & Hf2 & Hend).
    cbv zeta in Hi2, Hu2, Hf2, Hend.
    set (w2 := nextQuestion w1) in *.
    assert (Hu1 : userAnswers (app w1)
                  = userAnswers (app w)
                    ++ [Some {| answer := trim input;
                                correctness :=
                                  if Normalize.isCorrect (trim input) (Parser.answers q)
                                  then Correct else Incorrect;
                                timeElapsed := timeAllocated (app w) - timerCountdown (dom w);
                                timestamp := now |}]).
    { rewrite Hsub. cbn. rewrite <- Hlen. apply array_set_end. }
    assert (Hi1 : currentQuestionIndex (app w1) = currentQuestionIndex (app w))
      by (by rewrite Hsub).
    assert (Hf1 : filteredQuestions (app w1) = filteredQuestions (app w))
      by (by rewrite Hsub).
    specialize (IH w2 (S (currentQuestionIndex (app w)))).
    cbv zeta in IH.
    destruct IH as (Hc & Ht & Hl & Hi & Hf & Hlast).
    + by rewrite Hi2, Hi1.
    + rewrite Hu2, Hu1, length_app. cbn. lia.
    + rewrite Hf2, Hf1. lia.
    + exact Hrest.
    + rewrite Hf2, Hf1, Hu2, Hu1 in *.
      destruct (calculateStats_app (userAnswers (app w))
                  [Some {| answer := trim input;
                           correctness :=
                             if Normalize.isCorrect (trim input) (Parser.answers q)
                             then Correct else Incorrect;
                           timeElapsed := timeAllocated (app w) - timerCountdown (dom w);
                           timestamp := now |}]) as [Hca Hia].
      rewrite Hca in Hc, Ht. rewrite Hia in Ht.
      rewrite (drop_S _ q _ Hq). cbn [zip_with List.filter].
      unfold answersCorrectly at 1. cbn [fst snd].
      rewrite Hl, Hi.
      destruct (Normalize.isCorrect (trim input) (Parser.answers q));
        change (correct (calculateStats [Some _])) with 1 in *
        || change (correct (calculateStats [Some _])) with 0 in *;
        change (incorrect (calculateStats [Some _])) with 1 in *
        || change (incorrect (calculateStats [Some _])) with 0 in *;
        cbn [length]; repeat apply conj; try done; try lia.
      all: intros _; destruct inputs as [|next inputs]; [|by apply Hlast].
      all: cbn [length] in Hn; cbn [answerAndAdvance flat_map run fold_left].
      all: apply Hend, lookup_ge_None_2; lia.
Qed.

(** X22.  A session played through adds up: when each question of the
    working set, in order, is answered with an input that is not blank and
    followed by the next button, the correct count is the number of
    questions whose input matches, correct and incorrect counts together are
    the number of questions, and if every input matches the score is all
    correct and none incorrect; after the last question the session is no
    longer active and the summary screen is shown. *)
Theorem session_score (inputs : list (string * Z)) (w : World) :
  currentQuestionIndex (app w) = 0 →
  userAnswers (app w) = [] →
  length inputs = length (filteredQuestions (app w)) →
  Forall (λ i, Parser.isBlank i.1 = false) inputs →
  let w' := run (answerAndAdvance inputs) w in
  let stats := calculateStats (userAnswers (app w')) in
  correct stats
  = length (List.filter answersCorrectly (zip (filteredQuestions (app w)) inputs))
  ∧ correct stats + incorrect stats = length (filteredQuestions (app w))
  ∧ (Forall (λ pair, answersCorrectly pair = true)
            (zip (filteredQuestions (app w)) inputs) →
     correct stats = length (filteredQuestions (app w)) ∧ incorrect stats = 0)
  ∧ (inputs ≠ [] →
     isSessionActive (app w') = false
     ∧ activeScreen (dom w') = "summary-screen").
Proof.
  intros Hi Hu Hlen Hne. cbv zeta.
  destruct (played inputs w 0 Hi ltac:(by rewrite Hu) ltac:(cbn; lia) Hne)
    as (Hc & Ht & _ & _ & _ & Hlast).
  cbv zeta in Hc, Ht, Hlast. rewrite Hu in Hc, Ht. cbn in Hc, Ht.
  rewrite Hc in *. split; [done|]. split; [lia|]. split; [|exact Hlast].
  intros Hall.
  assert (Hfull : length (List.filter answersCorrectly
                            (zip (filteredQuestions (app w)) inputs))
                  = length (filteredQuestions (app w))).
  { rewrite <- (length_zip_with_l_eq pair (filteredQuestions (app w)) inputs)
      by lia.
    f_equal. apply forallb_filter_id, forallb_forall.
    intros x Hx. apply Forall_forall with (x := x) in Hall; [done|].
    by apply list_elem_of_In. }
  rewrite drop_0 in *. lia.
Qed.

Lemma session_score_witness :
  let w := (startPracticeSession 1000 sampleWorld).2 in
  correct (calculateStats
             (userAnswers (app (run (answerAndAdvance [("Mitochondria", 2000%Z)]) w))))
  = 1.
Proof.
  refine (proj1 (session_score [("Mitochondria", 2000%Z)]
                   (startPracticeSession 1000 sampleWorld).2 _ _ _ _));
    try reflexivity.
  repeat constructor.
Defined.

End PlayFacts.

(** ** The exported file *)

Module CsvTextFacts.
Import JsString JsStringFacts Session Csv CsvText CsvReader.

Lemma readCsv_shape (text : string) :
  ∀ inQuotes, ∃ cell row rows, readCsv inQuotes text = (cell :: row) :: rows.
Proof.
  assert (Hext : ∀ c t, (∃ cell row rows, t = (cell :: row) :: rows) →
                        ∃ cell row rows, extendCell c t = (cell :: row) :: rows).
  { intros c t (cell & row & rows & ->). cbn. eauto. }
  assert (Hlen : ∀ n text, String.length text ≤ n →
            ∀ inQuotes, ∃ cell row rows,
              readCsv inQuotes text = (cell :: row) :: rows).
  { clear text. induction n as [|n IH]; intros text Hn inQuotes.
    - destruct text; [cbn; eauto | cbn in Hn; lia].
    - destruct text as [|c rest]; [cbn; eauto|]. cbn [String.length] in Hn.
      assert (Hrest : ∀ b, ∃ cell row rows, readCsv b rest = (cell :: row) :: rows)
        by (intros; apply IH; lia).
      cbn [readCsv]. destruct inQuotes.
      + destruct (Ascii.eqb c dquote); [|by apply Hext].
        destruct rest as [|d rest2]; [cbn; eauto|].
        destruct (Ascii.eqb d dquote); [|apply Hrest].
        apply Hext, IH. cbn [String.length] in Hn. lia.
      + destruct (Ascii.eqb c comma).
        { destruct (Hrest false) as (cell & row & rows & ->). cbn. eauto. }
        destruct (Ascii.eqb c newline); [eauto|].
        destruct (Ascii.eqb c dquote); [apply Hrest | by apply Hext]. }
  intros inQuotes. by apply (Hlen (String.length text)).
Qed.

Lemma prepend_extendCell (c : ascii) (s : string) (t : list (list string)) :
  extendCell c (prepend s t) = prepend (String c s) t.
Proof. by destruct t as [|[|cell row] rows]. Qed.

Lemma prepend_empty (text : string) (inQuotes : bool) :
  prepend "" (readCsv inQuotes text) = readCsv inQuotes text.
Proof.
  destruct (readCsv_shape text inQuotes) as (cell & row & rows & ->).
  cbn. by rewrite sapp_nil_l.
Qed.

Lemma readCsv_quoted (s rest : string) :
  ends rest →
  readCsv true (doubleQuotes s +:+ String dquote rest)
  = prepend s (readCsv false rest).
Proof.
  intros Hrest. induction s as [|c s IH].
  - rewrite sapp_nil_l, prepend_empty. cbn [readCsv].
    rewrite Ascii.eqb_refl.
    destruct rest as [|d rest2]; [done|].
    destruct Hrest as [->| ->]; done.
  - cbn [doubleQuotes]. destruct (Ascii.eqb_spec c dquote) as [->|Hc].
    + rewrite !sapp_cons. cbn [readCsv]. rewrite Ascii.eqb_refl.
      by rewrite IH, prepend_extendCell.
    + rewrite sapp_cons. cbn [readCsv].
      apply Ascii.eqb_neq in Hc. rewrite Hc.
      by rewrite IH, prepend_extendCell.
Qed.

Lemma readCsv_unquoted (s rest : string) :
  occurs comma s || occurs dquote s || occurs newline s = false →
  readCsv false (s +:+ rest) = prepend s (readCsv false rest).
Proof.
  induction s as [|c s IH]; intros H.
  - by rewrite sapp_nil_l, prepend_empty.
  - cbn [occurs] in H.
    apply orb_false_iff in H as [[[Hc1 H1]%orb_false_iff [Hc2 H2]%orb_false_iff]%orb_false_iff
                                   [Hc3 H3]%orb_false_iff].
    rewrite sapp_cons. cbn [readCsv]. rewrite Hc1, Hc2, Hc3.
    rewrite IH by (by rewrite H1, H2, H3).
    apply prepend_extendCell.
Qed.

Lemma readCsv_escapeCsvField (field : Field) (rest : string) :
  ends rest →
  readCsv false (escapeCsvField field +:+ rest)
  = prepend (cellText field) (readCsv false rest).
Proof.
  intros Hrest.
  assert (Htext : ∀ s,
    readCsv false
      ((if occurs comma s || occurs dquote s || occurs newline s
        then String dquote (push (doubleQuotes s) dquote) else s) +:+ rest)
    = prepend s (readCsv false rest)).
  { intros s.
    destruct (occurs comma s || occurs dquote s || occurs newline s) eqn:Hq.
    - rewrite sapp_cons. cbn [readCsv]. change (Ascii.eqb dquote comma) with false.
      change (Ascii.eqb dquote newline) with false. rewrite Ascii.eqb_refl.
      cbn iota. unfold push. rewrite sapp_assoc, sapp_cons, sapp_nil_l.
      by apply readCsv_quoted.
    - by apply readCsv_unquoted. }
  destruct field as [|s|n]; cbn [escapeCsvField cellText].
  - by rewrite sapp_nil_l, prepend_empty.
  - apply Htext.
  - apply Htext.
Qed.

Lemma rowText_cons (field next : Field) (fields : list Field) :
  rowText (field :: next :: fields)
  = escapeCsvField field +:+ String comma (rowText (next :: fields)).
Proof. reflexivity. Qed.

Lemma readCsv_row (fields : list Field) :
  ∀ field rest rows,
    ends rest → readCsv false rest = [""] :: rows →
    readCsv false (rowText (field :: fields) +:+ rest)
    = List.map cellText (field :: fields) :: rows.
Proof.
  induction fields as [|next fields IH]; intros field rest rows Hends Hrest.
  - change (rowText [field]) with (escapeCsvField field).
    rewrite readCsv_escapeCsvField, Hrest by done. cbn. by rewrite sapp_nil_r.
  - rewrite rowText_cons, sapp_assoc, sapp_cons.
    rewrite readCsv_escapeCsvField by (by left).
    cbn [readCsv]. rewrite Ascii.eqb_refl.
    rewrite (IH next rest rows Hends Hrest). cbn. by rewrite sapp_nil_r.
Qed.

Lemma readCsv_rows (rows : list (list Field)) :
  ∀ row,
    Forall (λ r, r ≠ []) (row :: rows) →
    readCsv false (String.concat (String newline "") (List.map rowText (row :: rows)))
    = List.map (List.map cellText) (row :: rows).
Proof.
  induction rows as [|next rows IH]; intros row Hne.
  - destruct row as [|field fields]; [by inversion Hne|].
    cbn [List.map String.concat].
    rewrite <- (sapp_nil_r (rowText _)).
    by rewrite (readCsv_row fields field "" []).
  - destruct row as [|field fields]; [by inversion Hne|].
    inversion Hne as [|? ? _ Hrest]; subst.
    change (String.concat (String newline "")
              (List.map rowText ((field :: fields) :: next :: rows)))
      with (rowText (field :: fields)
            +:+ String newline
                  (String.concat (String newline "")
                     (List.map rowText (next :: rows)))).
    rewrite (readCsv_row fields field _
               (List.map (List.map cellText) (next :: rows))).
    + done.
    + by right.
    + cbn [readCsv]. change (Ascii.eqb newline comma) with false.
      rewrite Ascii.eqb_refl. cbn iota. by rewrite IH.
Qed.

Lemma readCsv_arrayToCsv (data : list Row) (headers : list string) :
  headers ≠ [] →
  readCsv false (arrayToCsv data headers) = cells data headers.
Proof.
  intros Hne. unfold arrayToCsv, cells.
  change ([String.concat "," (List.map (λ header, escapeCsvField (Text header)) headers)]
          ++ List.map
               (λ row, String.concat ","
                         (List.map (λ header, escapeCsvField (row header)) headers))
               data)
    with (String.concat "," (List.map (λ header, escapeCsvField (Text header)) headers)
          :: List.map
               (λ row, String.concat ","
                         (List.map (λ header, escapeCsvField (row header)) headers))
               data).
  replace (String.concat "," (List.map (λ header, escapeCsvField (Text header)) headers))
    with (rowText (List.map Text headers))
    by (unfold rowText; by rewrite List.map_map).
  replace (List.map
             (λ row, String.concat ","
                       (List.map (λ header, escapeCsvField (row header)) headers))
             data)
    with (List.map rowText (List.map (λ row : Row, List.map row headers) data)).
  2:{ rewrite List.map_map. apply List.map_ext. intros row. unfold rowText.
      by rewrite List.map_map. }
  change (rowText (List.map Text headers)
          :: List.map rowText (List.map (λ row : Row, List.map row headers) data))
    with (List.map rowText
            (List.map Text headers
             :: List.map (λ row : Row, List.map row headers) data)).
  rewrite readCsv_rows.
  - cbn [List.map]. f_equal.
    + rewrite List.map_map. cbn. apply List.map_id.
    + rewrite List.map_map. apply List.map_ext. intros row.
      exact (List.map_map row cellText headers).
  - constructor; [by destruct headers|].
    induction data as [|row data IH]; constructor; [by destruct headers | exact IH].
Qed.

(** X23.  The text that [arrayToCsv] writes determines every cell: if two
    tables with at least one column each give the same text, they have the
    same headers and, row by row and column by column, the same cell texts.
    Commas, double quotes and line feeds inside a value are quoted so that
    they cannot be taken for separators. *)
Theorem arrayToCsv_determines_cells
        (data data' : list Row) (headers headers' : list string) :
  headers ≠ [] → headers' ≠ [] →
  arrayToCsv data headers = arrayToCsv data' headers' →
  cells data headers = cells data' headers'.
Proof.
  intros Hne Hne' Heq.
  rewrite <- (readCsv_arrayToCsv data headers Hne).
  rewrite <- (readCsv_arrayToCsv data' headers' Hne').
  by rewrite Heq.
Qed.

Lemma arrayToCsv_determines_cells_witness :
  let row : Row := λ header, if String.eqb header "a" then Text "x,y" else Number 7 in
  cells [row] ["a"; "b"] = [["a"; "b"]; ["x,y"; "7"]].
Proof.
  exact (arrayToCsv_determines_cells
           [λ header, if String.eqb header "a" then Text "x,y" else Number 7]
           [λ header, if String.eqb header "a" then Text "x,y" else Text "7"]
           ["a"; "b"] ["a"; "b"] ltac:(done) ltac:(done) eq_refl).
Defined.

Lemma toString_Number_inj (a b : Z) :
  toString (Number a) = toString (Number b) → a = b.
Proof.
  cbn [toString]. intros H.
  assert (Hnil : ∀ z, Z.to_int z ≠ Decimal.Pos Decimal.Nil
                      ∧ Z.to_int z ≠ Decimal.Neg Decimal.Nil).
  { intros [|p|p]; cbn; split; try done; intros [= Hp];
      by apply Unsigned.to_uint_nonnil in Hp. }
  apply DecimalZ.to_int_inj.
  assert (Hs : Some (Z.to_int a) = Some (Z.to_int b)).
  { rewrite <- (NilZero.isi (Z.to_int a)) by apply Hnil.
    rewrite <- (NilZero.isi (Z.to_int b)) by apply Hnil.
    by rewrite H. }
  by injection Hs.
Qed.

Lemma cons_eq (A : Type) (x y : A) (l l' : list A) :
  x :: l = y :: l' → x = y ∧ l = l'.
Proof. intros H. by injection H. Qed.

Lemma property_cells_inj (r r' : CsvRow) :
  List.map (λ header, cellText (property r header)) headers
  = List.map (λ header, cellText (property r' header)) headers →
  r = r'.
Proof.
  cbn. intros H.
  injection H as H1 H2 H3 H4 H5 H6 H7 H8 H9 H10 H11.
  apply toString_Number_inj in H8, H9.
  destruct r, r'; cbn in *. subst.
  f_equal. by destruct correctness0, correctness1.
Qed.

(** X24.  The exported file determines the session results: two lists
    of result rows with the same CSV content are the same list, row by row
    and field by field, whatever text the questions and the answers hold. *)
Theorem csvContent_determines_results (results results' : list CsvRow) :
  csvContent results = csvContent results' → results = results'.
Proof.
  unfold csvContent. intros H.
  apply (f_equal (readCsv false)) in H.
  rewrite !readCsv_arrayToCsv in H by done.
  unfold cells in H. apply cons_eq in H as [_ H].
  revert results' H. induction results as [|r results IH];
    intros [|r' results'] H; try done.
  cbn [List.map] in H. apply cons_eq in H as [Hrow Hrest].
  by rewrite (IH results' Hrest), (property_cells_inj r r' Hrow).
Qed.

Lemma csvContent_determines_results_witness :
  prepareSessionResultsForCsv [biology] [] 3 "2026-01-01T00:00:00.000Z"
  = [{| questionId := "q1"; category := "Science>Biological Science";
        subjectSpecific := "Biological Science"; level := "Freshman";
        question := "Organelle for ATP production?"; userAnswer := "";
        correctness := Incorrect; timeAllocatedSec := 3; timeElapsedSec := 0;
        author := "NCAL"; timestamp := "2026-01-01T00:00:00.000Z" |}].
Proof.
  exact (csvContent_determines_results
           (prepareSessionResultsForCsv [biology] [] 3 "2026-01-01T00:00:00.000Z")
           [{| questionId := "q1"; category := "Science>Biological Science";
               subjectSpecific := "Biological Science"; level := "Freshman";
               question := "Organelle for ATP production?"; userAnswer := "";
               correctness := Incorrect; timeAllocatedSec := 3;
               timeElapsedSec := 0; author := "NCAL";
               timestamp := "2026-01-01T00:00:00.000Z" |}]
           eq_refl).
Defined.

End CsvTextFacts.

(** ** The text reveal and the subject boxes *)

Module UiFacts.
Import JsString Session SessionFacts FilterFacts.

(** Runs of the reveal callback while words are left: each shows one more
    word and touches nothing else. *)
Lemma reveal_ticks (h : positive) (clock : nat → Z) (words : list string) (k : nat) :
  ∀ from w index,
    intervals w !! h = Some (TextReveal words index) →
    index + k ≤ length words →
    let w' := ticks h clock from k w in
    app w' = app w
    ∧ dom w' = dom w
    ∧ intervals w' = <[h := TextReveal words (index + k)]> (intervals w).
Proof.
  induction k as [|k IH]; intros from w index Hh Hk; cbv zeta.
  - cbn [ticks]. rewrite Nat.add_0_r. repeat apply conj; try done.
    by rewrite insert_id.
  - cbn [ticks].
    assert (Hstep : tick h (clock from) w
                    = withIntervals (<[h := TextReveal words (S index)]>) w).
    { unfold tick. rewrite Hh.
      destruct (Nat.ltb_spec index (length words)); [done | lia]. }
    rewrite Hstep.
    destruct (IH (S from) (withIntervals (<[h := TextReveal words (S index)]>) w)
                (S index)) as (Ha & Hd & Hi).
    + cbn. by rewrite lookup_insert_eq.
    + lia.
    + cbv zeta in Ha, Hd, Hi. rewrite Ha, Hd, Hi. cbn.
      repeat apply conj; try done.
      rewrite insert_insert_eq. f_equal. f_equal. lia.
Qed.

(** X25.  The text reveal of a question of more than one word ends by
    itself: [startTextReveal] shows the first word and registers an interval
    under [appState.textRevealTimer]; each run of its callback shows one
    more word, paused or not, and the run after the last word cancels the
    interval and clears the handle, leaving the rest of [appState] as it was
    before the reveal started. *)
Theorem text_reveal_finishes (fullText : string) (clock : nat → Z) (w : World) :
  1 < length (split space fullText) →
  let words := split space fullText in
  let h := nextHandle w in
  let w1 := startTextReveal fullText w in
  textRevealTimer (app w1) = Some h
  ∧ (∀ k, k < length words →
          intervals (ticks h clock 0 k w1) !! h = Some (TextReveal words (1 + k)))
  ∧ intervals (ticks h clock 0 (length words) w1) !! h = None
  ∧ app (ticks h clock 0 (length words) w1) = setTextRevealTimer None (app w).
Proof.
  intros Hn words h w1. change (1 < length words) in Hn.
  assert (Hw1 : app w1 = setTextRevealTimer (Some h) (app w)
                ∧ intervals w1 !! h = Some (TextReveal words 1)).
  { subst w1 h. unfold startTextReveal. fold words.
    destruct (Nat.ltb_spec 1 (length words)); [|lia].
    destruct w as [[] ?]; cbn. destruct textRevealTimer0; cbn;
      by rewrite lookup_insert_eq. }
  destruct Hw1 as [Ha Hi].
  split; [by rewrite Ha|].
  assert (Hrun : ∀ k, k < length words →
            app (ticks h clock 0 k w1) = app w1
            ∧ intervals (ticks h clock 0 k w1) !! h
              = Some (TextReveal words (1 + k))).
  { intros k Hk.
    destruct (reveal_ticks h clock words k 0 w1 1 Hi ltac:(lia)) as (Hka & _ & Hki).
    cbv zeta in Hka, Hki. rewrite Hka, Hki. split; [done|].
    by rewrite lookup_insert_eq. }
  split; [intros k Hk; by apply Hrun|].
  destruct (length words) as [|n] eqn:Hlen; [lia|].
  rewrite ticks_last. cbn [Nat.add].
  destruct (Hrun n ltac:(lia)) as [Hna Hni].
  revert Hna Hni. generalize (ticks h clock 0 n w1). intros w2 Hna Hni.
  unfold tick. rewrite Hni.
  replace (1 + n) with (length words) by lia.
  rewrite Nat.ltb_irrefl. rewrite Ha in Hna.
  destruct w2 as [a2 ? ? ? ? ?]. cbn in Hna, Hni. subst a2. cbn.
  rewrite lookup_delete_eq. split; [done|]. by destruct (app w).
Qed.

Lemma text_reveal_finishes_witness :
  intervals
    (ticks 1 (λ i, 300 * Z.of_nat i)%Z 0 3
       (startTextReveal "Capital of Russia?" sampleWorld)) !! 1%positive
  = None.
Proof.
  exact (proj1 (proj2 (proj2
           (text_reveal_finishes "Capital of Russia?" (λ i, 300 * Z.of_nat i)%Z
              sampleWorld ltac:(cbn; lia))))).
Defined.

(** X26.  The subject boxes follow the bank: once [updateSubjectSelector]
    has run on the bank, and after any later sequence of button presses,
    submissions and timer runs, a subject box is disabled exactly when the
    bank has no question of its category, and no disabled box is checked. *)
Theorem subject_boxes_follow_bank (events : list Event) (w : World) :
  let w' := run events (withDom (updateSubjectSelector (questions (app w))) w) in
  Forall (λ cb, disabled cb = negb (hasQuestions (questions (app w')) (value cb))
                ∧ (disabled cb = true → checked cb = false))
         (subjects (dom w')).
Proof.
  intros w'.
  assert (Hl : loaded w' = true)
    by apply loaded_run, updateSubjectSelector_loaded.
  unfold loaded in Hl. apply Forall_forall. intros cb Hcb.
  apply list_elem_of_In in Hcb.
  apply (proj1 (forallb_forall _ _) Hl) in Hcb.
  unfold consistentBox in Hcb.
  apply andb_true_iff in Hcb as [Heq Hchk].
  apply Bool.eqb_prop in Heq. split; [exact Heq|].
  intros Hd. rewrite Hd in Hchk. by destruct (checked cb).
Qed.

End UiFacts.
